(** * Move.Text: indexing, matching and transfer of text between frames

    A shallow embedding of [code.ts] and the properties of its
    tree-alignment algorithm.  The file holds three successive variants
    of the plugin; the one embedded here is the last, with the
    serializable payload: [indexTextNodes], [mapTextNodes],
    [calculatePathSimilarity], [findNodeAtPath], [ensureFontsLoaded],
    [validateSingleFrameSelection], [updateSelectionFeedback], the
    serializers, [handleCopy], [handlePaste], [handleClear] and the
    message dispatcher.  Of the second variant, the matcher by three
    strategies is embedded as well, in the module [Basic].

    Modelling conventions.
    - Scores are exact rationals ([Q]) where the source has binary64
      numbers: they are sums of small integers and of one fraction
      [50 * k / n] with [k <= n] the lengths of paths, and the properties
      below only compare them with each other and with 1000.  A strict
      comparison of two such scores comes out the same in binary64 for
      paths of any length that a document has; two scores that are equal
      as rationals need not be equal in binary64, so that no property
      below says which of two equal scores is preferred.  Font sizes
      are rationals as well.  Percentages are computed in binary64 as
      the source does.  Array indices, counters and path components are
      [nat].
    - Strings are [string] (sequences of 8-bit characters); [toLowerCase]
      and the whitespace class of [/\s+/] are the ASCII ones.
    - [Set<number>] is a [gset nat]; arrays are lists, read by position
      with [!!] and written with [<[i:=x]>].  [Array.prototype.sort] is
      stable.
    - The host (Figma) is explicit data: a text node carries its [locked]
      flag and the error, if any, that the host raises when its
      [characters] are assigned; font loading, the key-value store and the
      selection are fields of the [World].
    - The progress callback is either absent or present; when present it
      returns normally, as the contract of the progress sink requires.
      The module [Callback] has [ensureFontsLoaded] and [mapTextNodes]
      for a callback that may throw; with a callback that returns they
      are the functions of the same names outside it.
    - The lines of the report are kept as structured values ([Detail])
      that carry what the source interpolates into its strings. *)

From Stdlib Require Import QArith Qround Lqa Floats.
From stdpp Require Import base decidable option list sorting gmap strings.
From Equations Require Import Equations.
From Stdlib Require Import Ascii.

Set Warnings "-register-all".

Close Scope Q_scope.
Local Open Scope string_scope.
Local Open Scope list_scope.
Local Open Scope nat_scope.

(** ** Host values *)

(** A property that may hold the [figma.mixed] symbol, be left out
    ([undefined]) or hold a proper value. *)
Inductive Attr (A : Type) : Type :=
| Absent
| MixedSym
| Present (a : A).
Arguments Absent {A}.
Arguments MixedSym {A}.
Arguments Present {A} a.

Record FontName := mkFontName { family : string; style : string }.

#[global] Instance FontName_eq_dec : EqDecision FontName.
Proof. solve_decision. Defined.

(** The live text node of the document ([TextNode] of the host API). *)
Record TextNode := mkTextNode {
  nodeName : string;
  nodeCharacters : string;
  nodeFontSize : Attr Q;
  nodeFontName : Attr FontName;
  nodeTextStyleId : Attr string;
  locked : bool;
  (** [Some e]: the host throws [e] when [characters] is assigned (for
      instance because the node's font is not loaded). *)
  writeError : option string
}.

Inductive NodeType := FRAME | GROUP | OTHER.

#[global] Instance NodeType_eq_dec : EqDecision NodeType.
Proof. solve_decision. Defined.

(** The document tree.  A node of type ["TEXT"] has no [children]
    property; frames and groups have one; every other node is a childless
    shape. *)
Inductive SceneNode :=
| TextLeaf (t : TextNode)
| Container (type : NodeType) (id name : string) (children : list SceneNode)
| Shape (name : string).

(** ** Interfaces of [code.ts] *)

Record TextItem := mkTextItem {
  path : list nat;
  name : option string;
  characters : string;
  fontSize : Attr Q;
  fontName : Attr FontName;
  textStyleId : option string
}.

Record SerializableTextItem := mkSerializableTextItem {
  s_path : list nat;
  s_name : option string;
  s_characters : string;
  s_fontSize : Attr Q;
  s_fontFamily : option string;
  s_fontStyle : option string;
  s_textStyleId : option string
}.

Record FrameStructure := mkFrameStructure {
  nodeCount : nat;
  textNodeCount : nat;
  maxDepth : nat;
  layerNames : list string
}.

Record CopyPayload := mkCopyPayload {
  sourceFrameId : string;
  sourceFrameName : string;
  capturedAt : Z;
  items : list TextItem;
  frameStructure : FrameStructure
}.

Record SerializableCopyPayload := mkSerializableCopyPayload {
  ss_sourceFrameId : string;
  ss_sourceFrameName : string;
  ss_capturedAt : Z;
  ss_items : list SerializableTextItem;
  ss_frameStructure : FrameStructure
}.

(** ** JavaScript primitives used by the matcher *)

Module Js.

(** Truthiness of an optional string: present and not empty. *)
Definition truthy_str (o : option string) : bool :=
  match o with
  | Some s => negb (String.eqb s "")
  | None => false
  end.

(** Truthiness of a number-or-symbol property: a symbol is truthy, a
    number is truthy unless it is zero. *)
Definition truthy_num (a : Attr Q) : bool :=
  match a with
  | Absent => false
  | MixedSym => true
  | Present q => negb (Qeq_bool q 0)
  end.

Definition truthy_obj {A} (a : Attr A) : bool :=
  match a with
  | Absent => false
  | _ => true
  end.

(** [a === b] on optional strings ([undefined === undefined] holds). *)
Definition strict_eq_str (a b : option string) : bool :=
  match a, b with
  | Some x, Some y => String.eqb x y
  | None, None => true
  | _, _ => false
  end.

(** [a === b] on numbers and the [figma.mixed] symbol. *)
Definition strict_eq_num (a b : Attr Q) : bool :=
  match a, b with
  | Present x, Present y => Qeq_bool x y
  | MixedSym, MixedSym => true
  | Absent, Absent => true
  | _, _ => false
  end.

(** [fontName.family]: reading a property of a symbol gives
    [undefined]. *)
Definition family_of (a : Attr FontName) : option string :=
  match a with
  | Present f => Some (family f)
  | _ => None
  end.

Definition is_upper (c : ascii) : bool :=
  let n := nat_of_ascii c in (65 <=? n) && (n <=? 90).

Definition lower_char (c : ascii) : ascii :=
  if is_upper c then ascii_of_nat (nat_of_ascii c + 32) else c.

Fixpoint toLowerCase (s : string) : string :=
  match s with
  | EmptyString => EmptyString
  | String c r => String (lower_char c) (toLowerCase r)
  end.

(** The characters matched by [\s]: tab, line feed, vertical tab, form
    feed, carriage return and space. *)
Definition is_space (c : ascii) : bool :=
  let n := nat_of_ascii c in ((9 <=? n) && (n <=? 13)) || (n =? 32).

(** [s.split(/\s+/)]: the pieces between maximal runs of whitespace; a
    leading or trailing run leaves an empty piece at that end.  [cur]
    is the piece being read, reversed; [in_ws] tells that the previous
    character was whitespace. *)
Fixpoint split_ws_aux (s : string) (cur : list ascii) (in_ws : bool)
  : list string :=
  match s with
  | EmptyString => [String.string_of_list_ascii (rev cur)]
  | String c r =>
      if is_space c then
        if in_ws then split_ws_aux r [] true
        else String.string_of_list_ascii (rev cur) :: split_ws_aux r [] true
      else split_ws_aux r (c :: cur) false
  end.

Definition split_ws (s : string) : list string := split_ws_aux s [] false.

(** [arr.includes(w)] *)
Definition includes (arr : list string) (w : string) : bool :=
  existsb (String.eqb w) arr.

(** [s.substring(0, n)] *)
Definition substring0 (n : nat) (s : string) : string := String.substring 0 n s.

End Js.

(** ** Matcher: scoring *)

(** [path1.length === path2.length && path1.every((val, i) => val === path2[i])] *)
Definition path_equal (p1 p2 : list nat) : bool :=
  (length p1 =? length p2) &&
  forallb id (imap (fun i val => bool_decide (p2 !! i = Some val)) p1).

(** The counting loop of [calculatePathSimilarity]: the number of leading
    positions at which both paths agree, stopping at the first mismatch or
    at the end of the shorter path. *)
Fixpoint common_prefix (p1 p2 : list nat) : nat :=
  match p1, p2 with
  | a :: r1, b :: r2 => if a =? b then S (common_prefix r1 r2) else 0
  | _, _ => 0
  end.

Definition calculatePathSimilarity (path1 path2 : list nat) : Q :=
  if (length path1 =? 0) || (length path2 =? 0) then 0%Q
  else (inject_Z (Z.of_nat (common_prefix path1 path2)) /
        inject_Z (Z.of_nat (Nat.max (length path1) (length path2))))%Q.

(** [sourceWords.filter(word => targetWords.includes(word))] on the
    lower-cased, whitespace-split contents. *)
Definition commonWords (sourceChars targetChars : string) : list string :=
  let sourceWords := Js.split_ws (Js.toLowerCase sourceChars) in
  let targetWords := Js.split_ws (Js.toLowerCase targetChars) in
  List.filter (Js.includes targetWords) sourceWords.

(** The body of the inner [forEach] of [createScoringMatrix]: the score of
    one (source, target) pair, accumulated strategy by strategy. *)
Definition pairScore (sourceItem targetItem : TextItem) : Q :=
  let score := 0%Q in
  (* Strategy 1: path matching *)
  let score :=
    if path_equal (path sourceItem) (path targetItem)
    then (score + 1000)%Q else score in
  (* Strategy 2: name matching *)
  let score :=
    if Js.truthy_str (name sourceItem) &&
       Js.strict_eq_str (name sourceItem) (name targetItem)
    then (score + 500)%Q else score in
  (* Strategy 3: font matching *)
  let score :=
    if Js.truthy_obj (fontName sourceItem) && Js.truthy_obj (fontName targetItem) &&
       Js.truthy_num (fontSize sourceItem) && Js.truthy_num (fontSize targetItem)
    then
      if Js.strict_eq_str (Js.family_of (fontName sourceItem))
                          (Js.family_of (fontName targetItem))
      then
        let score := (score + 200)%Q in
        if Js.strict_eq_num (fontSize sourceItem) (fontSize targetItem)
        then (score + 100)%Q else score
      else score
    else score in
  (* Strategy 4: text style matching *)
  let score :=
    if Js.truthy_str (textStyleId sourceItem) &&
       Js.strict_eq_str (textStyleId sourceItem) (textStyleId targetItem)
    then (score + 300)%Q else score in
  (* Strategy 5: content similarity *)
  let score :=
    if (10 <? String.length (characters sourceItem)) &&
       (10 <? String.length (characters targetItem))
    then
      (score + inject_Z (Z.of_nat (length (commonWords (characters sourceItem)
                                                       (characters targetItem)))) * 10)%Q
    else score in
  (* Strategy 6: position-based scoring *)
  let pathSimilarity := calculatePathSimilarity (path sourceItem) (path targetItem) in
  (score + pathSimilarity * 50)%Q.

Record ScoreEntry := mkScoreEntry {
  sourceIndex : nat;
  targetIndex : nat;
  score : Q
}.

(** [0 < q] as a test. *)
Definition Qpositive (q : Q) : bool := negb (Qle_bool q 0).

(** [scores.sort((a, b) => b.score - a.score)]: a stable sort by
    descending score.  [insertEntry e l] puts [e], which precedes every
    element of [l] in the unsorted array, in front of the first element
    that does not score strictly higher. *)
Fixpoint insertEntry (e : ScoreEntry) (l : list ScoreEntry) : list ScoreEntry :=
  match l with
  | [] => [e]
  | x :: r =>
      if Qle_bool (score x) (score e) then e :: x :: r
      else x :: insertEntry e r
  end.

Definition sortScores (l : list ScoreEntry) : list ScoreEntry :=
  foldr insertEntry [] l.

(** One row of the matrix, before sorting: the candidates of one source
    item in target order. *)
Definition candidates (usedIndices : gset nat) (sourceIndex : nat)
    (sourceItem : TextItem) (targetItems : list TextItem) : list ScoreEntry :=
  omap id
    (imap (fun targetIndex targetItem =>
             if bool_decide (targetIndex ∈ usedIndices) then None
             else
               let score := pairScore sourceItem targetItem in
               if Qpositive score
               then Some (mkScoreEntry sourceIndex targetIndex score)
               else None)
          targetItems).

Definition createScoringMatrix (usedIndices : gset nat)
    (sourceItems targetItems : list TextItem) : list (list ScoreEntry) :=
  imap (fun sourceIndex sourceItem =>
          sortScores (candidates usedIndices sourceIndex sourceItem targetItems))
       sourceItems.

(** ** Indexer *)

Record IndexState := mkIndexState {
  ix_items : list TextItem;
  ix_nodes : list TextNode;
  ix_layerNames : list string;
  ix_maxDepth : nat;
  ix_nodeCount : nat
}.

(** An entry of the explicit stack: [{node, path, depth}]. *)
Definition StackEntry : Type := SceneNode * list nat * nat.

(** The item extracted from a text node. *)
Definition textItemOf (path : list nat) (node : TextNode) : TextItem :=
  {| path := path;
     name := Some (nodeName node);
     characters := nodeCharacters node;
     fontSize := nodeFontSize node;
     fontName := nodeFontName node;
     textStyleId := match nodeTextStyleId node with
                    | Present s => Some s
                    | _ => None
                    end |}.

(** [nodeCount++; maxDepth = Math.max(maxDepth, depth)] and, for a text
    node, the three [push]es. *)
Definition visit (node : SceneNode) (path : list nat) (depth : nat)
    (st : IndexState) : IndexState :=
  match node with
  | TextLeaf t =>
      {| ix_items := ix_items st ++ [textItemOf path t];
         ix_nodes := ix_nodes st ++ [t];
         ix_layerNames := ix_layerNames st ++ [nodeName t];
         ix_maxDepth := Nat.max (ix_maxDepth st) depth;
         ix_nodeCount := S (ix_nodeCount st) |}
  | _ =>
      {| ix_items := ix_items st;
         ix_nodes := ix_nodes st;
         ix_layerNames := ix_layerNames st;
         ix_maxDepth := Nat.max (ix_maxDepth st) depth;
         ix_nodeCount := S (ix_nodeCount st) |}
  end.

(** [for (let i = children.length - 1; i >= 0; i--) stack.push(...)]; the
    head of the list is the top of the stack. *)
Definition push_children (stack : list StackEntry) (path : list nat)
    (depth : nat) (children : list SceneNode) : list StackEntry :=
  foldl (fun stk i =>
           match children !! i with
           | Some child => (child, path ++ [i], S depth) :: stk
           | None => stk
           end)
        stack (reverse (seq 0 (length children))).

Definition children_of (node : SceneNode) : list SceneNode :=
  match node with
  | Container _ _ _ children => children
  | _ => []
  end.

Fixpoint tree_size (n : SceneNode) : nat :=
  match n with
  | Container _ _ _ children => S (list_sum (map tree_size children))
  | _ => 1
  end.

Definition stack_size (stack : list StackEntry) : nat :=
  list_sum (map (fun e : StackEntry => tree_size e.1.1) stack).

Lemma push_children_size stack path depth children :
  stack_size (push_children stack path depth children) =
  list_sum (map tree_size children) + stack_size stack.
Proof.
  unfold push_children. revert stack.
  induction children as [|x l IH] using rev_ind; intros stack; [done|].
  rewrite length_app. simpl length.
  rewrite Nat.add_1_r, seq_S, reverse_app. simpl.
  rewrite lookup_app_r, Nat.sub_diag by lia. simpl.
  rewrite map_app, list_sum_app. simpl.
  set (stk0 := (x, path ++ [length l], S depth) :: stack).
  assert (Hin : Forall (fun i => i < length l) (reverse (seq 0 (length l)))).
  { apply Forall_forall. intros i Hi%elem_of_reverse%elem_of_seq. lia. }
  assert (Hsame : forall ixs stk, Forall (fun i => i < length l) ixs ->
    foldl (fun stk i => match (l ++ [x]) !! i with
                        | Some child => (child, path ++ [i], S depth) :: stk
                        | None => stk
                        end) stk ixs =
    foldl (fun stk i => match l !! i with
                        | Some child => (child, path ++ [i], S depth) :: stk
                        | None => stk
                        end) stk ixs).
  { intros ixs stk Hixs. revert stk.
    induction Hixs as [|i ixs Hi _ IHixs]; intros stk; [done|].
    simpl. rewrite lookup_app_l by done. apply IHixs. }
  rewrite Hsame by done. rewrite IH.
  unfold stk0, stack_size. simpl. lia.
Qed.

(** The [while (stack.length > 0)] loop.  It terminates because every
    turn replaces the popped node by its children. *)
Equations? index_loop (stack : list StackEntry) (st : IndexState) : IndexState
  by wf (stack_size stack) lt :=
  index_loop [] st := st;
  index_loop ((node, path, depth) :: stack') st :=
    index_loop (push_children stack' path depth (children_of node))
               (visit node path depth st).
Proof.
  rewrite push_children_size. unfold stack_size. simpl.
  destruct node; simpl; lia.
Qed.

Record Indexed := mkIndexed {
  r_items : list TextItem;
  r_nodes : list TextNode;
  r_structure : FrameStructure
}.

Definition indexTextNodes (frameNode : SceneNode) : Indexed :=
  let st := index_loop [(frameNode, [], 0)] (mkIndexState [] [] [] 0 0) in
  {| r_items := ix_items st;
     r_nodes := ix_nodes st;
     r_structure :=
       {| nodeCount := ix_nodeCount st;
          textNodeCount := length (ix_items st);
          maxDepth := ix_maxDepth st;
          layerNames := ix_layerNames st |} |}.

(** [findNodeAtPath]: follow the child indices from the frame. *)
Fixpoint walk (currentNode : SceneNode) (path : list nat) : option SceneNode :=
  match path with
  | [] => Some currentNode
  | index :: rest =>
      match currentNode with
      | Container _ _ _ children =>
          match children !! index with
          | Some child => walk child rest
          | None => None
          end
      | _ => None
      end
  end.

Definition findNodeAtPath (frame : SceneNode) (path : list nat) : option SceneNode :=
  if length path =? 0 then Some frame else walk frame path.

(** ** Applier *)

(** What a call either returns or throws. *)
Inductive Completion (A : Type) : Type :=
| Returned (a : A)
| Threw (message : string).
Arguments Returned {A} a.
Arguments Threw {A} message.

(** Counters become binary64 numbers when they are divided. *)
Definition float_of_nat (k : nat) : float :=
  PrimFloat.of_uint63 (Uint63.of_Z (Z.of_nat k)).

(** The rational that a finite binary64 number stands for. *)
Definition Q_of_float (f : float) : option Q :=
  match Prim2SF f with
  | S754_zero _ => Some 0%Q
  | S754_finite s m e =>
      Some (inject_Z (if s then Z.neg m else Z.pos m) * Qpower 2 e)%Q
  | _ => None
  end.

(** [Math.round]: the nearest integer, halves going up.  The loops only
    round finite numbers; the model gives 0 for the others. *)
Definition js_round (f : float) : Z :=
  match Q_of_float f with
  | Some q => Qfloor (q + (1 # 2))%Q
  | None => 0%Z
  end.

(** [Math.round((k / total) * 100)], in binary64 as the source computes
    it. *)
Definition percent (k total : nat) : Z :=
  js_round (PrimFloat.mul (PrimFloat.div (float_of_nat k) (float_of_nat total))
                          (float_of_nat 100)).

(** The fonts of the nodes whose [fontName] is an object, without
    repetition, in order of first occurrence (the insertion order of the
    [Set] of their JSON texts). *)
Definition uniqueFonts (textNodes : list TextNode) : list FontName :=
  foldl (fun fonts node =>
           match nodeFontName node with
           | Present f => if bool_decide (f ∈ fonts) then fonts else fonts ++ [f]
           | _ => fonts
           end)
        [] textNodes.

(** [ensureFontsLoaded].  [loadFontAsync f] is the host's answer for the
    font [f]: [None] when the promise fulfils, [Some e] when it rejects
    with [e].  The result lists the percentages handed to [onProgress] by
    the fulfilled loads (by font index) and tells whether
    [Promise.all] fulfilled. *)
Definition ensureFontsLoaded (loadFontAsync : FontName -> option string)
    (textNodes : list TextNode) (onProgress : bool) : list Z * Completion unit :=
  let fontArray := uniqueFonts textNodes in
  if length fontArray =? 0 then ([], Returned tt)
  else
    let notified :=
      if onProgress then
        omap id (imap (fun index f =>
                         match loadFontAsync f with
                         | None => Some (percent (index + 1) (length fontArray))
                         | Some _ => None
                         end) fontArray)
      else [] in
    match omap loadFontAsync fontArray with
    | [] => (notified, Returned tt)
    | e :: _ => (notified, Threw e)
    end.

(** [sourceItem.name || `Layer at path [${sourceItem.path.join(',')}]`] *)
Inductive LayerLabel :=
| Named (n : string)
| AtPath (p : list nat).

Definition layerName (sourceItem : TextItem) : LayerLabel :=
  if Js.truthy_str (name sourceItem)
  then Named (default "" (name sourceItem))
  else AtPath (path sourceItem).

(** The lines pushed onto [details], with the values they interpolate. *)
Inductive Detail :=
| NoSuitableTarget (layer : LayerLabel) (text : string)
| AllTargetsUsed (layer : LayerLabel) (text : string)
| LockedLayer (layer : LayerLabel) (target : string)
| MappedText (score : Q) (text : string)
| FailedToUpdate (layer : LayerLabel) (error : string).

(** How the turn of one source item ended, with the target index it had
    selected.  The source keeps no such record: the trace is
    instrumentation, one entry per turn of the loop. *)
Inductive Outcome :=
| NoCandidate
| AllClaimed
| TargetLocked (target : nat)
| WriteFailed (target : nat)
| Transferred (target : nat) (score : Q).

(** The variables of [mapTextNodes] that its loop updates, the target
    nodes it writes to, and what it hands to [onProgress]. *)
Record MapState := mkMapState {
  mapped : nat;
  skipped : nat;
  usedIndices : gset nat;
  details : list Detail;
  (** the target nodes as the writes so far have left them *)
  liveNodes : list TextNode;
  progress : list Z;
  trace : list Outcome
}.

(** [details.push(d); skipped++; continue] (or the end of the [catch]). *)
Definition skip (d : Detail) (o : Outcome) (st : MapState) : MapState :=
  {| mapped := mapped st;
     skipped := S (skipped st);
     usedIndices := usedIndices st;
     details := details st ++ [d];
     liveNodes := liveNodes st;
     progress := progress st;
     trace := trace st ++ [o] |}.

Definition setCharacters (text : string) (node : TextNode) : TextNode :=
  {| nodeName := nodeName node;
     nodeCharacters := text;
     nodeFontSize := nodeFontSize node;
     nodeFontName := nodeFontName node;
     nodeTextStyleId := nodeTextStyleId node;
     locked := locked node;
     writeError := writeError node |}.

(** The message of the [TypeError] raised by [targetNode.locked] when
    [targetNodes[targetIndex]] is [undefined]. *)
Definition undefinedNodeError : string :=
  "TypeError: Cannot read properties of undefined".

(** One turn of the [for] loop over [scoringMatrix]. *)
Definition processSource (onProgress : bool) (total i : nat)
    (sourceItem : TextItem) (scores : list ScoreEntry) (st : MapState) : MapState :=
  let text30 := Js.substring0 30 (characters sourceItem) in
  if length scores =? 0 then
    skip (NoSuitableTarget (layerName sourceItem) text30) NoCandidate st
  else
    (* Find the best available target *)
    match List.find (fun s => negb (bool_decide (targetIndex s ∈ usedIndices st))) scores with
    | None => skip (AllTargetsUsed (layerName sourceItem) text30) AllClaimed st
    | Some best =>
        let targetIndex' := targetIndex best in
        match liveNodes st !! targetIndex' with
        | None =>
            skip (FailedToUpdate (layerName sourceItem) undefinedNodeError)
                 (WriteFailed targetIndex') st
        | Some targetNode =>
            if locked targetNode then
              skip (LockedLayer (layerName sourceItem) (nodeName targetNode))
                   (TargetLocked targetIndex') st
            else
              match writeError targetNode with
              | Some error =>
                  skip (FailedToUpdate (layerName sourceItem) error)
                       (WriteFailed targetIndex') st
              | None =>
                  let score' :=
                    match List.find (fun s => targetIndex s =? targetIndex') scores with
                    | Some scoreMatch => score scoreMatch
                    | None => 0%Q
                    end in
                  {| mapped := S (mapped st);
                     skipped := skipped st;
                     usedIndices := {[targetIndex']} ∪ usedIndices st;
                     details := details st ++ [MappedText score' text30];
                     liveNodes :=
                       <[targetIndex' := setCharacters (characters sourceItem) targetNode]>
                         (liveNodes st);
                     progress :=
                       if onProgress then progress st ++ [percent (i + 1) total]
                       else progress st;
                     trace := trace st ++ [Transferred targetIndex' score'] |}
              end
        end
    end.

(** [for (let i = 0; i < scoringMatrix.length; i++)], on the rows paired
    with their source items ([scoringMatrix[i]] and [sourceItems[i]]). *)
Fixpoint processMappings (onProgress : bool) (total i : nat)
    (rows : list (TextItem * list ScoreEntry)) (st : MapState) : MapState :=
  match rows with
  | [] => st
  | (sourceItem, scores) :: rest =>
      processMappings onProgress total (S i) rest
        (processSource onProgress total i sourceItem scores st)
  end.

Definition initialMapState (targetNodes : list TextNode) : MapState :=
  {| mapped := 0; skipped := 0; usedIndices := ∅; details := [];
     liveNodes := targetNodes; progress := []; trace := [] |}.

(** The matching and transfer part of [mapTextNodes], after the fonts. *)
Definition resolve (sourceItems targetItems : list TextItem)
    (targetNodes : list TextNode) (onProgress : bool) : MapState :=
  let usedIndices := (∅ : gset nat) in
  let scoringMatrix := createScoringMatrix usedIndices sourceItems targetItems in
  processMappings onProgress (length scoringMatrix) 0
    (zip sourceItems scoringMatrix) (initialMapState targetNodes).

(** [mapTextNodes]: the percentages notified while the fonts load, and
    the final state, unless loading a font failed. *)
Definition mapTextNodes (loadFontAsync : FontName -> option string)
    (sourceItems targetItems : list TextItem) (targetNodes : list TextNode)
    (onProgress : bool) : list Z * Completion MapState :=
  match ensureFontsLoaded loadFontAsync targetNodes onProgress with
  | (notified, Threw e) => (notified, Threw e)
  | (notified, Returned _) =>
      (notified, Returned (resolve sourceItems targetItems targetNodes onProgress))
  end.

(** ** Serialization for the payload store *)

Definition serializeTextItem (item : TextItem) : SerializableTextItem :=
  {| s_path := path item;
     s_name := name item;
     s_characters := characters item;
     s_fontSize := fontSize item;
     s_fontFamily := match fontName item with Present f => Some (family f) | _ => None end;
     s_fontStyle := match fontName item with Present f => Some (style f) | _ => None end;
     s_textStyleId := textStyleId item |}.

Definition deserializeTextItem (item : SerializableTextItem) : TextItem :=
  {| path := s_path item;
     name := s_name item;
     characters := s_characters item;
     fontSize := s_fontSize item;
     fontName :=
       if Js.truthy_str (s_fontFamily item) && Js.truthy_str (s_fontStyle item)
       then Present {| family := default "" (s_fontFamily item);
                       style := default "" (s_fontStyle item) |}
       else Absent;
     textStyleId := s_textStyleId item |}.

Definition serializePayload (payload : CopyPayload) : SerializableCopyPayload :=
  {| ss_sourceFrameId := sourceFrameId payload;
     ss_sourceFrameName := sourceFrameName payload;
     ss_capturedAt := capturedAt payload;
     ss_items := map serializeTextItem (items payload);
     ss_frameStructure := frameStructure payload |}.

Definition deserializePayload (serializedPayload : SerializableCopyPayload) : CopyPayload :=
  {| sourceFrameId := ss_sourceFrameId serializedPayload;
     sourceFrameName := ss_sourceFrameName serializedPayload;
     capturedAt := ss_capturedAt serializedPayload;
     items := map deserializeTextItem (ss_items serializedPayload);
     frameStructure := ss_frameStructure serializedPayload |}.

(** ** Message handlers *)

Inductive UiMessage :=
| COPY_SUCCESS (frameName : string) (textNodeCount : nat) (structure : FrameStructure)
| PROGRESS (percent : Z)
| PASTE_SUCCESS (mapped skipped total : nat) (details : list Detail)
| CLEAR_SUCCESS
| ERROR (message : string).

(** The plugin's global variable and the parts of the host it talks to. *)
Record World := mkWorld {
  (** [figma.currentPage.selection] *)
  selection : list SceneNode;
  (** the global [copyPayload] *)
  copyPayload : option CopyPayload;
  (** the value under the key ["copyPayload"] of [figma.clientStorage] *)
  clientStorage : option SerializableCopyPayload;
  (** [Some e]: [clientStorage.setAsync] rejects with [e] *)
  setAsyncError : option string;
  (** [Some e]: [clientStorage.getAsync] rejects with [e] *)
  getAsyncError : option string;
  (** [figma.loadFontAsync] *)
  loadFontAsync : FontName -> option string;
  (** [Date.now()] *)
  now : Z;
  (** the messages handed to [figma.ui.postMessage], oldest first *)
  posted : list UiMessage
}.

Definition post (msgs : list UiMessage) (w : World) : World :=
  {| selection := selection w; copyPayload := copyPayload w;
     clientStorage := clientStorage w; setAsyncError := setAsyncError w;
     getAsyncError := getAsyncError w; loadFontAsync := loadFontAsync w;
     now := now w; posted := posted w ++ msgs |}.

Definition setCopyPayload (p : option CopyPayload) (w : World) : World :=
  {| selection := selection w; copyPayload := p;
     clientStorage := clientStorage w; setAsyncError := setAsyncError w;
     getAsyncError := getAsyncError w; loadFontAsync := loadFontAsync w;
     now := now w; posted := posted w |}.

(** [await figma.clientStorage.setAsync("copyPayload", v)] *)
Definition setAsync (v : option SerializableCopyPayload) (w : World)
  : World * Completion unit :=
  match setAsyncError w with
  | Some e => (w, Threw e)
  | None =>
      ({| selection := selection w; copyPayload := copyPayload w;
          clientStorage := v; setAsyncError := setAsyncError w;
          getAsyncError := getAsyncError w; loadFontAsync := loadFontAsync w;
          now := now w; posted := posted w |}, Returned tt)
  end.

Definition setSelection (sel : list SceneNode) (w : World) : World :=
  {| selection := sel; copyPayload := copyPayload w;
     clientStorage := clientStorage w; setAsyncError := setAsyncError w;
     getAsyncError := getAsyncError w; loadFontAsync := loadFontAsync w;
     now := now w; posted := posted w |}.

Definition noneSelectedError : string := "Please select a frame to work with".
Definition manySelectedError : string := "Please select only one frame at a time".
Definition notAFrameError : string :=
  "Selected item must be a Frame. Please select a frame and try again.".
Definition noPayloadError : string :=
  "No text copied. Please copy text from a frame first.".

Definition validateSingleFrameSelection (w : World) : Completion SceneNode :=
  match selection w with
  | [] => Threw noneSelectedError
  | [selectedNode] =>
      match selectedNode with
      | Container FRAME _ _ _ => Returned selectedNode
      | _ => Threw notAFrameError
      end
  | _ => Threw manySelectedError
  end.

Definition frameId (n : SceneNode) : string :=
  match n with Container _ id _ _ => id | _ => "" end.

Definition frameName (n : SceneNode) : string :=
  match n with
  | Container _ _ name _ => name
  | TextLeaf t => nodeName t
  | Shape name => name
  end.

(** The text nodes that [indexTextNodes] returns are the nodes of the
    tree themselves: a write through [nodes[k]] changes the tree.
    [rebuild n ts] is the tree [n] whose text nodes, in traversal order,
    are now [ts]; it also returns the nodes of [ts] it did not use. *)
Fixpoint rebuild (n : SceneNode) (ts : list TextNode) : SceneNode * list TextNode :=
  match n with
  | TextLeaf t =>
      match ts with
      | t' :: r => (TextLeaf t', r)
      | [] => (TextLeaf t, [])
      end
  | Container type id name children =>
      let '(children', r) :=
        (fix go (ks : list SceneNode) (ts : list TextNode) :=
           match ks with
           | [] => ([], ts)
           | k :: ks' =>
               let '(k', r1) := rebuild k ts in
               let '(ks'', r2) := go ks' r1 in
               (k' :: ks'', r2)
           end) children ts in
      (Container type id name children', r)
  | Shape name => (Shape name, ts)
  end.

Definition handleCopy (w : World) : World * Completion unit :=
  match validateSingleFrameSelection w with
  | Threw e => (w, Threw e)
  | Returned frame =>
      let indexed := indexTextNodes frame in
      let payload :=
        {| sourceFrameId := frameId frame;
           sourceFrameName := frameName frame;
           capturedAt := now w;
           items := r_items indexed;
           frameStructure := r_structure indexed |} in
      let w := setCopyPayload (Some payload) w in
      (* a failure to store is logged and the copy goes on *)
      let w := (setAsync (Some (serializePayload payload)) w).1 in
      (post [COPY_SUCCESS (frameName frame) (length (r_items indexed))
                          (r_structure indexed)] w,
       Returned tt)
  end.

(** The payload that [handlePaste] works with: the global variable or,
    failing that, what the store holds. *)
Definition currentPayload (w : World) : option CopyPayload :=
  match copyPayload w with
  | Some payload => Some payload
  | None =>
      match getAsyncError w with
      | Some _ => None
      | None => deserializePayload <$> clientStorage w
      end
  end.

Definition handlePaste (w : World) : World * Completion unit :=
  match validateSingleFrameSelection w with
  | Threw e => (w, Threw e)
  | Returned frame =>
      match currentPayload w with
      | None => (w, Threw noPayloadError)
      | Some payload =>
          let indexed := indexTextNodes frame in
          match mapTextNodes (loadFontAsync w) (items payload)
                  (r_items indexed) (r_nodes indexed) true with
          | (notified, Threw e) => (post (map PROGRESS notified) w, Threw e)
          | (notified, Returned st) =>
              let w := setSelection [(rebuild frame (liveNodes st)).1] w in
              (post (map PROGRESS (notified ++ progress st) ++
                     [PASTE_SUCCESS (mapped st) (skipped st)
                        (length (items payload)) (details st)]) w,
               Returned tt)
          end
      end
  end.

Definition handleClear (w : World) : World * Completion unit :=
  let w := setCopyPayload None w in
  match setAsync None w with
  | (w, Threw e) => (w, Threw e)
  | (w, Returned _) => (post [CLEAR_SUCCESS] w, Returned tt)
  end.

Inductive Request := COPY | PASTE | CLEAR.

(** [figma.ui.onmessage]: run the handler and report what it throws. *)
Definition onmessage (msg : Request) (w : World) : World :=
  let '(w', c) :=
    match msg with
    | COPY => handleCopy w
    | PASTE => handlePaste w
    | CLEAR => handleClear w
    end in
  match c with
  | Returned _ => w'
  | Threw message => post [ERROR message] w'
  end.

(** ** Notions used to state the properties *)

(** The text-bearing nodes of a subtree in natural depth-first order,
    children from left to right, each with its path: the path of a child
    is the path of its parent followed by the child's zero-based position
    among its siblings, and the root has the path it is given. *)
Fixpoint leaves (path : list nat) (n : SceneNode) : list (list nat * TextNode) :=
  match n with
  | TextLeaf t => [(path, t)]
  | Container _ _ _ children =>
      (fix go (i : nat) (ks : list SceneNode) : list (list nat * TextNode) :=
         match ks with
         | [] => []
         | k :: ks' => leaves (path ++ [i]) k ++ go (S i) ks'
         end) 0 children
  | Shape _ => []
  end.

(** The same for a run of siblings, the first of which has position [i]. *)
Fixpoint leaves_from (path : list nat) (i : nat) (ks : list SceneNode)
  : list (list nat * TextNode) :=
  match ks with
  | [] => []
  | k :: ks' => leaves (path ++ [i]) k ++ leaves_from path (S i) ks'
  end.

(** The number of text-bearing nodes of a subtree. *)
Fixpoint count_text (n : SceneNode) : nat :=
  match n with
  | TextLeaf _ => 1
  | Container _ _ _ children => list_sum (map count_text children)
  | Shape _ => 0
  end.

(** What strategies 2 to 5 (name, font, text style and content) add to
    the score of a pair. *)
Definition lowerSignals (sourceItem targetItem : TextItem) : Q :=
  ((if Js.truthy_str (name sourceItem) &&
       Js.strict_eq_str (name sourceItem) (name targetItem)
    then 500 else 0) +
   (if Js.truthy_obj (fontName sourceItem) && Js.truthy_obj (fontName targetItem) &&
       Js.truthy_num (fontSize sourceItem) && Js.truthy_num (fontSize targetItem) &&
       Js.strict_eq_str (Js.family_of (fontName sourceItem))
                        (Js.family_of (fontName targetItem))
    then
      if Js.strict_eq_num (fontSize sourceItem) (fontSize targetItem)
      then 300 else 200
    else 0) +
   (if Js.truthy_str (textStyleId sourceItem) &&
       Js.strict_eq_str (textStyleId sourceItem) (textStyleId targetItem)
    then 300 else 0) +
   (if (10 <? String.length (characters sourceItem)) &&
       (10 <? String.length (characters targetItem))
    then inject_Z (Z.of_nat (length (commonWords (characters sourceItem)
                                                 (characters targetItem)))) * 10
    else 0))%Q.

(** The target index a turn had selected, if it selected one. *)
Definition selected (o : Outcome) : option nat :=
  match o with
  | NoCandidate | AllClaimed => None
  | TargetLocked t | WriteFailed t | Transferred t _ => Some t
  end.

Definition is_transferred (o : Outcome) : bool :=
  match o with
  | Transferred _ _ => true
  | _ => false
  end.

(** The percentages the sink receives when exactly the transferred pairs
    notify it; [i] is the index of the first outcome of the list. *)
Fixpoint notifications (total i : nat) (outcomes : list Outcome) : list Z :=
  match outcomes with
  | [] => []
  | o :: rest =>
      if is_transferred o
      then percent (i + 1) total :: notifications total (S i) rest
      else notifications total (S i) rest
  end.

(** The line of the report that belongs to an outcome of the turn of
    [sourceItem], given the target nodes as they were before the
    transfer. *)
Definition reported (sourceItem : TextItem) (nodes : list TextNode)
    (o : Outcome) (d : Detail) : Prop :=
  let text30 := Js.substring0 30 (characters sourceItem) in
  match o with
  | NoCandidate => d = NoSuitableTarget (layerName sourceItem) text30
  | AllClaimed => d = AllTargetsUsed (layerName sourceItem) text30
  | TargetLocked t =>
      exists n, nodes !! t = Some n /\ locked n = true /\
                d = LockedLayer (layerName sourceItem) (nodeName n)
  | WriteFailed t =>
      exists e, d = FailedToUpdate (layerName sourceItem) e /\
                match nodes !! t with
                | Some n => locked n = false /\ writeError n = Some e
                | None => e = undefinedNodeError
                end
  | Transferred t sc =>
      d = MappedText sc text30 /\
      exists n, nodes !! t = Some n /\ locked n = false /\ writeError n = None
  end.

(** The six ways in which a turn of the loop over the scoring matrix can
    end, as a relation between the state before and the state after. *)
Inductive turn (onProgress : bool) (total i : nat) (sourceItem : TextItem)
    (scores : list ScoreEntry) (st : MapState) : Outcome -> MapState -> Prop :=
| turn_no_candidate :
    scores = [] ->
    turn onProgress total i sourceItem scores st NoCandidate
      (skip (NoSuitableTarget (layerName sourceItem)
               (Js.substring0 30 (characters sourceItem))) NoCandidate st)
| turn_all_claimed :
    scores <> [] ->
    (forall e, e ∈ scores -> targetIndex e ∈ usedIndices st) ->
    turn onProgress total i sourceItem scores st AllClaimed
      (skip (AllTargetsUsed (layerName sourceItem)
               (Js.substring0 30 (characters sourceItem))) AllClaimed st)
| turn_undefined best :
    List.find (fun s => negb (bool_decide (targetIndex s ∈ usedIndices st))) scores
      = Some best ->
    liveNodes st !! targetIndex best = None ->
    turn onProgress total i sourceItem scores st (WriteFailed (targetIndex best))
      (skip (FailedToUpdate (layerName sourceItem) undefinedNodeError)
            (WriteFailed (targetIndex best)) st)
| turn_locked best n :
    List.find (fun s => negb (bool_decide (targetIndex s ∈ usedIndices st))) scores
      = Some best ->
    liveNodes st !! targetIndex best = Some n ->
    locked n = true ->
    turn onProgress total i sourceItem scores st (TargetLocked (targetIndex best))
      (skip (LockedLayer (layerName sourceItem) (nodeName n))
            (TargetLocked (targetIndex best)) st)
| turn_write_failed best n e :
    List.find (fun s => negb (bool_decide (targetIndex s ∈ usedIndices st))) scores
      = Some best ->
    liveNodes st !! targetIndex best = Some n ->
    locked n = false ->
    writeError n = Some e ->
    turn onProgress total i sourceItem scores st (WriteFailed (targetIndex best))
      (skip (FailedToUpdate (layerName sourceItem) e)
            (WriteFailed (targetIndex best)) st)
| turn_transferred best n m :
    List.find (fun s => negb (bool_decide (targetIndex s ∈ usedIndices st))) scores
      = Some best ->
    liveNodes st !! targetIndex best = Some n ->
    locked n = false ->
    writeError n = None ->
    m ∈ scores ->
    targetIndex m = targetIndex best ->
    turn onProgress total i sourceItem scores st
      (Transferred (targetIndex best) (score m))
      {| mapped := S (mapped st);
         skipped := skipped st;
         usedIndices := {[targetIndex best]} ∪ usedIndices st;
         details := details st ++
                    [MappedText (score m) (Js.substring0 30 (characters sourceItem))];
         liveNodes :=
           <[targetIndex best := setCharacters (characters sourceItem) n]>
             (liveNodes st);
         progress :=
           if onProgress then progress st ++ [percent (i + 1) total]
           else progress st;
         trace := trace st ++ [Transferred (targetIndex best) (score m)] |}.

(** A call of [mapTextNodes] has one of two ends: it throws the error of
    a font that failed to load, or it returns the state that [resolve]
    computes, of which [P] holds. *)
Definition mapTextNodes_yields (loadFontAsync : FontName -> option string)
    (sourceItems targetItems : list TextItem) (targetNodes : list TextNode)
    (onProgress : bool) (P : MapState -> Prop) : Prop :=
  match (mapTextNodes loadFontAsync sourceItems targetItems targetNodes onProgress).2 with
  | Returned st => st = resolve sourceItems targetItems targetNodes onProgress /\ P st
  | Threw e => exists f, f ∈ uniqueFonts targetNodes /\ loadFontAsync f = Some e
  end.

(** A target node after the transfer is the node it was, except perhaps
    for its characters. *)
Definition evolves (n0 n : TextNode) : Prop :=
  exists text, n = setCharacters text n0.

(** An outcome agrees with the row of candidates it was taken from. *)
Definition chosen_from (scores : list ScoreEntry) (o : Outcome) : Prop :=
  match o with
  | NoCandidate => scores = []
  | AllClaimed => scores <> []
  | TargetLocked t | WriteFailed t => exists e, e ∈ scores /\ targetIndex e = t
  | Transferred t sc => exists m, m ∈ scores /\ targetIndex m = t /\ score m = sc
  end.

(** The order of a sorted row: scores do not increase. *)
Definition scores_desc (a b : ScoreEntry) : Prop := (score b <= score a)%Q.

(** After [i] turns: the counters add up to [i], and the report and the
    trace have [i] entries. *)
Definition counted (i : nat) (st : MapState) : Prop :=
  mapped st + skipped st = i /\
  length (details st) = i /\
  length (trace st) = i /\
  mapped st = length (List.filter is_transferred (trace st)).

(** The set of claimed indices is the set of targets written so far;
    each was written once, names a target item, and [mapped] counts
    them. *)
Definition claims_ok (tgt : list TextItem) (st : MapState) : Prop :=
  (forall t, t ∈ usedIndices st -> t < length tgt) /\
  (forall k t sc, trace st !! k = Some (Transferred t sc) -> t ∈ usedIndices st) /\
  (forall k1 k2 t sc1 sc2,
      trace st !! k1 = Some (Transferred t sc1) ->
      trace st !! k2 = Some (Transferred t sc2) -> k1 = k2) /\
  mapped st = size (usedIndices st) /\
  (forall t, t ∈ usedIndices st -> exists k sc, trace st !! k = Some (Transferred t sc)).

(** A target that was written holds the characters of the source item
    that was transferred to it; an unclaimed target is as it was. *)
Definition writes_ok (src tgt : list TextItem) (nodes0 : list TextNode)
    (i : nat) (st : MapState) : Prop :=
  length (trace st) = i /\
  claims_ok tgt st /\
  (forall k t sc s,
      trace st !! k = Some (Transferred t sc) -> src !! k = Some s ->
      exists n0, nodes0 !! t = Some n0 /\
                 liveNodes st !! t = Some (setCharacters (characters s) n0)) /\
  (forall t, t ∉ usedIndices st -> liveNodes st !! t = nodes0 !! t).

(** Target nodes keep everything but their characters, and locked ones
    keep those too. *)
Definition nodes_ok (nodes0 : list TextNode) (st : MapState) : Prop :=
  Forall2 evolves nodes0 (liveNodes st) /\
  (forall k n, nodes0 !! k = Some n -> locked n = true ->
               liveNodes st !! k = Some n).

(** Every turn so far left one outcome and one line, and they agree with
    each other, with the nodes and with the row of the source item. *)
Definition report_ok (src tgt : list TextItem) (nodes0 : list TextNode)
    (i : nat) (st : MapState) : Prop :=
  length (trace st) = i /\
  length (details st) = i /\
  forall k s, src !! k = Some s -> k < i ->
    exists o d, trace st !! k = Some o /\ details st !! k = Some d /\
                reported s nodes0 o d /\
                chosen_from (sortScores (candidates ∅ k s tgt)) o.

(** After [i] turns the sink has heard of the transferred pairs. *)
Definition progress_ok (op : bool) (total i : nat) (st : MapState) : Prop :=
  length (trace st) = i /\
  progress st = if op then notifications total 0 (trace st) else [].

(** The reasons no-candidate and all-candidates-claimed. *)
Definition no_target_reason (o : Outcome) : bool :=
  match o with
  | NoCandidate | AllClaimed => true
  | _ => false
  end.

(** After [k] turns on snapshots of the same shape: every turn selected
    the target at the position of its source. *)
Definition own_target_selected (k : nat) (st : MapState) : Prop :=
  (forall t, t ∈ usedIndices st -> t < k) /\
  length (trace st) = k /\
  forall j o, trace st !! j = Some o -> selected o = Some j.

(** The leaves below the entries of a stack, from its top. *)
Definition stack_leaves (stack : list StackEntry) : list (list nat * TextNode) :=
  concat (map (fun e : StackEntry => leaves e.1.2 e.1.1) stack).

(** [rebuild] on a run of siblings. *)
Fixpoint rebuild_all (ks : list SceneNode) (ts : list TextNode)
  : list SceneNode * list TextNode :=
  match ks with
  | [] => ([], ts)
  | k :: ks' =>
      let '(k', r1) := rebuild k ts in
      let '(ks'', r2) := rebuild_all ks' r1 in
      (k' :: ks'', r2)
  end.

(** ** Sample documents *)

Module Sample.

Definition inter : FontName := {| family := "Inter"; style := "Regular" |}.
Definition roboto : FontName := {| family := "Roboto"; style := "Bold" |}.

(** A source leaf at path [0] with a name, a font and a text style. *)
Definition title : TextItem :=
  {| path := [0]; name := Some "Title"; characters := "Hello";
     fontSize := Present 12%Q; fontName := Present inter;
     textStyleId := Some "S:1" |}.

(** A target leaf at the same path that shares nothing else with it. *)
Definition samePath : TextItem :=
  {| path := [0]; name := Some "Caption"; characters := "World";
     fontSize := Present 10%Q; fontName := Present roboto;
     textStyleId := None |}.

(** A target leaf at another path with the same name, font, size and
    text style. *)
Definition sameAttrs : TextItem :=
  {| path := [1]; name := Some "Title"; characters := "World";
     fontSize := Present 12%Q; fontName := Present inter;
     textStyleId := Some "S:1" |}.

(** A target leaf at another path that shares only the name. *)
Definition sameName : TextItem :=
  {| path := [1]; name := Some "Title"; characters := "World";
     fontSize := Present 10%Q; fontName := Present roboto;
     textStyleId := None |}.

Definition node (nm text : string) (isLocked : bool) : TextNode :=
  {| nodeName := nm; nodeCharacters := text;
     nodeFontSize := Present 12%Q; nodeFontName := Present inter;
     nodeTextStyleId := Present ""; locked := isLocked; writeError := None |}.

Definition allFontsLoad : FontName -> option string := fun _ => None.

(** A source leaf at path [1]. *)
Definition body : TextItem :=
  {| path := [1]; name := Some "Body"; characters := "Text";
     fontSize := Present 10%Q; fontName := Present roboto;
     textStyleId := None |}.

(** The item that the indexer makes of an unlocked text node named [nm]
    with content [text], found at path [p]. *)
Definition leaf (p : list nat) (nm text : string) : TextItem :=
  textItemOf p (node nm text false).

(** Two snapshots with the same paths, [0] and [1]. *)
Definition sameShapeSources : list TextItem := [title; body].
Definition sameShapeTargets : list TextItem := [samePath; sameAttrs].
Definition sameShapeNodes : list TextNode := [node "a" "x" false; node "b" "y" false].

(** Two leaves under one group; the first target node is locked. *)
Definition pairItems : list TextItem := [leaf [0; 0] "A" "x"; leaf [0; 1] "B" "y"].
Definition pairNodesFirstLocked : list TextNode :=
  [node "A" "x" true; node "B" "y" false].

(** One target leaf, which is locked. *)
Definition oneItem : list TextItem := [leaf [0; 0] "A" "x"].
Definition oneNodeLocked : list TextNode := [node "A" "x" true].

(** A locked second target that no source leaf selects. *)
Definition pairNodesSecondLocked : list TextNode :=
  [node "A" "x" false; node "B" "y" true].

(** Two source leaves named alike; a locked target with that name and
    another font, and an unlocked target that shares only their font. *)
Definition namedSources : list TextItem := [leaf [0] "Title" "x"; leaf [1] "Title" "y"].
Definition namedTargets : list TextItem :=
  [{| path := [0; 0]; name := Some "Title"; characters := "u";
      fontSize := Present 10%Q; fontName := Present roboto; textStyleId := None |};
   leaf [0; 1] "Other" "v"].
Definition namedNodes : list TextNode :=
  [{| nodeName := "Title"; nodeCharacters := "u";
      nodeFontSize := Present 10%Q; nodeFontName := Present roboto;
      nodeTextStyleId := Present ""; locked := true; writeError := None |};
   node "Other" "v" false].

(** A frame with one text leaf, and a payload copied from it. *)
Definition card : SceneNode :=
  Container FRAME "1:2" "Card" [TextLeaf (node "Title" "Old" false)].

Definition cardPayload : CopyPayload :=
  {| sourceFrameId := "1:2"; sourceFrameName := "Card"; capturedAt := 0;
     items := r_items (indexTextNodes card);
     frameStructure := r_structure (indexTextNodes card) |}.

(** The payload is in the global variable and in the store; [sel] is
    what is selected. *)
Definition worldAfterCopy (sel : list SceneNode) : World :=
  {| selection := sel;
     copyPayload := Some cardPayload;
     clientStorage := Some (serializePayload cardPayload);
     setAsyncError := None; getAsyncError := None;
     loadFontAsync := allFontsLoad; now := 0; posted := [] |}.

End Sample.

(** ** A progress callback that throws

    The functions of the applier above take the callback as the contract
    of the progress sink has it: a call returns.  The source does not
    depend on that.  In [ensureFontsLoaded] the call is made inside
    [.then], so that a throw rejects the promise of that font and with it
    [Promise.all]; in the loop of [mapTextNodes] it is made inside the
    [try], after the write, [mapped++] and the line of the report, so
    that a throw reaches the [catch] like a failed write.  Here the
    callback is given by what each of its calls does: [None] when the
    call returns, [Some e] when it throws [e].  A call is identified by
    the place it is made from and the index it is made for; no index is
    used twice in one run. *)

Module Callback.

Record Sink := mkSink {
  (** the call made when the font of index [index] has loaded *)
  afterFont : nat -> option string;
  (** the call made in turn [i] of the loop over the scoring matrix *)
  afterPair : nat -> option string
}.

(** A callback all of whose calls return. *)
Definition quiet : Sink :=
  {| afterFont := fun _ => None; afterPair := fun _ => None |}.

(** The callbacks of the functions above: absent, or present and
    returning. *)
Definition returning (given : bool) : option Sink :=
  if given then Some quiet else None.

(** [ensureFontsLoaded].  A promise of [fontPromises] is described by
    the percentage it hands to [onProgress], if it gets that far, and by
    the error it rejects with, if it does. *)
Definition ensureFontsLoaded (loadFontAsync : FontName -> option string)
    (textNodes : list TextNode) (onProgress : option Sink)
  : list Z * Completion unit :=
  let fontArray := uniqueFonts textNodes in
  if length fontArray =? 0 then ([], Returned tt)
  else
    let fontPromises : list (option Z * option string) :=
      imap (fun index fontName =>
              match loadFontAsync fontName with
              | Some e => (None, Some e)
              | None =>
                  match onProgress with
                  | None => (None, None)
                  | Some sink =>
                      (Some (percent (index + 1) (length fontArray)),
                       afterFont sink index)
                  end
              end)
           fontArray in
    match omap snd fontPromises with
    | [] => (omap fst fontPromises, Returned tt)
    | e :: _ => (omap fst fontPromises, Threw e)
    end.

(** The [catch] of the loop: a line of the report and [skipped++]. *)
Definition caught (layer : LayerLabel) (error : string) (st : MapState) : MapState :=
  {| mapped := mapped st;
     skipped := S (skipped st);
     usedIndices := usedIndices st;
     details := details st ++ [FailedToUpdate layer error];
     liveNodes := liveNodes st;
     progress := progress st;
     trace := trace st |}.

(** One turn of the [for] loop over [scoringMatrix]. *)
Definition processSource (onProgress : option Sink) (total i : nat)
    (sourceItem : TextItem) (scores : list ScoreEntry) (st : MapState) : MapState :=
  let text30 := Js.substring0 30 (characters sourceItem) in
  if length scores =? 0 then
    skip (NoSuitableTarget (layerName sourceItem) text30) NoCandidate st
  else
    (* Find the best available target *)
    match List.find (fun s => negb (bool_decide (targetIndex s ∈ usedIndices st))) scores with
    | None => skip (AllTargetsUsed (layerName sourceItem) text30) AllClaimed st
    | Some best =>
        let targetIndex' := targetIndex best in
        match liveNodes st !! targetIndex' with
        | None =>
            skip (FailedToUpdate (layerName sourceItem) undefinedNodeError)
                 (WriteFailed targetIndex') st
        | Some targetNode =>
            if locked targetNode then
              skip (LockedLayer (layerName sourceItem) (nodeName targetNode))
                   (TargetLocked targetIndex') st
            else
              match writeError targetNode with
              | Some error =>
                  skip (FailedToUpdate (layerName sourceItem) error)
                       (WriteFailed targetIndex') st
              | None =>
                  let score' :=
                    match List.find (fun s => targetIndex s =? targetIndex') scores with
                    | Some scoreMatch => score scoreMatch
                    | None => 0%Q
                    end in
                  let written (notified : list Z) :=
                    {| mapped := S (mapped st);
                       skipped := skipped st;
                       usedIndices := {[targetIndex']} ∪ usedIndices st;
                       details := details st ++ [MappedText score' text30];
                       liveNodes :=
                         <[targetIndex' := setCharacters (characters sourceItem) targetNode]>
                           (liveNodes st);
                       progress := notified;
                       trace := trace st ++ [Transferred targetIndex' score'] |} in
                  (* Report progress *)
                  match onProgress with
                  | None => written (progress st)
                  | Some sink =>
                      let called := written (progress st ++ [percent (i + 1) total]) in
                      match afterPair sink i with
                      | None => called
                      | Some error => caught (layerName sourceItem) error called
                      end
                  end
              end
        end
    end.

(** [for (let i = 0; i < scoringMatrix.length; i++)] *)
Fixpoint processMappings (onProgress : option Sink) (total i : nat)
    (rows : list (TextItem * list ScoreEntry)) (st : MapState) : MapState :=
  match rows with
  | [] => st
  | (sourceItem, scores) :: rest =>
      processMappings onProgress total (S i) rest
        (processSource onProgress total i sourceItem scores st)
  end.

(** The matching and transfer part of [mapTextNodes], after the fonts. *)
Definition resolve (sourceItems targetItems : list TextItem)
    (targetNodes : list TextNode) (onProgress : option Sink) : MapState :=
  let usedIndices := (∅ : gset nat) in
  let scoringMatrix := createScoringMatrix usedIndices sourceItems targetItems in
  processMappings onProgress (length scoringMatrix) 0
    (zip sourceItems scoringMatrix) (initialMapState targetNodes).

Definition mapTextNodes (loadFontAsync : FontName -> option string)
    (sourceItems targetItems : list TextItem) (targetNodes : list TextNode)
    (onProgress : option Sink) : list Z * Completion MapState :=
  match ensureFontsLoaded loadFontAsync targetNodes onProgress with
  | (notified, Threw e) => (notified, Threw e)
  | (notified, Returned _) =>
      (notified, Returned (resolve sourceItems targetItems targetNodes onProgress))
  end.

(** *** Notions used to state its properties *)

(** The turns in which the callback threw, with what it threw: the turns
    that wrote their target and whose call does not return. *)
Definition thrown (onProgress : option Sink) (outcomes : list Outcome)
  : list (nat * string) :=
  match onProgress with
  | None => []
  | Some sink =>
      omap id (imap (fun i o =>
                       if is_transferred o
                       then (fun e => (i, e)) <$> afterPair sink i
                       else None)
                    outcomes)
  end.

(** After [i] turns: the turns in which the callback threw are counted
    twice, and have two lines of the report. *)
Definition counted (onProgress : option Sink) (i : nat) (st : MapState) : Prop :=
  length (trace st) = i /\
  mapped st + skipped st = i + length (thrown onProgress (trace st)) /\
  length (details st) = i + length (thrown onProgress (trace st)) /\
  mapped st = length (List.filter is_transferred (trace st)).


(** The call either throws an error of the font phase (that of a font
    that did not load, or one thrown by the callback when a font had
    loaded) or returns a state for which [P] holds. *)
Definition yields (loadFontAsync : FontName -> option string)
    (sourceItems targetItems : list TextItem) (targetNodes : list TextNode)
    (onProgress : option Sink) (P : MapState -> Prop) : Prop :=
  match (mapTextNodes loadFontAsync sourceItems targetItems targetNodes onProgress).2 with
  | Returned st =>
      st = resolve sourceItems targetItems targetNodes onProgress /\ P st
  | Threw e =>
      (exists f, f ∈ uniqueFonts targetNodes /\ loadFontAsync f = Some e) \/
      (exists sink index f,
          onProgress = Some sink /\ uniqueFonts targetNodes !! index = Some f /\
          loadFontAsync f = None /\ afterFont sink index = Some e)
  end.


End Callback.

(** ** The rule of the resolution *)

(** Target [j] was written in a turn before turn [k]. *)
Definition written_before (tr : list Outcome) (k j : nat) : Prop :=
  exists k' sc, k' < k /\ tr !! k' = Some (Transferred j sc).

(** What turn [k], on source item [s], selected: a candidate that no
    earlier turn wrote to, while every target that scores strictly
    higher for [s] was written to by an earlier turn; and no target at
    all only when every candidate was written to by an earlier turn. *)
Definition greedy_choice (tgt : list TextItem) (tr : list Outcome) (k : nat)
    (s : TextItem) (o : Outcome) : Prop :=
  match selected o with
  | Some t =>
      exists tt, tgt !! t = Some tt /\ (0 < pairScore s tt)%Q /\
        ~ written_before tr k t /\
        (forall sc, o = Transferred t sc -> sc = pairScore s tt) /\
        forall j tj, tgt !! j = Some tj ->
          (pairScore s tt < pairScore s tj)%Q ->
          written_before tr k j
  | None =>
      forall j tj, tgt !! j = Some tj -> (0 < pairScore s tj)%Q ->
                   written_before tr k j
  end.

(** ** Further functions of [code.ts] *)

(** The number of levels below a node: what [depth] reaches under it. *)
Fixpoint height (n : SceneNode) : nat :=
  match n with
  | Container _ _ _ children =>
      foldr (fun k acc => Nat.max (S (height k)) acc) 0 children
  | _ => 0
  end.

(** The message that [updateSelectionFeedback] posts to the panel. *)
Inductive SelectionFeedback :=
| FRAME_SELECTED (frameName : string) (canCopy : bool)
| NO_FRAME_SELECTED (canCopy : bool).

Definition updateSelectionFeedback (w : World) : SelectionFeedback :=
  match selection w with
  | [Container FRAME _ name _] => FRAME_SELECTED name true
  | _ => NO_FRAME_SELECTED false
  end.

(** A new run of the plugin: the global [copyPayload] starts as [null];
    the document, the selection and the store are the host's and stay. *)
Definition startPlugin (w : World) : World := setCopyPayload None w.

(** What a payload is after it went through the store: serialized on
    [handleCopy], deserialized on [handlePaste]. *)
Definition restored (payload : CopyPayload) : CopyPayload :=
  deserializePayload (serializePayload payload).

(** The font name of an item survives the store: it is absent, or it
    has a family and a style that are not empty.  The [figma.mixed]
    symbol does not survive. *)
Definition font_survives (a : Attr FontName) : Prop :=
  match a with
  | Absent => True
  | MixedSym => False
  | Present f => family f <> "" /\ style f <> ""
  end.

(** The test of strategy 3: both items have a font name and a font size,
    and the families are the same. *)
Definition fontSignal (sourceItem targetItem : TextItem) : bool :=
  Js.truthy_obj (fontName sourceItem) && Js.truthy_obj (fontName targetItem) &&
  Js.truthy_num (fontSize sourceItem) && Js.truthy_num (fontSize targetItem) &&
  Js.strict_eq_str (Js.family_of (fontName sourceItem))
                   (Js.family_of (fontName targetItem)).

(** An item without its font name. *)
Definition withoutFont (item : TextItem) : TextItem :=
  {| path := path item; name := name item; characters := characters item;
     fontSize := fontSize item; fontName := Absent;
     textStyleId := textStyleId item |}.

(** ** Sample worlds *)

Module Demo.

Definition source : SceneNode :=
  Container FRAME "1:1" "Source"
    [Shape "bg"; TextLeaf (Sample.node "Title" "Hello" false);
     Container GROUP "1:3" "g" [TextLeaf (Sample.node "Body" "Lorem" false)]].

Definition target : SceneNode :=
  Container FRAME "2:1" "Target"
    [Shape "bg"; TextLeaf (Sample.node "Title" "World" false);
     Container GROUP "2:3" "g" [TextLeaf (Sample.node "Body" "ipsum" true)]].

(** Nothing copied yet; [sel] is selected; the store answers as [setErr]
    and [getErr] say, and fonts load as [fonts] says. *)
Definition fresh (sel : list SceneNode) (setErr getErr : option string)
    (fonts : FontName -> option string) : World :=
  {| selection := sel; copyPayload := None; clientStorage := None;
     setAsyncError := setErr; getAsyncError := getErr;
     loadFontAsync := fonts; now := 0; posted := [] |}.

Definition noFontLoads : FontName -> option string :=
  fun _ => Some "font unavailable".

(** The store stops accepting writes (or starts again). *)
Definition withSetAsyncError (e : option string) (w : World) : World :=
  {| selection := selection w; copyPayload := copyPayload w;
     clientStorage := clientStorage w; setAsyncError := e;
     getAsyncError := getAsyncError w; loadFontAsync := loadFontAsync w;
     now := now w; posted := posted w |}.

End Demo.

(** The deepest level reached below the entries of a stack. *)
Definition stack_depth (stack : list StackEntry) : nat :=
  foldr (fun e acc => Nat.max (e.2 + height e.1.1) acc) 0 stack.

(** The step of the loop of [uniqueFonts]. *)
Definition font_step (fonts : list FontName) (node : TextNode) : list FontName :=
  match nodeFontName node with
  | Present f => if bool_decide (f ∈ fonts) then fonts else fonts ++ [f]
  | _ => fonts
  end.

(** ** The earlier [mapTextNodes] of [code.ts]

    The second version in the file matches by three strategies in turn
    instead of by score; its items carry a path, a name and the
    characters only. *)

Module Basic.

Record TextItem := mkTextItem {
  path : list nat;
  name : option string;
  characters : string
}.

(** [arr.findIndex((item, idx) => ...)]; [None] stands for [-1]. *)
Fixpoint findIndex_from {A} (callback : A -> nat -> bool) (idx : nat)
    (arr : list A) : option nat :=
  match arr with
  | [] => None
  | item :: rest =>
      if callback item idx then Some idx else findIndex_from callback (S idx) rest
  end.

Definition findIndex {A} (callback : A -> nat -> bool) (arr : list A) : option nat :=
  findIndex_from callback 0 arr.

(** [ensureFontsLoaded]: [Promise.all] over the loads of the distinct
    fonts; no progress is reported. *)
Definition ensureFontsLoaded (loadFontAsync : FontName -> option string)
    (textNodes : list TextNode) : Completion unit :=
  match omap loadFontAsync (uniqueFonts textNodes) with
  | [] => Returned tt
  | e :: _ => Threw e
  end.

(** [mapped], [skipped], [usedIndices] and the target nodes as the
    writes so far have left them. *)
Record MapState := mkMapState {
  mapped : nat;
  skipped : nat;
  usedIndices : gset nat;
  liveNodes : list TextNode
}.

(** [skipped++] *)
Definition skip (st : MapState) : MapState :=
  {| mapped := mapped st;
     skipped := S (skipped st);
     usedIndices := usedIndices st;
     liveNodes := liveNodes st |}.

(** The value of [targetIndex] after the three strategies. *)
Definition targetIndexOf (usedIndices : gset nat) (sourceItem : TextItem)
    (targetItems : list TextItem) : option nat :=
  let unused idx := negb (bool_decide (idx ∈ usedIndices)) in
  (* Strategy 1: Path matching (exact structure) *)
  let targetIndex :=
    findIndex (fun item idx =>
                 unused idx && path_equal (path item) (path sourceItem))
              targetItems in
  (* Strategy 2: Name matching *)
  let targetIndex :=
    match targetIndex with
    | None =>
        if Js.truthy_str (name sourceItem) then
          findIndex (fun item idx =>
                       unused idx && Js.strict_eq_str (name item) (name sourceItem))
                    targetItems
        else None
    | Some _ => targetIndex
    end in
  (* Strategy 3: Order fallback (next available) *)
  match targetIndex with
  | None => findIndex (fun _ idx => unused idx) targetItems
  | Some _ => targetIndex
  end.

(** One turn of [for (const sourceItem of sourceItems)]. *)
Definition processSource (targetItems : list TextItem) (st : MapState)
    (sourceItem : TextItem) : MapState :=
  match targetIndexOf (usedIndices st) sourceItem targetItems with
  | Some targetIndex =>
      match liveNodes st !! targetIndex with
      | None => skip st (* [targetNode.locked] throws, caught *)
      | Some targetNode =>
          if locked targetNode then skip st
          else
            match writeError targetNode with
            | Some _ => skip st
            | None =>
                {| mapped := S (mapped st);
                   skipped := skipped st;
                   usedIndices := {[targetIndex]} ∪ usedIndices st;
                   liveNodes :=
                     <[targetIndex := setCharacters (characters sourceItem) targetNode]>
                       (liveNodes st) |}
            end
      end
  | None => skip st
  end.

(** The loop of [mapTextNodes], after the fonts. *)
Definition resolve (sourceItems targetItems : list TextItem)
    (targetNodes : list TextNode) : MapState :=
  foldl (processSource targetItems)
        {| mapped := 0; skipped := 0; usedIndices := ∅; liveNodes := targetNodes |}
        sourceItems.

Definition mapTextNodes (loadFontAsync : FontName -> option string)
    (sourceItems targetItems : list TextItem) (targetNodes : list TextNode)
  : Completion MapState :=
  match ensureFontsLoaded loadFontAsync targetNodes with
  | Threw e => Threw e
  | Returned _ => Returned (resolve sourceItems targetItems targetNodes)
  end.

(** *** Notions used to state its properties *)

(** The call either throws the error of a font of the target nodes that
    did not load, or returns a state for which [P] holds. *)
Definition yields (loadFontAsync : FontName -> option string)
    (sourceItems targetItems : list TextItem) (targetNodes : list TextNode)
    (P : MapState -> Prop) : Prop :=
  match mapTextNodes loadFontAsync sourceItems targetItems targetNodes with
  | Threw e =>
      exists f, f ∈ uniqueFonts targetNodes /\ loadFontAsync f = Some e
  | Returned st =>
      (forall f, f ∈ uniqueFonts targetNodes -> loadFontAsync f = None) /\
      st = resolve sourceItems targetItems targetNodes /\ P st
  end.

(** A node that is not locked and takes a write. *)
Definition writable (n : TextNode) : bool :=
  negb (locked n) && bool_decide (writeError n = None).

(** The node after the characters of [s] went into it, if it takes them. *)
Definition transfer (s : TextItem) (n : TextNode) : TextNode :=
  if writable n then setCharacters (characters s) n else n.

End Basic.

Module BasicDemo.

Definition items : list Basic.TextItem :=
  [Basic.mkTextItem [1] (Some "Title") "Hello";
   Basic.mkTextItem [2; 0] (Some "Body") "Lorem"].

Definition sameShape : list Basic.TextItem :=
  [Basic.mkTextItem [1] (Some "Heading") "World";
   Basic.mkTextItem [2; 0] (Some "Copy") "ipsum"].

Definition otherShape : list Basic.TextItem :=
  [Basic.mkTextItem [0] (Some "Heading") "World";
   Basic.mkTextItem [3] (Some "Copy") "ipsum"].

Definition nodes : list TextNode :=
  [Sample.node "Heading" "World" false; Sample.node "Copy" "ipsum" false].

Definition firstLocked : list TextNode :=
  [Sample.node "Heading" "World" true; Sample.node "Copy" "ipsum" false].

End BasicDemo.

(** * Properties *)

(** ** The JavaScript primitives on small inputs *)

Example split_inner : Js.split_ws "a  b" = ["a"; "b"].
Proof. reflexivity. Qed.

Example split_leading : Js.split_ws " a" = [""; "a"].
Proof. reflexivity. Qed.

Example split_trailing : Js.split_ws "a " = ["a"; ""].
Proof. reflexivity. Qed.

Example split_blank : Js.split_ws "  " = [""; ""].
Proof. reflexivity. Qed.

Example split_empty : Js.split_ws "" = [""].
Proof. reflexivity. Qed.

Example lower_mixed : Js.toLowerCase "Hello World" = "hello world".
Proof. reflexivity. Qed.

Example percent_third : percent 1 3 = 33%Z.
Proof. reflexivity. Qed.

Example percent_half_up : percent 1 8 = 13%Z.
Proof. reflexivity. Qed.

Example percent_last : percent 7 7 = 100%Z.
Proof. reflexivity. Qed.

(** In binary64, [(57 / 200) * 100] falls just short of 28.5. *)
Example percent_binary64 : percent 57 200 = 28%Z.
Proof. reflexivity. Qed.

(** ** Scoring *)

Section Scoring.

Lemma path_equal_spec (p1 p2 : list nat) : path_equal p1 p2 = true <-> p1 = p2.
Proof.
  unfold path_equal. rewrite andb_true_iff, Nat.eqb_eq, forallb_forall. split.
  - intros [Hlen Hall]. apply (list_eq_same_length _ _ (length p1)); [done..|].
    intros i x y _ Hx Hy.
    assert (Hin : In (bool_decide (p2 !! i = Some x))
                     (imap (fun i val => bool_decide (p2 !! i = Some val)) p1)).
    { apply list_elem_of_In, elem_of_lookup_imap. eauto. }
    apply Hall in Hin. apply bool_decide_eq_true in Hin. congruence.
  - intros ->. split; [done|]. intros b Hb.
    apply list_elem_of_In, elem_of_lookup_imap in Hb as (i & x & -> & Hx).
    by apply bool_decide_eq_true.
Qed.

Lemma path_equal_refl (p : list nat) : path_equal p p = true.
Proof. by apply path_equal_spec. Qed.

Lemma common_prefix_le_l (p1 p2 : list nat) : common_prefix p1 p2 <= length p1.
Proof.
  revert p2. induction p1 as [|a r1 IH]; intros [|b r2]; simpl; try lia.
  destruct (a =? b); [specialize (IH r2)|]; lia.
Qed.

Lemma common_prefix_le_r (p1 p2 : list nat) : common_prefix p1 p2 <= length p2.
Proof.
  revert p2. induction p1 as [|a r1 IH]; intros [|b r2]; simpl; try lia.
  destruct (a =? b); [specialize (IH r2)|]; lia.
Qed.

Lemma common_prefix_refl (p : list nat) : common_prefix p p = length p.
Proof. induction p as [|a r IH]; simpl; [done|]. by rewrite Nat.eqb_refl, IH. Qed.

Lemma common_prefix_full (p1 p2 : list nat) :
  common_prefix p1 p2 = length p1 -> length p1 = length p2 -> p1 = p2.
Proof.
  revert p2. induction p1 as [|a r1 IH]; intros [|b r2]; simpl; try done.
  destruct (a =? b) eqn:E; [|done]. apply Nat.eqb_eq in E as ->.
  intros H1 H2. f_equal. apply IH; lia.
Qed.

Lemma calculatePathSimilarity_nonneg (p1 p2 : list nat) :
  (0 <= calculatePathSimilarity p1 p2)%Q.
Proof.
  unfold calculatePathSimilarity.
  destruct ((length p1 =? 0) || (length p2 =? 0)) eqn:E; [lra|].
  apply orb_false_iff in E as [E1%Nat.eqb_neq E2%Nat.eqb_neq].
  apply Qle_shift_div_l.
  - replace 0%Q with (inject_Z 0) by done. rewrite <- Zlt_Qlt. lia.
  - rewrite Qmult_0_l. replace 0%Q with (inject_Z 0) by done.
    rewrite <- Zle_Qle. lia.
Qed.

Lemma calculatePathSimilarity_le_1 (p1 p2 : list nat) :
  (calculatePathSimilarity p1 p2 <= 1)%Q.
Proof.
  unfold calculatePathSimilarity.
  destruct ((length p1 =? 0) || (length p2 =? 0)) eqn:E; [lra|].
  apply orb_false_iff in E as [E1%Nat.eqb_neq E2%Nat.eqb_neq].
  apply Qle_shift_div_r.
  - replace 0%Q with (inject_Z 0) by done. rewrite <- Zlt_Qlt. lia.
  - rewrite Qmult_1_l. rewrite <- Zle_Qle.
    pose proof (common_prefix_le_l p1 p2). lia.
Qed.

(** Two different paths are never fully similar. *)
Lemma calculatePathSimilarity_lt_1 (p1 p2 : list nat) :
  p1 <> p2 -> (calculatePathSimilarity p1 p2 < 1)%Q.
Proof.
  intros Hne. unfold calculatePathSimilarity.
  destruct ((length p1 =? 0) || (length p2 =? 0)) eqn:E; [lra|].
  apply orb_false_iff in E as [E1%Nat.eqb_neq E2%Nat.eqb_neq].
  apply Qlt_shift_div_r.
  - replace 0%Q with (inject_Z 0) by done. rewrite <- Zlt_Qlt. lia.
  - rewrite Qmult_1_l. rewrite <- Zlt_Qlt.
    pose proof (common_prefix_le_l p1 p2). pose proof (common_prefix_le_r p1 p2).
    destruct (decide (common_prefix p1 p2 = Nat.max (length p1) (length p2)))
      as [Heq|]; [|lia].
    exfalso. apply Hne, common_prefix_full; lia.
Qed.

Lemma commonWords_nonneg (a b : string) :
  (0 <= inject_Z (Z.of_nat (length (commonWords a b))) * 10)%Q.
Proof.
  assert (0 <= inject_Z (Z.of_nat (length (commonWords a b))))%Q; [|lra].
  replace 0%Q with (inject_Z 0) by done. rewrite <- Zle_Qle. lia.
Qed.

Lemma lowerSignals_nonneg (s t : TextItem) : (0 <= lowerSignals s t)%Q.
Proof.
  unfold lowerSignals.
  pose proof (commonWords_nonneg (characters s) (characters t)).
  repeat (match goal with |- context [if ?c then _ else _] => destruct c end;
          cbn [andb]); lra.
Qed.

(** The score is the sum of its three parts: the exact-path signal, the
    signals of strategies 2 to 5, and the path-prefix similarity. *)
Lemma pairScore_parts (s t : TextItem) :
  (pairScore s t ==
   (if path_equal (path s) (path t) then 1000 else 0) + lowerSignals s t +
   calculatePathSimilarity (path s) (path t) * 50)%Q.
Proof.
  unfold pairScore, lowerSignals.
  repeat (match goal with |- context [if ?c then _ else _] => destruct c end;
          cbn [andb]); ring.
Qed.

Lemma pairScore_nonneg (s t : TextItem) : (0 <= pairScore s t)%Q.
Proof.
  rewrite pairScore_parts.
  pose proof (lowerSignals_nonneg s t).
  pose proof (calculatePathSimilarity_nonneg (path s) (path t)).
  destruct (path_equal _ _); lra.
Qed.

Lemma pairScore_path_equal (s t : TextItem) :
  path_equal (path s) (path t) = true -> (1000 <= pairScore s t)%Q.
Proof.
  intros H. rewrite pairScore_parts, H.
  pose proof (lowerSignals_nonneg s t).
  pose proof (calculatePathSimilarity_nonneg (path s) (path t)). lra.
Qed.

Lemma pairScore_path_differs (s t : TextItem) :
  path_equal (path s) (path t) = false ->
  (pairScore s t < lowerSignals s t + 50)%Q.
Proof.
  intros H. rewrite pairScore_parts, H.
  assert (path s <> path t) as Hne.
  { intros Heq%path_equal_spec. congruence. }
  pose proof (calculatePathSimilarity_lt_1 _ _ Hne). lra.
Qed.

End Scoring.

(** ** C2: how far the exact-path signal dominates *)

(** C2, as stated, fails: a target at another path that shares the name,
    the text style, the font family and the font size with the source
    scores 1100, more than the 1050 of a target that shares only the
    path. *)
Lemma C2_path_signal_overtaken :
  path_equal (path Sample.title) (path Sample.samePath) = true /\
  path_equal (path Sample.title) (path Sample.sameAttrs) = false /\
  (pairScore Sample.title Sample.samePath == 1050)%Q /\
  (pairScore Sample.title Sample.sameAttrs == 1100)%Q /\
  (pairScore Sample.title Sample.samePath <= pairScore Sample.title Sample.sameAttrs)%Q.
Proof. repeat split; by vm_compute. Qed.

(** C2, amended: a target whose path equals the source's scores strictly
    more than any target at another path whose name, font, text-style and
    content signals add up to at most 950; the path-prefix signal of a
    target at another path stays below 50. *)
Theorem C2_path_signal_dominates (s t1 t2 : TextItem) :
  path_equal (path s) (path t1) = true ->
  path_equal (path s) (path t2) = false ->
  (lowerSignals s t2 <= 950)%Q ->
  (calculatePathSimilarity (path s) (path t2) * 50 < 50)%Q /\
  (pairScore s t2 < 1000)%Q /\
  (1000 <= pairScore s t1)%Q /\
  (pairScore s t2 < pairScore s t1)%Q.
Proof.
  intros H1 H2 Hlow.
  pose proof (pairScore_path_equal s t1 H1).
  pose proof (pairScore_path_differs s t2 H2).
  assert (path s <> path t2) as Hne.
  { intros Heq%path_equal_spec. congruence. }
  pose proof (calculatePathSimilarity_lt_1 _ _ Hne).
  repeat split; lra.
Qed.

Lemma C2_path_signal_dominates_witness :
  (pairScore Sample.title Sample.sameName < pairScore Sample.title Sample.samePath)%Q.
Proof.
  apply (C2_path_signal_dominates Sample.title Sample.samePath Sample.sameName).
  - reflexivity.
  - reflexivity.
  - vm_compute. discriminate.
Defined.

(** ** The sorted rows of the scoring matrix *)

Section Rows.

Lemma insertEntry_perm (e : ScoreEntry) (l : list ScoreEntry) :
  insertEntry e l ≡ₚ e :: l.
Proof.
  induction l as [|x r IH]; simpl; [done|].
  destruct (Qle_bool (score x) (score e)); [done|].
  rewrite IH. apply Permutation_swap.
Qed.

Lemma sortScores_perm (l : list ScoreEntry) : sortScores l ≡ₚ l.
Proof.
  induction l as [|x r IH]; simpl; [done|].
  unfold sortScores in *. simpl. by rewrite insertEntry_perm, IH.
Qed.

Lemma elem_of_sortScores (e : ScoreEntry) (l : list ScoreEntry) :
  e ∈ sortScores l <-> e ∈ l.
Proof. by rewrite sortScores_perm. Qed.

Lemma insertEntry_sorted (e : ScoreEntry) (l : list ScoreEntry) :
  StronglySorted scores_desc l -> StronglySorted scores_desc (insertEntry e l).
Proof.
  induction 1 as [|x r Hr IH Hx]; simpl.
  - repeat constructor.
  - destruct (Qle_bool (score x) (score e)) eqn:E.
    + apply Qle_bool_iff in E. constructor; [by constructor|].
      constructor; [done|].
      eapply Forall_impl; [exact Hx|]. unfold scores_desc. intros y Hy. lra.
    + assert (score e < score x)%Q as Hlt.
      { apply Qnot_le_lt. intros Hle%Qle_bool_iff. congruence. }
      constructor; [done|].
      apply Forall_forall. intros y Hy.
      rewrite insertEntry_perm in Hy. apply elem_of_cons in Hy as [->|Hy].
      * unfold scores_desc. lra.
      * by eapply Forall_forall in Hx.
Qed.

Lemma sortScores_sorted (l : list ScoreEntry) :
  StronglySorted scores_desc (sortScores l).
Proof.
  induction l as [|x r IH]; [constructor|].
  by apply insertEntry_sorted.
Qed.

(** The first entry of a sorted row has the highest score of the row. *)
Lemma sortScores_head_max (l : list ScoreEntry) (e x : ScoreEntry) (r : list ScoreEntry) :
  sortScores l = e :: r -> x ∈ l -> (score x <= score e)%Q.
Proof.
  intros Hs Hx. pose proof (sortScores_sorted l) as Hsorted.
  rewrite <- elem_of_sortScores in Hx. rewrite Hs in Hsorted, Hx.
  apply StronglySorted_inv in Hsorted as [_ Hall].
  apply elem_of_cons in Hx as [->|Hx]; [lra|].
  by eapply Forall_forall in Hall.
Qed.

Lemma Qpositive_spec (q : Q) : Qpositive q = true <-> (0 < q)%Q.
Proof.
  unfold Qpositive. rewrite negb_true_iff. split.
  - intros H. apply Qnot_le_lt. intros Hle%Qle_bool_iff. congruence.
  - intros H. destruct (Qle_bool q 0) eqn:E; [|done].
    apply Qle_bool_iff in E. lra.
Qed.

Lemma elem_of_candidates (used : gset nat) (si : nat) (s : TextItem)
    (tgt : list TextItem) (e : ScoreEntry) :
  e ∈ candidates used si s tgt <->
  exists ti t, tgt !! ti = Some t /\ (ti ∉ used) /\ (0 < pairScore s t)%Q /\
               e = mkScoreEntry si ti (pairScore s t).
Proof.
  unfold candidates. rewrite list_elem_of_omap. split.
  - intros (o & Ho & Heq). apply elem_of_lookup_imap in Ho as (ti & t & -> & Ht).
    simpl in Heq. case_bool_decide; [done|].
    destruct (Qpositive (pairScore s t)) eqn:E; [|done].
    apply Qpositive_spec in E. injection Heq as <-. eauto 10.
  - intros (ti & t & Ht & Hused & Hpos & ->).
    exists (Some (mkScoreEntry si ti (pairScore s t))). split; [|done].
    apply elem_of_lookup_imap. exists ti, t. split; [|done].
    rewrite bool_decide_eq_false_2 by done.
    apply Qpositive_spec in Hpos. by rewrite Hpos.
Qed.

Lemma createScoringMatrix_length (used : gset nat) (src tgt : list TextItem) :
  length (createScoringMatrix used src tgt) = length src.
Proof. unfold createScoringMatrix. by rewrite length_imap. Qed.

(** Row [k] of the loop: the [k]-th source item with its sorted
    candidates. *)
Lemma lookup_rows (used : gset nat) (src tgt : list TextItem) (k : nat)
    (s : TextItem) (scores : list ScoreEntry) :
  zip src (createScoringMatrix used src tgt) !! k = Some (s, scores) <->
  src !! k = Some s /\ scores = sortScores (candidates used k s tgt).
Proof.
  unfold createScoringMatrix. rewrite lookup_zip_with_Some. split.
  - intros (x & y & [= <- <-] & Hx & Hy).
    rewrite list_lookup_imap, Hx in Hy. simpl in Hy. by injection Hy as <-.
  - intros [Hs ->]. exists s, (sortScores (candidates used k s tgt)).
    split; [done|]. split; [done|]. by rewrite list_lookup_imap, Hs.
Qed.

Lemma rows_length (used : gset nat) (src tgt : list TextItem) :
  length (zip src (createScoringMatrix used src tgt)) = length src.
Proof. rewrite length_zip_with, createScoringMatrix_length. lia. Qed.

(** Every entry of a row names a target item. *)
Lemma row_target_bound (used : gset nat) (si : nat) (s : TextItem)
    (tgt : list TextItem) (e : ScoreEntry) :
  e ∈ sortScores (candidates used si s tgt) -> targetIndex e < length tgt.
Proof.
  rewrite elem_of_sortScores, elem_of_candidates.
  intros (ti & t & Ht & _ & _ & ->). simpl. by eapply lookup_lt_Some.
Qed.

End Rows.

(** ** One turn of the loop *)

Section Turn.

Lemma processSource_turn (onProgress : bool) (total i : nat) (s : TextItem)
    (scores : list ScoreEntry) (st : MapState) :
  exists o, turn onProgress total i s scores st o
              (processSource onProgress total i s scores st).
Proof.
  unfold processSource.
  destruct scores as [|e0 r] eqn:Hscores; simpl length; cbn [Nat.eqb].
  { eexists. by constructor. }
  rewrite <- Hscores.
  destruct (List.find _ scores) as [best|] eqn:Hfind.
  2: { eexists. apply turn_all_claimed; [by rewrite Hscores|].
       intros e He. apply list_elem_of_In in He.
       eapply find_none in Hfind; [|exact He]. simpl in Hfind.
       apply negb_false_iff, bool_decide_eq_true in Hfind. done. }
  destruct (liveNodes st !! targetIndex best) as [n|] eqn:Hn.
  2: { eexists. by apply turn_undefined. }
  destruct (locked n) eqn:Hl.
  { eexists. by eapply turn_locked. }
  destruct (writeError n) as [e|] eqn:He.
  { eexists. by eapply turn_write_failed. }
  destruct (List.find (fun s0 => targetIndex s0 =? targetIndex best) scores)
    as [m|] eqn:Hm.
  - apply find_some in Hm as [Hin Heq]. apply Nat.eqb_eq in Heq.
    eexists. eapply turn_transferred; eauto. by apply list_elem_of_In.
  - apply find_some in Hfind as [Hin _].
    eapply find_none in Hm; [|exact Hin]. simpl in Hm.
    by rewrite Nat.eqb_refl in Hm.
Qed.

(** The rule for the loop: a property of the index and the state that
    every turn preserves holds when the loop ends. *)
Lemma processMappings_invariant (P : nat -> MapState -> Prop)
    (onProgress : bool) (total : nat) (rows : list (TextItem * list ScoreEntry)) :
  forall (i0 : nat) (st0 : MapState),
    P i0 st0 ->
    (forall k s scores st o st',
        rows !! k = Some (s, scores) ->
        P (i0 + k) st ->
        turn onProgress total (i0 + k) s scores st o st' ->
        P (S (i0 + k)) st') ->
    P (i0 + length rows) (processMappings onProgress total i0 rows st0).
Proof.
  induction rows as [|[s scores] rest IH]; intros i0 st0 H0 Hstep; simpl.
  - by rewrite Nat.add_0_r.
  - rewrite <- Nat.add_succ_comm. apply IH.
    + destruct (processSource_turn onProgress total i0 s scores st0) as [o Ho].
      pose proof (Hstep 0 s scores st0 o
                    (processSource onProgress total i0 s scores st0) eq_refl)
        as Hnow.
      rewrite Nat.add_0_r in Hnow. by apply Hnow.
    + intros k s' scores' st o st' Hk HP Hturn.
      rewrite Nat.add_succ_comm in HP, Hturn |- *.
      by apply (Hstep (S k) s' scores' st o st').
Qed.

End Turn.

(** ** The call as a whole *)

Section Call.

Lemma ensureFontsLoaded_completion (lf : FontName -> option string)
    (nodes : list TextNode) (op : bool) :
  match (ensureFontsLoaded lf nodes op).2 with
  | Returned _ => True
  | Threw e => exists f, f ∈ uniqueFonts nodes /\ lf f = Some e
  end.
Proof.
  unfold ensureFontsLoaded.
  destruct (length (uniqueFonts nodes) =? 0); [done|].
  destruct (omap lf (uniqueFonts nodes)) as [|e r] eqn:E; [done|]. simpl.
  assert (e ∈ omap lf (uniqueFonts nodes)) as He by (rewrite E; left).
  apply list_elem_of_omap in He as (f & Hf & Hlf). eauto.
Qed.

Lemma mapTextNodes_yields_intro (lf : FontName -> option string)
    (src tgt : list TextItem) (nodes : list TextNode) (op : bool)
    (P : MapState -> Prop) :
  P (resolve src tgt nodes op) -> mapTextNodes_yields lf src tgt nodes op P.
Proof.
  intros HP. unfold mapTextNodes_yields, mapTextNodes.
  pose proof (ensureFontsLoaded_completion lf nodes op) as Hc.
  destruct (ensureFontsLoaded lf nodes op) as [notified [[]|e]]; simpl in *; done.
Qed.

(** When every font loads, the call returns. *)
Lemma mapTextNodes_returns (lf : FontName -> option string)
    (src tgt : list TextItem) (nodes : list TextNode) (op : bool) :
  (forall f, f ∈ uniqueFonts nodes -> lf f = None) ->
  (mapTextNodes lf src tgt nodes op).2 = Returned (resolve src tgt nodes op).
Proof.
  intros Hall. unfold mapTextNodes.
  pose proof (ensureFontsLoaded_completion lf nodes op) as Hc.
  destruct (ensureFontsLoaded lf nodes op) as [notified [[]|e]]; simpl in *; [done|].
  destruct Hc as (f & Hf & He). rewrite Hall in He; done.
Qed.

End Call.

(** ** Counting *)

Section Counting.

Lemma turn_counted (op : bool) (total i : nat) (s : TextItem)
    (scores : list ScoreEntry) (st st' : MapState) (o : Outcome) :
  turn op total i s scores st o st' -> counted i st -> counted (S i) st'.
Proof.
  unfold counted. intros Hturn (Hc & Hd & Ht & Hm).
  destruct Hturn; simpl;
    rewrite ?length_app, ?List.filter_app, ?length_app; simpl; lia.
Qed.

Lemma resolve_counted (src tgt : list TextItem) (nodes : list TextNode) (op : bool) :
  counted (length src) (resolve src tgt nodes op).
Proof.
  unfold resolve.
  pose proof (processMappings_invariant counted op
                (length (createScoringMatrix ∅ src tgt))
                (zip src (createScoringMatrix ∅ src tgt)) 0
                (initialMapState nodes)) as H.
  rewrite rows_length in H. apply H.
  - by unfold counted.
  - intros k s scores st o st' _ Hc Hturn. by eapply turn_counted.
Qed.

End Counting.

(** *** With a callback that may throw *)







(** How the font phase ends. *)
Lemma Callback_ensureFontsLoaded_completion (onProgress : option Callback.Sink)
    (lf : FontName -> option string) (nodes : list TextNode) :
  match (Callback.ensureFontsLoaded lf nodes onProgress).2 with
  | Returned _ =>
      forall index f, uniqueFonts nodes !! index = Some f ->
        lf f = None /\
        forall sink, onProgress = Some sink -> Callback.afterFont sink index = None
  | Threw e =>
      (exists f, f ∈ uniqueFonts nodes /\ lf f = Some e) \/
      (exists sink index f,
          onProgress = Some sink /\ uniqueFonts nodes !! index = Some f /\
          lf f = None /\ Callback.afterFont sink index = Some e)
  end.
Proof.
  unfold Callback.ensureFontsLoaded.
  destruct (length (uniqueFonts nodes) =? 0) eqn:Hlen.
  { apply Nat.eqb_eq, length_zero_iff_nil in Hlen. rewrite Hlen. by intros index f. }
  set (promise := fun (index : nat) (fontName : FontName) =>
         match lf fontName with
         | Some e => (None, Some e)
         | None =>
             match onProgress with
             | None => (None, None)
             | Some sink =>
                 (Some (percent (index + 1) (length (uniqueFonts nodes))),
                  Callback.afterFont sink index)
             end
         end : option Z * option string).
  destruct (omap snd (imap promise (uniqueFonts nodes))) as [|e r] eqn:E; cbn [snd].
  - intros index f Hf.
    assert (snd (promise index f) = None) as Hnone.
    { destruct (snd (promise index f)) as [e|] eqn:Hs; [|done].
      assert (e ∈ omap snd (imap promise (uniqueFonts nodes))) as Hin.
      { apply list_elem_of_omap. exists (promise index f). split; [|done].
        apply elem_of_lookup_imap. eauto. }
      rewrite E in Hin. by apply elem_of_nil in Hin. }
    unfold promise in Hnone. destruct (lf f); [done|]. split; [done|].
    intros sink ->. done.
  - assert (e ∈ omap snd (imap promise (uniqueFonts nodes))) as Hin
      by (rewrite E; left).
    apply list_elem_of_omap in Hin as (pr & Hpr & Hsnd).
    apply elem_of_lookup_imap in Hpr as (index & f & -> & Hf).
    unfold promise in Hsnd. destruct (lf f) as [e'|] eqn:Hlf.
    + left. exists f. split; [by eapply list_elem_of_lookup_2|]. simpl in Hsnd. congruence.
    + right. destruct onProgress as [sink|]; [|done]. exists sink, index, f. done.
Qed.


(** With a callback that returns, the functions of [Callback] are the
    functions of the applier. *)
Lemma Callback_processSource_returning (given : bool) (total i : nat)
    (s : TextItem) (scores : list ScoreEntry) (st : MapState) :
  Callback.processSource (Callback.returning given) total i s scores st =
  processSource given total i s scores st.
Proof.
  unfold Callback.processSource, processSource.
  destruct (length scores =? 0); [done|].
  destruct (List.find _ scores) as [best|]; [|done].
  destruct (liveNodes st !! targetIndex best) as [n|]; [|done].
  destruct (locked n); [done|]. destruct (writeError n); [done|].
  by destruct given.
Qed.

Lemma Callback_resolve_returning (given : bool) (src tgt : list TextItem)
    (nodes : list TextNode) :
  Callback.resolve src tgt nodes (Callback.returning given) =
  resolve src tgt nodes given.
Proof.
  unfold Callback.resolve, resolve.
  generalize (length (createScoringMatrix ∅ src tgt)) as total.
  generalize (initialMapState nodes) as st. generalize 0 as i.
  induction (zip src (createScoringMatrix ∅ src tgt)) as [|[s scores] rows IH];
    intros i st total; simpl; [done|].
  by rewrite Callback_processSource_returning, IH.
Qed.

Lemma omap_imap {A B C} (h : B -> option C) (l : list A) :
  forall g : nat -> A -> B, omap h (imap g l) = omap id (imap (fun i x => h (g i x)) l).
Proof.
  induction l as [|x l IH]; intros g; [done|].
  rewrite !imap_cons. cbn [omap list_omap id]. rewrite (IH (g ∘ S)).
  by destruct (h (g 0 x)).
Qed.

Lemma omap_imap_same {A B} (f : A -> option B) (l : list A) :
  forall g : nat -> A -> option B,
    (forall i x, g i x = f x) -> omap id (imap g l) = omap f l.
Proof.
  induction l as [|x l IH]; intros g Hg; [done|].
  rewrite imap_cons. cbn [omap list_omap id]. rewrite Hg.
  rewrite (IH (g ∘ S)) by (intros i y; apply Hg). done.
Qed.

Lemma omap_none {A B} (l : list A) : omap (fun _ : A => @None B) l = [].
Proof. by induction l. Qed.

Lemma Callback_ensureFontsLoaded_returning (given : bool)
    (lf : FontName -> option string) (nodes : list TextNode) :
  Callback.ensureFontsLoaded lf nodes (Callback.returning given) =
  ensureFontsLoaded lf nodes given.
Proof.
  unfold Callback.ensureFontsLoaded, ensureFontsLoaded.
  destruct (length (uniqueFonts nodes) =? 0); [done|].
  rewrite (omap_imap snd), (omap_imap fst).
  rewrite (omap_imap_same lf).
  2: { intros i x. destruct (lf x); [done|]. by destruct given. }
  destruct given.
  - erewrite (imap_ext _ (fun index f =>
                match lf f with
                | None => Some (percent (index + 1) (length (uniqueFonts nodes)))
                | Some _ => None
                end)); [done|].
    intros i x _. simpl. by destruct (lf x).
  - rewrite (omap_imap_same (fun _ => None)).
    2: { intros i x. by destruct (lf x). }
    by rewrite omap_none.
Qed.

Lemma Callback_mapTextNodes_returning (given : bool)
    (lf : FontName -> option string) (src tgt : list TextItem)
    (nodes : list TextNode) :
  Callback.mapTextNodes lf src tgt nodes (Callback.returning given) =
  mapTextNodes lf src tgt nodes given.
Proof.
  unfold Callback.mapTextNodes, mapTextNodes.
  by rewrite Callback_ensureFontsLoaded_returning, Callback_resolve_returning.
Qed.



(** ** Claimed targets *)

Section Claims.

Variable tgt : list TextItem.

Lemma find_unclaimed (used : gset nat) (scores : list ScoreEntry) (best : ScoreEntry) :
  List.find (fun s => negb (bool_decide (targetIndex s ∈ used))) scores = Some best ->
  best ∈ scores /\ targetIndex best ∉ used.
Proof.
  intros [Hin Hp]%find_some. split; [by apply list_elem_of_In|].
  by apply negb_true_iff, bool_decide_eq_false in Hp.
Qed.

Lemma turn_claims_ok (op : bool) (total i : nat) (s : TextItem)
    (scores : list ScoreEntry) (st st' : MapState) (o : Outcome) :
  (forall e, e ∈ scores -> targetIndex e < length tgt) ->
  turn op total i s scores st o st' -> claims_ok tgt st -> claims_ok tgt st'.
Proof.
  unfold claims_ok. intros Hrow Hturn (Hb & Hu & Hinj & Hm & Hw).
  assert (Hskip : forall d o0, is_transferred o0 = false ->
    (forall t, t ∈ usedIndices (skip d o0 st) -> t < length tgt) /\
    (forall k t sc, trace (skip d o0 st) !! k = Some (Transferred t sc) ->
                    t ∈ usedIndices (skip d o0 st)) /\
    (forall k1 k2 t sc1 sc2,
        trace (skip d o0 st) !! k1 = Some (Transferred t sc1) ->
        trace (skip d o0 st) !! k2 = Some (Transferred t sc2) -> k1 = k2) /\
    mapped (skip d o0 st) = size (usedIndices (skip d o0 st)) /\
    (forall t, t ∈ usedIndices (skip d o0 st) ->
               exists k sc, trace (skip d o0 st) !! k = Some (Transferred t sc))).
  { intros d o0 Ho0. simpl. split; [done|]. split; [|split; [|split; [done|]]].
    3: { intros t Ht. destruct (Hw t Ht) as (k & sc & Hk).
         exists k, sc. apply lookup_app_l_Some. done. }
    - intros k t sc [[_ Hk]|[_ ->]]%lookup_snoc_Some; [by eapply Hu|done].
    - intros k1 k2 t sc1 sc2 [[_ H1]|[_ ?]]%lookup_snoc_Some
                             [[_ H2]|[_ ?]]%lookup_snoc_Some;
        simplify_eq/=; by eapply Hinj. }
  destruct Hturn as [| | | | |best n m Hfind Hn Hl He Hm' Hmt]; try by apply Hskip.
  apply find_unclaimed in Hfind as [Hin Hfresh]. simpl.
  split; [|split; [|split; [|split]]].
  5: { intros t [->%elem_of_singleton|Ht]%elem_of_union.
       - exists (length (trace st)), (score m). by rewrite lookup_app_r, Nat.sub_diag.
       - destruct (Hw t Ht) as (k & sc & Hk).
         exists k, sc. apply lookup_app_l_Some. done. }
  - intros t [->%elem_of_singleton|Ht]%elem_of_union; [by apply Hrow|by apply Hb].
  - intros k t sc [[_ Hk]|[_ [= -> _]]]%lookup_snoc_Some.
    + apply elem_of_union_r. by eapply Hu.
    + by apply elem_of_union_l, elem_of_singleton.
  - intros k1 k2 t sc1 sc2 [[Hlt1 H1]|[Hk1 H1]]%lookup_snoc_Some
                           [[Hlt2 H2]|[Hk2 H2]]%lookup_snoc_Some.
    + by eapply Hinj.
    + injection H2 as <- _. exfalso. by eapply Hfresh, Hu.
    + injection H1 as <- _. exfalso. by eapply Hfresh, Hu.
    + congruence.
  - rewrite size_union by (by apply disjoint_singleton_l).
    rewrite size_singleton. lia.
Qed.

Lemma resolve_claims_ok (src : list TextItem) (nodes : list TextNode) (op : bool) :
  claims_ok tgt (resolve src tgt nodes op).
Proof.
  unfold resolve.
  apply (processMappings_invariant (fun _ st => claims_ok tgt st) op
           (length (createScoringMatrix ∅ src tgt))
           (zip src (createScoringMatrix ∅ src tgt)) 0 (initialMapState nodes)).
  - unfold claims_ok. simpl. repeat split; done.
  - intros k s scores st o st' Hrow Hok Hturn.
    apply lookup_rows in Hrow as [_ ->].
    eapply turn_claims_ok; [|exact Hturn|exact Hok].
    intros e He. by eapply row_target_bound.
Qed.

(** No more source items are transferred than there are target items. *)
Lemma resolve_mapped_bound (src : list TextItem) (nodes : list TextNode) (op : bool) :
  mapped (resolve src tgt nodes op) <= length tgt.
Proof.
  destruct (resolve_claims_ok src nodes op) as (Hb & _ & _ & -> & _).
  rewrite <- (size_set_seq (C:=gset nat) 0 (length tgt)).
  apply subseteq_size. intros t Ht. apply elem_of_set_seq. apply Hb in Ht. lia.
Qed.

End Claims.

(** ** What the writes leave behind *)

Section Writes.

Variables (src tgt : list TextItem) (nodes0 : list TextNode).

Lemma turn_writes_ok (op : bool) (total i : nat) (s : TextItem)
    (scores : list ScoreEntry) (st st' : MapState) (o : Outcome) :
  src !! i = Some s ->
  (forall e, e ∈ scores -> targetIndex e < length tgt) ->
  turn op total i s scores st o st' -> writes_ok src tgt nodes0 i st -> writes_ok src tgt nodes0 (S i) st'.
Proof.
  intros Hs Hrow Hturn (Hlen & Hclaims & Hw & Hu).
  pose proof (turn_claims_ok tgt op total i s scores st st' o Hrow Hturn Hclaims)
    as Hclaims'.
  split; [|split; [exact Hclaims'|]].
  { destruct Hturn; simpl; rewrite length_app; simpl; lia. }
  assert (Hskip : forall d o0, is_transferred o0 = false ->
    (forall k t sc s0,
        trace (skip d o0 st) !! k = Some (Transferred t sc) -> src !! k = Some s0 ->
        exists n0, nodes0 !! t = Some n0 /\
                   liveNodes (skip d o0 st) !! t =
                     Some (setCharacters (characters s0) n0)) /\
    (forall t, t ∉ usedIndices (skip d o0 st) ->
               liveNodes (skip d o0 st) !! t = nodes0 !! t)).
  { intros d o0 Ho0. simpl. split; [|done].
    intros k t sc s0 [[_ Hk]|[_ ->]]%lookup_snoc_Some Hs0; [by eapply Hw|done]. }
  destruct Hturn as [| | | | |best n m Hfind Hn Hl He Hm Hmt]; try by apply Hskip.
  apply find_unclaimed in Hfind as [Hin Hfresh]. simpl.
  destruct Hclaims as (_ & Htu & _).
  pose proof (Hu _ Hfresh) as Hn0. rewrite Hn in Hn0.
  split.
  - intros k t sc s0 [[_ Hk]|[-> [= <- _]]]%lookup_snoc_Some Hs0.
    + destruct (Hw k t sc s0 Hk Hs0) as (n0 & Hn0' & Hlive).
      exists n0. split; [done|]. rewrite list_lookup_insert_ne; [done|].
      intros <-. by eapply Hfresh, Htu.
    + rewrite Hlen in Hs0. assert (s0 = s) as -> by congruence.
      exists n. split; [done|]. apply list_lookup_insert_eq. by eapply lookup_lt_Some.
  - intros t Ht. rewrite list_lookup_insert_ne.
    + apply Hu. intros Hin'. apply Ht. by apply elem_of_union_r.
    + intros <-. apply Ht. by apply elem_of_union_l, elem_of_singleton.
Qed.

Lemma resolve_writes_ok (op : bool) :
  writes_ok src tgt nodes0 (length src) (resolve src tgt nodes0 op).
Proof.
  unfold resolve.
  pose proof (processMappings_invariant (writes_ok src tgt nodes0) op
                (length (createScoringMatrix ∅ src tgt))
                (zip src (createScoringMatrix ∅ src tgt)) 0
                (initialMapState nodes0)) as H.
  rewrite rows_length in H. apply H; clear H.
  - unfold writes_ok, claims_ok. simpl. repeat split; done.
  - intros k s scores st o st' Hrow Hok Hturn. simpl in *.
    apply lookup_rows in Hrow as [Hs ->].
    eapply turn_writes_ok; [exact Hs| |exact Hturn|exact Hok].
    intros e He. by eapply row_target_bound.
Qed.

End Writes.

(** C3: no two distinct source indices write into the same target index.
    Every index written names a target item and is in the claimed set;
    the target written for a source item ends with the characters of
    that source item, and a target outside the claimed set ends as it
    began. *)
Theorem C3_assignment_injective (loadFontAsync : FontName -> option string)
    (sourceItems targetItems : list TextItem) (targetNodes : list TextNode)
    (onProgress : bool) :
  mapTextNodes_yields loadFontAsync sourceItems targetItems targetNodes onProgress
    (fun st =>
       (forall i j t sci scj,
           trace st !! i = Some (Transferred t sci) ->
           trace st !! j = Some (Transferred t scj) ->
           i = j /\ t ∈ usedIndices st /\ t < length targetItems) /\
       (forall i t sc s,
           trace st !! i = Some (Transferred t sc) -> sourceItems !! i = Some s ->
           exists n0, targetNodes !! t = Some n0 /\
                      liveNodes st !! t = Some (setCharacters (characters s) n0)) /\
       (forall t, t ∉ usedIndices st -> liveNodes st !! t = targetNodes !! t)).
Proof.
  apply mapTextNodes_yields_intro.
  destruct (resolve_writes_ok sourceItems targetItems targetNodes onProgress)
    as (_ & (Hb & Hu & Hinj & _ & _) & Hw & Hfree).
  split; [|split; [exact Hw|exact Hfree]].
  intros i j t sci scj Hi Hj.
  split; [by eapply Hinj|]. split; [by eapply Hu|]. by eapply Hb, Hu.
Qed.

(** ** Target nodes and the report *)

Section Report.

Variables (src tgt : list TextItem) (nodes0 : list TextNode).

Lemma setCharacters_twice (a b : string) (n : TextNode) :
  setCharacters a (setCharacters b n) = setCharacters a n.
Proof. done. Qed.

Lemma evolves_refl (n : TextNode) : evolves n n.
Proof. exists (nodeCharacters n). by destruct n. Qed.

Lemma turn_nodes_ok (op : bool) (total i : nat) (s : TextItem)
    (scores : list ScoreEntry) (st st' : MapState) (o : Outcome) :
  turn op total i s scores st o st' -> nodes_ok nodes0 st -> nodes_ok nodes0 st'.
Proof.
  intros Hturn [Hev Hlocked].
  destruct Hturn as [| | | | |best n m Hfind Hn Hl He Hm Hmt]; try done.
  split; simpl.
  - destruct (Forall2_lookup_r _ _ _ _ _ Hev Hn) as (n0 & Hn0 & [text ->]).
    rewrite <- (list_insert_id nodes0 (targetIndex best) n0) by done.
    apply Forall2_insert; [done|]. by exists (characters s).
  - intros k nk Hk Hlk. rewrite list_lookup_insert_ne; [by apply Hlocked|].
    intros <-. rewrite (Hlocked _ _ Hk Hlk) in Hn. congruence.
Qed.

(** What the nodes before the transfer tell about a node met during
    it. *)
Lemma nodes_ok_lookup (st : MapState) (t : nat) :
  nodes_ok nodes0 st ->
  match liveNodes st !! t with
  | Some n => exists n0, nodes0 !! t = Some n0 /\ locked n0 = locked n /\
                         writeError n0 = writeError n /\
                         nodeName n0 = nodeName n /\
                         (locked n = true -> n0 = n)
  | None => nodes0 !! t = None
  end.
Proof.
  intros [Hev Hlocked].
  destruct (liveNodes st !! t) as [n|] eqn:Hn.
  - destruct (Forall2_lookup_r _ _ _ _ _ Hev Hn) as (n0 & Hn0 & [text ->]).
    exists n0. repeat split; try done.
    simpl. intros Hl. specialize (Hlocked _ _ Hn0 Hl). congruence.
  - apply lookup_ge_None. apply lookup_ge_None in Hn.
    by rewrite (Forall2_length _ _ _ Hev).
Qed.

Lemma turn_outcome (op : bool) (total i : nat) (s : TextItem)
    (scores : list ScoreEntry) (st st' : MapState) (o : Outcome) :
  turn op total i s scores st o st' ->
  nodes_ok nodes0 st ->
  exists d, trace st' = trace st ++ [o] /\ details st' = details st ++ [d] /\
            reported s nodes0 o d /\ chosen_from scores o.
Proof.
  intros Hturn Hok.
  destruct Hturn as [Hs|Hs Hall|best Hfind Hn|best n Hfind Hn Hl
                     |best n e Hfind Hn Hl He|best n m Hfind Hn Hl He Hm Hmt];
    (eexists; split; [reflexivity|]; split; [reflexivity|]); simpl;
    try (apply find_unclaimed in Hfind as [Hin _]);
    pose proof (nodes_ok_lookup st (targetIndex best) Hok) as Hlk || idtac.
  - done.
  - done.
  - rewrite Hn in Hlk. split; [|eauto]. exists undefinedNodeError. by rewrite Hlk.
  - rewrite Hn in Hlk. destruct Hlk as (n0 & Hn0 & Hl0 & He0 & Hnm & Heq).
    rewrite (Heq Hl) in Hn0. split; eauto.
  - rewrite Hn in Hlk. destruct Hlk as (n0 & Hn0 & Hl0 & He0 & Hnm & Heq).
    split; [|eauto]. exists e. rewrite Hn0. split; [done|]. split; congruence.
  - rewrite Hn in Hlk. destruct Hlk as (n0 & Hn0 & Hl0 & He0 & Hnm & Heq).
    split; [|eauto]. split; [done|]. exists n0. split; [done|]. split; congruence.
Qed.

Lemma resolve_report_ok (op : bool) :
  nodes_ok nodes0 (resolve src tgt nodes0 op) /\
  report_ok src tgt nodes0 (length src) (resolve src tgt nodes0 op).
Proof.
  unfold resolve.
  pose proof (processMappings_invariant
                (fun i st => nodes_ok nodes0 st /\ report_ok src tgt nodes0 i st) op
                (length (createScoringMatrix ∅ src tgt))
                (zip src (createScoringMatrix ∅ src tgt)) 0
                (initialMapState nodes0)) as H.
  rewrite rows_length in H. apply H; clear H.
  - split.
    + split; [|done]. simpl. apply Forall2_same_length_lookup. split; [done|].
      intros k x y Hx Hy. assert (x = y) as -> by congruence. apply evolves_refl.
    + repeat split; try done. intros k s _ Hk. lia.
  - intros k s scores st o st' Hrow [Hnodes (Ht & Hd & Hrep)] Hturn. simpl in *.
    split; [by eapply turn_nodes_ok|].
    apply lookup_rows in Hrow as [Hs ->].
    destruct (turn_outcome _ _ _ _ _ _ _ _ Hturn Hnodes) as (d & Htr & Hde & Hr & Hc).
    unfold report_ok. rewrite Htr, Hde.
    split; [rewrite length_app; simpl; lia|].
    split; [rewrite length_app; simpl; lia|].
    intros k' s' Hs' Hk'. destruct (decide (k' = k)) as [->|Hne].
    + assert (s' = s) as -> by congruence. exists o, d.
      rewrite !lookup_app_r by lia. rewrite Ht, Hd, Nat.sub_diag. done.
    + destruct (Hrep k' s' Hs') as (o' & d' & Ho' & Hd' & Hr'); [lia|].
      exists o', d'. rewrite !lookup_app_l by lia. done.
Qed.

(** The outcome and the report line of every source item. *)
Lemma resolve_report (op : bool) (k : nat) (s : TextItem) :
  src !! k = Some s ->
  exists o d,
    trace (resolve src tgt nodes0 op) !! k = Some o /\
    details (resolve src tgt nodes0 op) !! k = Some d /\
    reported s nodes0 o d /\
    chosen_from (sortScores (candidates ∅ k s tgt)) o.
Proof.
  intros Hs. destruct (resolve_report_ok op) as [_ (_ & _ & H)].
  apply H; [done|]. by eapply lookup_lt_Some.
Qed.

Lemma chosen_from_bound (k : nat) (s : TextItem) (o : Outcome) (t : nat) :
  chosen_from (sortScores (candidates ∅ k s tgt)) o ->
  selected o = Some t -> t < length tgt.
Proof.
  destruct o; simpl; intros Hc [= <-]; try done.
  - destruct Hc as (e & He & <-). by eapply row_target_bound.
  - destruct Hc as (e & He & <-). by eapply row_target_bound.
  - destruct Hc as (e & He & <- & _). by eapply row_target_bound.
Qed.

End Report.

(** ** Progress *)

Section Progress.

Lemma notifications_snoc (total i : nat) (l : list Outcome) (o : Outcome) :
  notifications total i (l ++ [o]) =
  notifications total i l ++
  (if is_transferred o then [percent (i + length l + 1) total] else []).
Proof.
  revert i. induction l as [|x r IH]; intros i; simpl.
  - rewrite Nat.add_0_r. by destruct (is_transferred o).
  - rewrite IH. replace (i + S (length r) + 1) with (S i + length r + 1) by lia.
    by destruct (is_transferred x).
Qed.

Lemma turn_progress_ok (op : bool) (total i : nat) (s : TextItem)
    (scores : list ScoreEntry) (st st' : MapState) (o : Outcome) :
  turn op total i s scores st o st' ->
  progress_ok op total i st -> progress_ok op total (S i) st'.
Proof.
  unfold progress_ok. intros Hturn [Hlen Hp].
  destruct Hturn; simpl; rewrite length_app, notifications_snoc; simpl;
    (split; [lia|]); rewrite Hp; destruct op; rewrite ?app_nil_r, ?Hlen; done.
Qed.

Lemma resolve_progress_ok (src tgt : list TextItem) (nodes : list TextNode) (op : bool) :
  progress_ok op (length src) (length src) (resolve src tgt nodes op).
Proof.
  unfold resolve. rewrite createScoringMatrix_length.
  pose proof (processMappings_invariant (progress_ok op (length src)) op
                (length src) (zip src (createScoringMatrix ∅ src tgt)) 0
                (initialMapState nodes)) as H.
  rewrite rows_length in H. apply H.
  - split; [done|]. by destruct op.
  - intros k s scores st o st' _ Hp Hturn. by eapply turn_progress_ok.
Qed.

End Progress.

(** C4, as stated, fails: the first of two pairs is skipped because its
    target is locked, and the sink hears only of the second pair, not of
    both. *)
Lemma C4_skipped_pair_not_notified :
  exists st,
    mapTextNodes Sample.allFontsLoad Sample.pairItems Sample.pairItems
                 Sample.pairNodesFirstLocked true = ([100%Z], Returned st) /\
    map is_transferred (trace st) = [false; true] /\
    progress st = [100%Z] /\
    progress st <> [percent 1 2; percent 2 2].
Proof. eexists. repeat split; by vm_compute. Qed.

(** C4, amended: the sink, when there is one, is notified after each
    transferred pair [i], and only then, with
    [Math.round(((i + 1) / total) * 100)], in the order of the pairs; a
    skipped pair notifies nothing. *)
Theorem C4_progress_after_transfers (loadFontAsync : FontName -> option string)
    (sourceItems targetItems : list TextItem) (targetNodes : list TextNode)
    (onProgress : bool) :
  mapTextNodes_yields loadFontAsync sourceItems targetItems targetNodes onProgress
    (fun st =>
       progress st =
       if onProgress then notifications (length sourceItems) 0 (trace st) else []).
Proof.
  apply mapTextNodes_yields_intro.
  by destruct (resolve_progress_ok sourceItems targetItems targetNodes onProgress).
Qed.

(** ** Locked targets *)

(** C5, as stated, fails in its second half: a locked target leaf that no
    source leaf selects appears nowhere in the report. *)
Lemma C5_locked_target_not_reported :
  exists st n,
    (mapTextNodes Sample.allFontsLoad Sample.oneItem Sample.pairItems
                  Sample.pairNodesSecondLocked true).2 = Returned st /\
    Sample.pairNodesSecondLocked !! 1 = Some n /\ locked n = true /\
    trace st = [Transferred 0 (3700 # 2)] /\
    details st = [MappedText (3700 # 2) "x"].
Proof. eexists _, _. repeat split; by vm_compute. Qed.

(** C5, amended: a locked target leaf is never mutated (and an unlocked
    one changes at most in its characters); whenever the target that a
    source leaf selects is locked, that source leaf is reported with the
    target-locked reason and skipped. *)
Theorem C5_locked_targets (loadFontAsync : FontName -> option string)
    (sourceItems targetItems : list TextItem) (targetNodes : list TextNode)
    (onProgress : bool) :
  mapTextNodes_yields loadFontAsync sourceItems targetItems targetNodes onProgress
    (fun st =>
       (forall k n, targetNodes !! k = Some n -> locked n = true ->
                    liveNodes st !! k = Some n) /\
       Forall2 evolves targetNodes (liveNodes st) /\
       (forall i s o t n,
           sourceItems !! i = Some s ->
           trace st !! i = Some o ->
           selected o = Some t ->
           targetNodes !! t = Some n -> locked n = true ->
           o = TargetLocked t /\
           details st !! i = Some (LockedLayer (layerName s) (nodeName n)))).
Proof.
  apply mapTextNodes_yields_intro.
  destruct (resolve_report_ok sourceItems targetItems targetNodes onProgress)
    as [[Hev Hlocked] _].
  split; [done|]. split; [done|].
  intros i s o t n Hs Ho Hsel Hn Hl.
  destruct (resolve_report sourceItems targetItems targetNodes onProgress i s Hs)
    as (o' & d & Ho' & Hd & Hrep & _).
  assert (o' = o) as -> by congruence.
  destruct o as [| |t'|t'|t' sc]; simpl in Hsel, Hrep; try done;
    injection Hsel as ->.
  - destruct Hrep as (n' & Hn' & _ & ->).
    assert (n' = n) as -> by congruence. done.
  - destruct Hrep as (e & _ & Hrep). rewrite Hn in Hrep. destruct Hrep; congruence.
  - destruct Hrep as (_ & n' & Hn' & Hl' & _). congruence.
Qed.

(** ** More source leaves than target leaves *)

(** C6, as stated, fails in its second half: two source leaves, one target
    leaf, and that one locked; both source leaves end unmapped with the
    target-locked reason, none with no-candidate or
    all-candidates-claimed. *)
Lemma C6_unmapped_for_other_reasons :
  exists st,
    length Sample.oneItem < length Sample.pairItems /\
    (mapTextNodes Sample.allFontsLoad Sample.pairItems Sample.oneItem
                  Sample.oneNodeLocked true).2 = Returned st /\
    trace st = [TargetLocked 0; TargetLocked 0] /\
    details st = [LockedLayer (Named "A") "A"; LockedLayer (Named "B") "A"] /\
    List.filter no_target_reason (trace st) = [].
Proof. eexists. repeat split; by vm_compute. Qed.

(** C6, amended: at least (source count − target count) source leaves end
    unmapped; each unmapped leaf is reported with one of the reasons
    no-candidate, all-candidates-claimed, target-locked and write-failed;
    and when no target leaf is locked or refuses the write, the reason is
    no-candidate or all-candidates-claimed. *)
Theorem C6_surplus_sources_unmapped (loadFontAsync : FontName -> option string)
    (sourceItems targetItems : list TextItem) (targetNodes : list TextNode)
    (onProgress : bool) :
  mapTextNodes_yields loadFontAsync sourceItems targetItems targetNodes onProgress
    (fun st =>
       length sourceItems - length targetItems <= skipped st /\
       skipped st = length (List.filter (fun o => negb (is_transferred o)) (trace st)) /\
       (forall i o, trace st !! i = Some o -> is_transferred o = false ->
          exists s d, sourceItems !! i = Some s /\ details st !! i = Some d /\
                      reported s targetNodes o d) /\
       ((forall n, n ∈ targetNodes -> locked n = false /\ writeError n = None) ->
        length targetNodes = length targetItems ->
        forall i o, trace st !! i = Some o -> is_transferred o = false ->
                    no_target_reason o = true)).
Proof.
  apply mapTextNodes_yields_intro.
  set (st := resolve sourceItems targetItems targetNodes onProgress).
  destruct (resolve_counted sourceItems targetItems targetNodes onProgress)
    as (Hc & Hd & Ht & Hm).
  pose proof (resolve_mapped_bound targetItems sourceItems targetNodes onProgress) as Hb.
  fold st in Hc, Hd, Ht, Hm, Hb.
  assert (Hrep : forall i o, trace st !! i = Some o ->
            exists s d, sourceItems !! i = Some s /\ details st !! i = Some d /\
                        reported s targetNodes o d /\
                        chosen_from (sortScores (candidates ∅ i s targetItems)) o).
  { intros i o Ho.
    destruct (lookup_lt_is_Some_2 sourceItems i) as [s Hs].
    { rewrite <- Ht. by eapply lookup_lt_Some. }
    destruct (resolve_report sourceItems targetItems targetNodes onProgress i s Hs)
      as (o' & d & Ho' & Hd' & Hr & Hch).
    fold st in Ho', Hd'. assert (o' = o) as -> by congruence. eauto 10. }
  split; [lia|]. split.
  { pose proof (List.filter_length is_transferred (trace st)) as Hf. lia. }
  split.
  { intros i o Ho _. destruct (Hrep i o Ho) as (s & d & ? & ? & ? & _). eauto. }
  intros Hfree Hlen i o Ho Hnt.
  destruct (Hrep i o Ho) as (s & d & Hs & Hdet & Hr & Hch).
  destruct o as [| |t|t|t sc]; simpl in *; try done.
  - destruct Hr as (n & Hn & Hl & _).
    destruct (Hfree n) as [Hl' _]; [by eapply list_elem_of_lookup_2|]. congruence.
  - destruct Hr as (e & _ & Hr).
    destruct (targetNodes !! t) as [n|] eqn:Hn.
    + destruct Hr as [_ He].
      destruct (Hfree n) as [_ He']; [by eapply list_elem_of_lookup_2|]. congruence.
    + apply lookup_ge_None in Hn.
      pose proof (chosen_from_bound targetItems i s (WriteFailed t) t Hch eq_refl).
      lia.
Qed.

Lemma C6_surplus_sources_unmapped_witness :
  mapTextNodes_yields Sample.allFontsLoad Sample.pairItems Sample.oneItem
    Sample.oneNodeLocked true (fun st => 1 <= skipped st).
Proof.
  pose proof (C6_surplus_sources_unmapped Sample.allFontsLoad Sample.pairItems
                Sample.oneItem Sample.oneNodeLocked true) as H.
  unfold mapTextNodes_yields in *.
  destruct (mapTextNodes _ _ _ _ _).2; [|exact H].
  destruct H as [Heq [Hle _]]. split; [exact Heq|exact Hle].
Defined.

(** ** Targets that were selected and not written *)

(** C10: a target that a source leaf selected and did not write, because
    it is locked or the write failed, is not in the claimed set, and the
    source leaf counts as skipped; so several source leaves can select the
    same locked target in turn, and each is reported as skipped although
    another candidate of its row is still unclaimed.  The sample has two
    source leaves whose best candidate is the locked target 0 (scores 525
    and 500) and whose next candidate is the unlocked target 1 (scores
    325 and 300). *)
Theorem C10_skipped_target_stays_selectable :
  (forall (loadFontAsync : FontName -> option string)
          (sourceItems targetItems : list TextItem) (targetNodes : list TextNode)
          (onProgress : bool),
      mapTextNodes_yields loadFontAsync sourceItems targetItems targetNodes onProgress
        (fun st =>
           forall i o t,
             trace st !! i = Some o ->
             o = TargetLocked t \/ o = WriteFailed t ->
             (t ∉ usedIndices st) /\
             is_transferred o = false /\
             exists s e, sourceItems !! i = Some s /\
                         e ∈ sortScores (candidates ∅ i s targetItems) /\
                         targetIndex e = t)) /\
  (exists st,
      (mapTextNodes Sample.allFontsLoad Sample.namedSources Sample.namedTargets
                    Sample.namedNodes true).2 = Returned st /\
      map (map (fun e => (targetIndex e, Qred (score e))))
          (createScoringMatrix ∅ Sample.namedSources Sample.namedTargets) =
        [[(0, 525%Q); (1, 325%Q)]; [(0, 500%Q); (1, 300%Q)]] /\
      trace st = [TargetLocked 0; TargetLocked 0] /\
      details st = [LockedLayer (Named "Title") "Title";
                    LockedLayer (Named "Title") "Title"] /\
      elements (usedIndices st) = [] /\
      mapped st = 0 /\ skipped st = 2 /\
      liveNodes st = Sample.namedNodes).
Proof.
  split.
  2: { eexists. repeat split; by vm_compute. }
  intros lf src tgt nodes op. apply mapTextNodes_yields_intro.
  set (st := resolve src tgt nodes op).
  intros i o t Ho Hcase.
  destruct (resolve_counted src tgt nodes op) as (_ & _ & Ht & _). fold st in Ht.
  destruct (lookup_lt_is_Some_2 src i) as [s Hs].
  { rewrite <- Ht. by eapply lookup_lt_Some. }
  destruct (resolve_report src tgt nodes op i s Hs) as (o' & d & Ho' & _ & Hr & Hch).
  fold st in Ho'. assert (o' = o) as -> by congruence.
  split; [|split].
  - intros Hused.
    destruct (resolve_claims_ok tgt src nodes op) as (_ & _ & _ & _ & Hw).
    destruct (Hw t Hused) as (k & sc & Hk). fold st in Hk.
    destruct (lookup_lt_is_Some_2 src k) as [s' Hs'].
    { rewrite <- Ht. by eapply lookup_lt_Some. }
    destruct (resolve_report src tgt nodes op k s' Hs')
      as (o'' & d' & Ho'' & _ & Hr' & _).
    fold st in Ho''. assert (o'' = Transferred t sc) as -> by congruence.
    destruct Hr' as (_ & n & Hn & Hl & He).
    destruct Hcase as [-> | ->]; simpl in Hr.
    + destruct Hr as (n' & Hn' & Hl' & _). congruence.
    + destruct Hr as (e & _ & Hr). rewrite Hn in Hr. destruct Hr. congruence.
  - by destruct Hcase as [-> | ->].
  - exists s. destruct Hcase as [-> | ->]; destruct Hch as (e & He & Het); eauto.
Qed.

(** ** Structurally identical snapshots *)

Section SameShape.

Variables (src tgt : list TextItem).

(** Same number of leaves and the same paths in traversal order. *)
Hypothesis same_paths : map path src = map path tgt.

(** For every source leaf, the target leaf at the same position scores
    strictly more than every other target leaf. *)
Hypothesis own_path_best :
  forall i j s t t',
    src !! i = Some s -> tgt !! i = Some t -> tgt !! j = Some t' -> i <> j ->
    (pairScore s t' < pairScore s t)%Q.

Lemma same_paths_lookup (i : nat) (s : TextItem) :
  src !! i = Some s -> exists t, tgt !! i = Some t /\ path t = path s.
Proof.
  intros Hs.
  assert (map path tgt !! i = Some (path s)) as Ht.
  { rewrite <- same_paths. change (map path src) with (path <$> src).
    by rewrite list_lookup_fmap, Hs. }
  change (map path tgt) with (path <$> tgt) in Ht.
  rewrite list_lookup_fmap in Ht.
  destruct (tgt !! i) as [t|]; [|done]. injection Ht as Ht. eauto.
Qed.

(** The row of a source leaf starts with the target at its own
    position. *)
Lemma own_path_first (i : nat) (s : TextItem) :
  src !! i = Some s ->
  exists t r, tgt !! i = Some t /\ path t = path s /\
              (1000 <= pairScore s t)%Q /\
              sortScores (candidates ∅ i s tgt) = mkScoreEntry i i (pairScore s t) :: r.
Proof.
  intros Hs. destruct (same_paths_lookup i s Hs) as (t & Ht & Hpath).
  assert (1000 <= pairScore s t)%Q as Hscore.
  { apply pairScore_path_equal. rewrite Hpath. apply path_equal_refl. }
  assert (mkScoreEntry i i (pairScore s t) ∈ candidates ∅ i s tgt) as Hown.
  { apply elem_of_candidates. exists i, t. repeat split; [done|set_solver|lra]. }
  exists t. destruct (sortScores (candidates ∅ i s tgt)) as [|h r] eqn:Hrow.
  { apply elem_of_sortScores in Hown. rewrite Hrow in Hown. by apply elem_of_nil in Hown. }
  exists r. repeat split; try done. f_equal.
  assert (h ∈ candidates ∅ i s tgt) as Hh.
  { apply elem_of_sortScores. rewrite Hrow. left. }
  apply elem_of_candidates in Hh as (j & t' & Ht' & _ & _ & ->).
  pose proof (sortScores_head_max _ _ _ _ Hrow Hown) as Hmax. simpl in Hmax.
  destruct (decide (i = j)) as [<-|Hne].
  - by assert (t' = t) as -> by congruence.
  - pose proof (own_path_best i j s t t' Hs Ht Ht' Hne). lra.
Qed.

Lemma turn_own_target_selected (op : bool) (total k : nat) (s : TextItem)
    (st st' : MapState) (o : Outcome) :
  src !! k = Some s ->
  turn op total k s (sortScores (candidates ∅ k s tgt)) st o st' ->
  own_target_selected k st -> own_target_selected (S k) st'.
Proof.
  intros Hs Hturn (Hused & Hlen & Hsel).
  destruct (own_path_first k s Hs) as (t & r & Ht & Hpath & Hscore & Hrow).
  rewrite Hrow in Hturn.
  assert (k ∉ usedIndices st) as Hfresh.
  { intros Hk%Hused. lia. }
  assert (Hbest : forall best,
    List.find (fun e => negb (bool_decide (targetIndex e ∈ usedIndices st)))
      (mkScoreEntry k k (pairScore s t) :: r) = Some best -> targetIndex best = k).
  { intros best. simpl. rewrite bool_decide_eq_false_2 by done. simpl.
    by intros [= <-]. }
  assert (Hnew : forall d o0, selected o0 = Some k ->
                              own_target_selected (S k) (skip d o0 st)).
  { intros d o0 Ho0. repeat split; simpl.
    - intros t0 Ht0%Hused. lia.
    - rewrite length_app. simpl. lia.
    - intros j o1 [[_ Hj]|[-> <-]]%lookup_snoc_Some; [by apply Hsel|].
      by rewrite Hlen. }
  destruct Hturn as [Hnil|Hne Hall|best Hfind Hn|best n Hfind Hn Hl
                     |best n e Hfind Hn Hl He|best n m Hfind Hn Hl He Hm Hmt];
    try (apply Hbest in Hfind as Hk; rewrite Hk in *).
  - done.
  - exfalso. apply Hfresh. apply (Hall (mkScoreEntry k k (pairScore s t))). left.
  - by apply Hnew.
  - by apply Hnew.
  - by apply Hnew.
  - repeat split; simpl.
    + intros t0 [->%elem_of_singleton|Ht0%Hused]%elem_of_union; lia.
    + rewrite length_app. simpl. lia.
    + intros j o1 [[_ Hj]|[-> <-]]%lookup_snoc_Some; [by apply Hsel|].
      by rewrite Hlen.
Qed.

Lemma resolve_own_target_selected (nodes : list TextNode) (op : bool) :
  own_target_selected (length src) (resolve src tgt nodes op).
Proof.
  unfold resolve.
  pose proof (processMappings_invariant own_target_selected op
                (length (createScoringMatrix ∅ src tgt))
                (zip src (createScoringMatrix ∅ src tgt)) 0
                (initialMapState nodes)) as H.
  rewrite rows_length in H. apply H; clear H.
  - repeat split; simpl; [set_solver|done].
  - intros k s scores st o st' Hrow Hinv Hturn. simpl in *.
    apply lookup_rows in Hrow as [Hs ->].
    by eapply turn_own_target_selected.
Qed.

Lemma same_shape_resolution (nodes : list TextNode) (op : bool) (i : nat) (s : TextItem) :
  src !! i = Some s ->
  exists t o,
    tgt !! i = Some t /\ path t = path s /\
    trace (resolve src tgt nodes op) !! i = Some o /\
    selected o = Some i /\
    (forall j sc, o = Transferred j sc ->
       sc = pairScore s t /\ (1000 <= sc)%Q /\
       details (resolve src tgt nodes op) !! i =
         Some (MappedText sc (Js.substring0 30 (characters s)))) /\
    (forall n, nodes !! i = Some n -> locked n = false -> writeError n = None ->
               o = Transferred i (pairScore s t)).
Proof.
  intros Hs.
  destruct (own_path_first i s Hs) as (t & r & Ht & Hpath & Hscore & Hrow).
  destruct (resolve_report src tgt nodes op i s Hs) as (o & d & Ho & Hd & Hr & Hch).
  destruct (resolve_own_target_selected nodes op) as (_ & _ & Hsel).
  specialize (Hsel i o Ho).
  assert (Hsc : forall j sc, o = Transferred j sc -> sc = pairScore s t).
  { intros j sc ->. simpl in Hch, Hsel. injection Hsel as ->.
    destruct Hch as (m & Hm & Hmt & <-).
    apply elem_of_sortScores, elem_of_candidates in Hm
      as (j & t' & Ht' & _ & _ & ->).
    simpl in Hmt. subst j. by assert (t' = t) as -> by congruence. }
  exists t, o. do 4 (split; [done|]). split.
  - intros j sc Heq. pose proof (Hsc j sc Heq) as ->.
    do 2 (split; [done|]). subst o. simpl in Hr. by destruct Hr as [-> _].
  - intros n Hn Hl He.
    destruct o as [| |t0|t0|t0 sc]; simpl in Hsel, Hr; try done;
      injection Hsel as ->.
    + destruct Hr as (n' & Hn' & Hl' & _). congruence.
    + destruct Hr as (e & _ & Hr). rewrite Hn in Hr. destruct Hr; congruence.
    + by rewrite (Hsc i sc eq_refl).
Qed.

End SameShape.

(** Distinct paths and weak other signals are enough for the target at
    the same position to score best. *)
Lemma own_path_best_from_signals (src tgt : list TextItem) :
  map path src = map path tgt ->
  NoDup (map path tgt) ->
  (forall i j s t', src !! i = Some s -> tgt !! j = Some t' -> i <> j ->
                    (lowerSignals s t' <= 950)%Q) ->
  forall i j s t t',
    src !! i = Some s -> tgt !! i = Some t -> tgt !! j = Some t' -> i <> j ->
    (pairScore s t' < pairScore s t)%Q.
Proof.
  intros Hshape Hnodup Hlow i j s t t' Hs Ht Ht' Hne.
  destruct (same_paths_lookup src tgt Hshape i s Hs) as (t0 & Ht0 & Hpath).
  assert (t0 = t) as -> by congruence.
  assert (path_equal (path s) (path t) = true) as Heq.
  { rewrite Hpath. apply path_equal_refl. }
  assert (path_equal (path s) (path t') = false) as Hdiff.
  { destruct (path_equal (path s) (path t')) eqn:E; [|done].
    apply path_equal_spec in E. exfalso. apply Hne.
    eapply (NoDup_lookup (map path tgt)); [done| |].
    - change (map path tgt) with (path <$> tgt). by rewrite list_lookup_fmap, Ht.
    - change (map path tgt) with (path <$> tgt).
      rewrite list_lookup_fmap, Ht'. simpl. congruence. }
  pose proof (pairScore_path_equal s t Heq).
  pose proof (pairScore_path_differs s t' Hdiff).
  pose proof (Hlow i j s t' Hs Ht' Hne). lra.
Qed.

(** C1, as stated, fails: the two snapshots have the same paths, [0] and
    [1], yet the source leaf at [0] is assigned to the target leaf at [1],
    which shares its name, font and text style (score 1100 against 1050),
    and the source leaf at [1] is left with the target leaf at [0], with
    score 300. *)
Lemma C1_same_shape_misassigned :
  map path Sample.sameShapeSources = map path Sample.sameShapeTargets /\
  exists st,
    (mapTextNodes Sample.allFontsLoad Sample.sameShapeSources Sample.sameShapeTargets
                  Sample.sameShapeNodes true).2 = Returned st /\
    trace st = [Transferred 1 1100; Transferred 0 300] /\
    details st = [MappedText 1100 "Hello"; MappedText 300 "Text"].
Proof. split; [done|]. eexists. repeat split; by vm_compute. Qed.

(** C1, amended: for two snapshots with the same paths in which, for every
    source leaf, the target leaf at the same position scores strictly more
    than every other target leaf, the resolution selects for every source
    leaf the target leaf with its path; the pair is transferred when that
    target is unlocked and accepts the write, and a transferred pair is
    recorded with its score, which is at least 1000. *)
Theorem C1_same_shape_assignment (loadFontAsync : FontName -> option string)
    (sourceItems targetItems : list TextItem) (targetNodes : list TextNode)
    (onProgress : bool) :
  map path sourceItems = map path targetItems ->
  (forall i j s t t',
      sourceItems !! i = Some s -> targetItems !! i = Some t ->
      targetItems !! j = Some t' -> i <> j ->
      (pairScore s t' < pairScore s t)%Q) ->
  mapTextNodes_yields loadFontAsync sourceItems targetItems targetNodes onProgress
    (fun st =>
       forall i s, sourceItems !! i = Some s ->
         exists t o,
           targetItems !! i = Some t /\ path t = path s /\
           trace st !! i = Some o /\
           selected o = Some i /\
           (forall j sc, o = Transferred j sc ->
              sc = pairScore s t /\ (1000 <= sc)%Q /\
              details st !! i = Some (MappedText sc (Js.substring0 30 (characters s)))) /\
           (forall n, targetNodes !! i = Some n -> locked n = false ->
                      writeError n = None -> o = Transferred i (pairScore s t))).
Proof.
  intros Hshape Hbest. apply mapTextNodes_yields_intro. intros i s Hs.
  by apply same_shape_resolution.
Qed.

Lemma C1_same_shape_assignment_witness :
  mapTextNodes_yields Sample.allFontsLoad Sample.pairItems Sample.pairItems
    Sample.pairNodesFirstLocked true
    (fun st =>
       forall i s, Sample.pairItems !! i = Some s ->
         exists t o,
           Sample.pairItems !! i = Some t /\ path t = path s /\
           trace st !! i = Some o /\
           selected o = Some i /\
           (forall j sc, o = Transferred j sc ->
              sc = pairScore s t /\ (1000 <= sc)%Q /\
              details st !! i = Some (MappedText sc (Js.substring0 30 (characters s)))) /\
           (forall n, Sample.pairNodesFirstLocked !! i = Some n -> locked n = false ->
                      writeError n = None -> o = Transferred i (pairScore s t))).
Proof.
  apply (C1_same_shape_assignment Sample.allFontsLoad Sample.pairItems
           Sample.pairItems Sample.pairNodesFirstLocked true).
  - reflexivity.
  - intros [|[|i]] [|[|j]] s t t' Hs Ht Ht' Hne; simpl in Hs, Ht, Ht';
      try discriminate; try (exfalso; apply Hne; reflexivity);
      injection Hs as <-; injection Ht as <-; injection Ht' as <-;
      vm_compute; reflexivity.
Defined.

(** ** Indexer *)

Section Indexer.

Lemma SceneNode_ind' (P : SceneNode -> Prop) :
  (forall t, P (TextLeaf t)) ->
  (forall type id name children, Forall P children ->
                                 P (Container type id name children)) ->
  (forall name, P (Shape name)) ->
  forall n, P n.
Proof.
  intros Htext Hcont Hshape. fix IH 1.
  intros [t|type id name children|name]; [apply Htext| |apply Hshape].
  apply Hcont. induction children as [|k ks IHks]; constructor; [apply IH|exact IHks].
Qed.

Lemma leaves_container (p : list nat) (type : NodeType) (id name : string)
    (children : list SceneNode) :
  leaves p (Container type id name children) = leaves_from p 0 children.
Proof.
  simpl. generalize 0.
  induction children as [|k ks IH]; intros i; [done|]. by rewrite IH.
Qed.

(** Pushing the children from the last to the first leaves them on the
    stack from the first to the last. *)
Lemma push_children_imap (stack : list StackEntry) (p : list nat) (depth : nat)
    (children : list SceneNode) :
  push_children stack p depth children =
  imap (fun i child => (child, p ++ [i], S depth)) children ++ stack.
Proof.
  unfold push_children. revert stack.
  induction children as [|x l IH] using rev_ind; intros stack; [done|].
  rewrite length_app. simpl length.
  rewrite Nat.add_1_r, seq_S, reverse_app. simpl.
  rewrite lookup_app_r, Nat.sub_diag by lia. simpl.
  rewrite imap_app. simpl. rewrite Nat.add_0_r, <- app_assoc. simpl.
  rewrite <- IH. clear IH.
  generalize ((x, p ++ [length l], S depth) :: stack).
  assert (Hin : Forall (fun i => i < length l) (reverse (seq 0 (length l)))).
  { apply Forall_forall. intros i Hi%elem_of_reverse%elem_of_seq. lia. }
  induction Hin as [|i ixs Hi _ IHixs]; intros stk; [done|].
  simpl. rewrite lookup_app_l by done. apply IHixs.
Qed.

Lemma stack_leaves_children (p : list nat) (depth i : nat) (children : list SceneNode) :
  stack_leaves (imap (fun k child => (child, p ++ [i + k], S depth)) children) =
  leaves_from p i children.
Proof.
  revert i. induction children as [|c cs IH]; intros i; [done|].
  unfold stack_leaves in *. simpl. rewrite Nat.add_0_r. f_equal.
  rewrite <- (IH (S i)). do 2 f_equal. apply imap_ext. intros k x _. simpl.
  by rewrite Nat.add_succ_r.
Qed.

Lemma stack_leaves_cons (e : StackEntry) (stack : list StackEntry) :
  stack_leaves (e :: stack) = leaves e.1.2 e.1.1 ++ stack_leaves stack.
Proof. done. Qed.

Lemma stack_leaves_push (stack : list StackEntry) (p : list nat) (depth : nat)
    (children : list SceneNode) :
  stack_leaves (push_children stack p depth children) =
  leaves_from p 0 children ++ stack_leaves stack.
Proof.
  rewrite push_children_imap. unfold stack_leaves at 1.
  rewrite map_app, concat_app. f_equal.
  apply (stack_leaves_children p depth 0).
Qed.

Lemma leaves_node (node : SceneNode) (p : list nat) :
  leaves p node =
  match node with
  | TextLeaf t => [(p, t)]
  | _ => []
  end ++ leaves_from p 0 (children_of node).
Proof.
  destruct node as [t|type id name children|name]; [done| |done].
  by rewrite leaves_container.
Qed.

Lemma tree_size_node (node : SceneNode) :
  tree_size node = S (list_sum (map tree_size (children_of node))).
Proof. by destruct node. Qed.

(** The loop appends to the state the leaves below the stack, in order,
    and counts every node below it. *)
Lemma index_loop_spec (stack : list StackEntry) (st : IndexState) :
  ix_items (index_loop stack st) =
    ix_items st ++ map (fun pt => textItemOf pt.1 pt.2) (stack_leaves stack) /\
  ix_nodes (index_loop stack st) = ix_nodes st ++ map snd (stack_leaves stack) /\
  ix_layerNames (index_loop stack st) =
    ix_layerNames st ++ map (fun pt => nodeName pt.2) (stack_leaves stack) /\
  ix_nodeCount (index_loop stack st) = ix_nodeCount st + stack_size stack.
Proof.
  remember (stack_size stack) as m eqn:Hm. revert stack st Hm.
  induction m as [m IH] using lt_wf_ind. intros stack st Hm.
  destruct stack as [|[[node p] depth] stack']; simp index_loop.
  - unfold stack_leaves. simpl. rewrite !app_nil_r. subst m. auto with lia.
  - assert (m = S (stack_size (push_children stack' p depth (children_of node))))
      as Hsize.
    { rewrite Hm, push_children_size. unfold stack_size. simpl.
      rewrite tree_size_node. lia. }
    assert (stack_size (push_children stack' p depth (children_of node)) < m)
      as Hlt by lia.
    destruct (IH _ Hlt _ (visit node p depth st) eq_refl) as (Hi & Hn & Hl & Hc).
    rewrite Hi, Hn, Hl, Hc, stack_leaves_push. clear Hi Hn Hl Hc.
    rewrite !stack_leaves_cons. simpl.
    rewrite (leaves_node node p), Hsize.
    destruct node as [t|type id name children|name]; simpl;
      rewrite <- ?app_assoc; simpl; auto with lia.
Qed.

Lemma elem_of_leaves_from (p : list nat) (i : nat) (ks : list SceneNode)
    (x : list nat * TextNode) :
  x ∈ leaves_from p i ks <->
  exists k c, ks !! k = Some c /\ x ∈ leaves (p ++ [i + k]) c.
Proof.
  revert i. induction ks as [|c cs IH]; intros i; simpl.
  - split; [by intros ?%elem_of_nil|]. by intros (k & c & ? & _).
  - rewrite elem_of_app, IH. split.
    + intros [Hx|(k & c' & Hk & Hx)].
      * exists 0, c. by rewrite Nat.add_0_r.
      * exists (S k), c'. by rewrite <- Nat.add_succ_comm.
    + intros ([|k] & c' & Hk & Hx); simpl in Hk.
      * injection Hk as <-. left. by rewrite Nat.add_0_r in Hx.
      * right. exists k, c'. by rewrite Nat.add_succ_comm.
Qed.

(** The path of a leaf leads from the root of the traversal to it. *)
Lemma leaves_walk (n : SceneNode) :
  forall p q t, (q, t) ∈ leaves p n ->
                exists r, q = p ++ r /\ walk n r = Some (TextLeaf t).
Proof.
  induction n as [t0|type id name children IH|name] using SceneNode_ind';
    intros p q t Hin.
  - apply list_elem_of_singleton in Hin as [= -> ->]. exists []. by rewrite app_nil_r.
  - rewrite leaves_container in Hin.
    apply elem_of_leaves_from in Hin as (k & c & Hk & Hin). simpl in Hin.
    eapply Forall_lookup_1 in IH; [|exact Hk].
    destruct (IH _ _ _ Hin) as (r & -> & Hwalk).
    exists (k :: r). rewrite <- app_assoc. split; [done|]. simpl. by rewrite Hk.
  - by apply elem_of_nil in Hin.
Qed.

Lemma leaves_length (n : SceneNode) :
  forall p, length (leaves p n) = count_text n.
Proof.
  induction n as [t0|type id name children IH|name] using SceneNode_ind';
    intros p; [done| |done].
  rewrite leaves_container. simpl. generalize 0.
  induction IH as [|c cs Hc _ IHcs]; intros i; simpl; [done|].
  by rewrite length_app, Hc, IHcs.
Qed.

Lemma leaves_paths_distinct (n : SceneNode) :
  forall p, NoDup (map fst (leaves p n)).
Proof.
  induction n as [t0|type id name children IH|name] using SceneNode_ind';
    intros p; [simpl; apply NoDup_singleton| |constructor].
  rewrite leaves_container. generalize 0.
  induction IH as [|c cs Hc Hcs IHcs]; intros i; simpl; [constructor|].
  rewrite map_app. apply NoDup_app. split; [apply Hc|]. split; [|apply IHcs].
  intros q Hq1 Hq2.
  apply list_elem_of_fmap in Hq1 as ([q1 t1] & -> & Hin1).
  apply list_elem_of_fmap in Hq2 as ([q2 t2] & Heq & Hin2). simpl in Heq.
  apply leaves_walk in Hin1 as (r1 & -> & _).
  apply elem_of_leaves_from in Hin2 as (k & c' & _ & Hin2).
  apply leaves_walk in Hin2 as (r2 & -> & _).
  rewrite <- !app_assoc in Heq. apply app_inv_head in Heq.
  simpl in Heq. injection Heq as Heq _. lia.
Qed.

End Indexer.

Lemma findNodeAtPath_walk (frame : SceneNode) (p : list nat) :
  findNodeAtPath frame p = walk frame p.
Proof. by destruct p. Qed.

Lemma indexTextNodes_leaves (frameNode : SceneNode) :
  r_items (indexTextNodes frameNode) =
    map (fun pt => textItemOf pt.1 pt.2) (leaves [] frameNode) /\
  r_nodes (indexTextNodes frameNode) = map snd (leaves [] frameNode) /\
  nodeCount (r_structure (indexTextNodes frameNode)) = tree_size frameNode.
Proof.
  unfold indexTextNodes. simpl.
  destruct (index_loop_spec [(frameNode, [], 0)] (mkIndexState [] [] [] 0 0))
    as (Hi & Hn & _ & Hc).
  rewrite Hi, Hn, Hc. unfold stack_leaves, stack_size. simpl.
  rewrite app_nil_r. repeat split. lia.
Qed.

(** C8: the snapshot of a subtree lists its text-bearing nodes in natural
    depth-first order, children from left to right, each with the path of
    child positions that leads to it from the root, whose own path is
    empty; so the leaf count is the number of text-bearing nodes, the
    paths are pairwise distinct, and each path leads to the leaf it was
    given to. *)
Theorem C8_indexer_snapshot (frameNode : SceneNode) :
  let snapshot := indexTextNodes frameNode in
  r_items snapshot = map (fun pt => textItemOf pt.1 pt.2) (leaves [] frameNode) /\
  r_nodes snapshot = map snd (leaves [] frameNode) /\
  length (r_items snapshot) = count_text frameNode /\
  textNodeCount (r_structure snapshot) = count_text frameNode /\
  nodeCount (r_structure snapshot) = tree_size frameNode /\
  NoDup (map path (r_items snapshot)) /\
  (forall i item, r_items snapshot !! i = Some item ->
     exists t, r_nodes snapshot !! i = Some t /\
               item = textItemOf (path item) t /\
               findNodeAtPath frameNode (path item) = Some (TextLeaf t)) /\
  findNodeAtPath frameNode [] = Some frameNode.
Proof.
  destruct (indexTextNodes_leaves frameNode) as (Hi & Hn & Hc).
  assert (length (r_items (indexTextNodes frameNode)) = count_text frameNode) as Hlen.
  { rewrite Hi, length_map. apply leaves_length. }
  cbv zeta.
  split; [exact Hi|]. split; [exact Hn|]. split; [exact Hlen|].
  split; [exact Hlen|]. split; [exact Hc|]. split; [|split; [|done]].
  - rewrite Hi, map_map. simpl. apply leaves_paths_distinct.
  - intros i item Hitem. rewrite Hi in Hitem. rewrite Hn.
    change (map ?f ?l) with (f <$> l) in *.
    rewrite list_lookup_fmap in Hitem. rewrite list_lookup_fmap.
    destruct (leaves [] frameNode !! i) as [[q t]|] eqn:Hq; [|done].
    injection Hitem as <-. simpl. exists t. repeat split.
    apply list_elem_of_lookup_2, leaves_walk in Hq as (r & -> & Hwalk).
    by rewrite findNodeAtPath_walk.
Qed.

(** ** Clearing the payload *)

Section Clear.

Lemma handleClear_returned (w w1 : World) :
  handleClear w = (w1, Returned tt) ->
  copyPayload w1 = None /\ clientStorage w1 = None /\
  selection w1 = selection w /\ getAsyncError w1 = getAsyncError w /\
  posted w1 = posted w ++ [CLEAR_SUCCESS].
Proof.
  unfold handleClear, setAsync. simpl.
  destruct (setAsyncError w); [done|]. by intros [= <-].
Qed.

Lemma currentPayload_cleared (w : World) :
  copyPayload w = None -> clientStorage w = None -> currentPayload w = None.
Proof.
  unfold currentPayload. intros -> ->. by destruct (getAsyncError w).
Qed.

(** A paste that throws leaves the world as it was. *)
Lemma handlePaste_no_payload (w : World) :
  currentPayload w = None ->
  handlePaste w =
  (w, Threw match validateSingleFrameSelection w with
            | Returned _ => noPayloadError
            | Threw e => e
            end).
Proof.
  intros Hnone. unfold handlePaste.
  destruct (validateSingleFrameSelection w); [|done]. by rewrite Hnone.
Qed.

End Clear.

(** C7, as stated, fails: after a clear, a paste attempted while nothing
    is selected raises the selection error, not the no-payload error. *)
Lemma C7_paste_without_selection :
  let w := Sample.worldAfterCopy [] in
  exists w1,
    handleClear w = (w1, Returned tt) /\
    handlePaste w1 = (w1, Threw noneSelectedError) /\
    noneSelectedError <> noPayloadError.
Proof. eexists. repeat split; by vm_compute. Qed.

(** C7, amended: after a clear that succeeded, the global payload and the
    store are empty, and a paste attempt throws and changes nothing: with
    exactly one frame selected it throws the no-payload error, whose
    message the handler of the request posts to the panel; with any other
    selection it throws the selection error. *)
Theorem C7_paste_after_clear (w w1 : World) :
  handleClear w = (w1, Returned tt) ->
  copyPayload w1 = None /\ clientStorage w1 = None /\
  (forall frame,
      validateSingleFrameSelection w1 = Returned frame ->
      handlePaste w1 = (w1, Threw noPayloadError) /\
      noPayloadError = "No text copied. Please copy text from a frame first." /\
      onmessage PASTE w1 = post [ERROR noPayloadError] w1) /\
  (forall e,
      validateSingleFrameSelection w1 = Threw e ->
      handlePaste w1 = (w1, Threw e)) /\
  selection (handlePaste w1).1 = selection w1.
Proof.
  intros Hclear.
  destruct (handleClear_returned w w1 Hclear) as (Hp & Hs & _).
  pose proof (handlePaste_no_payload w1 (currentPayload_cleared w1 Hp Hs)) as Hpaste.
  split; [done|]. split; [done|]. split; [|split].
  - intros frame Hsel. rewrite Hsel in Hpaste. split; [done|]. split; [done|].
    unfold onmessage. by rewrite Hpaste.
  - intros e Hsel. by rewrite Hsel in Hpaste.
  - by rewrite Hpaste.
Qed.

Lemma C7_paste_after_clear_witness :
  exists w1,
    handleClear (Sample.worldAfterCopy [Sample.card]) = (w1, Returned tt) /\
    handlePaste w1 = (w1, Threw noPayloadError).
Proof.
  eexists. split; [reflexivity|].
  destruct (C7_paste_after_clear (Sample.worldAfterCopy [Sample.card]) _ eq_refl)
    as (_ & _ & Hframe & _).
  exact (proj1 (Hframe Sample.card eq_refl)).
Defined.

(** ** Writing the nodes back into the tree *)

Section Rebuild.

Lemma rebuild_container (type : NodeType) (id name : string)
    (children : list SceneNode) (ts : list TextNode) :
  rebuild (Container type id name children) ts =
  (Container type id name (rebuild_all children ts).1, (rebuild_all children ts).2).
Proof.
  simpl.
  assert (forall ks ts0,
    (fix go (ks : list SceneNode) (ts : list TextNode) :=
       match ks with
       | [] => ([], ts)
       | k :: ks' =>
           let '(k', r1) := rebuild k ts in
           let '(ks'', r2) := go ks' r1 in (k' :: ks'', r2)
       end) ks ts0 = rebuild_all ks ts0) as ->.
  { induction ks as [|k ks IH]; intros ts0; simpl; [done|].
    destruct (rebuild k ts0) as [k' r1]. by rewrite IH. }
  by destruct (rebuild_all children ts).
Qed.

(** Writing back the nodes that the traversal found changes nothing. *)
Lemma rebuild_same (n : SceneNode) :
  forall p r, rebuild n (map snd (leaves p n) ++ r) = (n, r).
Proof.
  induction n as [t0|type id name children IH|name] using SceneNode_ind';
    intros p r; [done| |done].
  rewrite rebuild_container, leaves_container.
  assert (forall i, rebuild_all children (map snd (leaves_from p i children) ++ r) =
                    (children, r)) as ->; [|done].
  induction IH as [|c cs Hc _ IHcs]; intros i; simpl; [done|].
  by rewrite map_app, <- app_assoc, Hc, IHcs.
Qed.

(** After writing back, the traversal finds the nodes written, at the
    same paths. *)
Lemma leaves_rebuild (n : SceneNode) :
  forall p ts r,
    length ts = count_text n ->
    (rebuild n (ts ++ r)).2 = r /\
    map fst (leaves p (rebuild n (ts ++ r)).1) = map fst (leaves p n) /\
    map snd (leaves p (rebuild n (ts ++ r)).1) = ts.
Proof.
  induction n as [t0|type id name children IH|name] using SceneNode_ind';
    intros p ts r Hlen.
  - destruct ts as [|t [|? ?]]; simpl in *; done.
  - rewrite rebuild_container. simpl fst. simpl snd. rewrite !leaves_container.
    simpl in Hlen. generalize 0. revert ts r Hlen.
    induction IH as [|c cs Hc _ IHcs]; intros ts r Hlen i; simpl in *.
    { by destruct ts. }
    assert (ts = take (count_text c) ts ++ drop (count_text c) ts) as Hts
      by (by rewrite take_drop).
    assert (length (take (count_text c) ts) = count_text c) as Hl1.
    { rewrite length_take. lia. }
    assert (length (drop (count_text c) ts) = list_sum (map count_text cs)) as Hl2.
    { rewrite length_drop. lia. }
    rewrite Hts at 1 2 3. rewrite <- app_assoc.
    destruct (Hc (p ++ [i]) (take (count_text c) ts)
                 (drop (count_text c) ts ++ r) Hl1) as (H2 & Hf & Hs).
    destruct (rebuild c (take (count_text c) ts ++ drop (count_text c) ts ++ r))
      as [c' r1] eqn:Hreb. simpl in H2, Hf, Hs. subst r1.
    destruct (IHcs (drop (count_text c) ts) r Hl2 (S i)) as (H2' & Hf' & Hs').
    destruct (rebuild_all cs (drop (count_text c) ts ++ r)) as [cs' r2] eqn:Hreb'.
    simpl in *. subst r2. rewrite !map_app, Hf, Hs, Hf', Hs'.
    split; [done|]. split; [done|]. by rewrite take_drop.
  - destruct ts; simpl in *; done.
Qed.

End Rebuild.

(** ** A copy and a paste, end to end *)

(** One leaf at path [0] with content "Hello" pasted onto one leaf at
    path [0] with content "World": the target then reads "Hello", and the
    report counts one transferred and none skipped. *)
Example paste_one_leaf :
  let source := Container FRAME "1:1" "Source" [TextLeaf (Sample.node "a" "Hello" false)] in
  let target := Container FRAME "2:1" "Target" [TextLeaf (Sample.node "b" "World" false)] in
  let w0 := {| selection := [source]; copyPayload := None; clientStorage := None;
               setAsyncError := None; getAsyncError := None;
               loadFontAsync := Sample.allFontsLoad; now := 0; posted := [] |} in
  let w1 := (handleCopy w0).1 in
  let w2 := (handlePaste (setSelection [target] w1)).1 in
  map path (items (default Sample.cardPayload (copyPayload w1))) = [[0]] /\
  selection w2 =
    [Container FRAME "2:1" "Target" [TextLeaf (Sample.node "b" "Hello" false)]] /\
  last (posted w2) = Some (PASTE_SUCCESS 1 0 1 [MappedText 1350 "Hello"]).
Proof. repeat split; by vm_compute. Qed.

(** A larger frame with a locked leaf: the locked leaf keeps its text and
    its turn notifies nothing. *)
Example paste_with_locked_leaf :
  let source :=
    Container FRAME "1:1" "Source"
      [Shape "bg"; TextLeaf (Sample.node "Title" "Hello" false);
       Container GROUP "1:3" "g" [TextLeaf (Sample.node "Body" "Lorem" false)]] in
  let target :=
    Container FRAME "2:1" "Target"
      [Shape "bg"; TextLeaf (Sample.node "Title" "World" false);
       Container GROUP "2:3" "g" [TextLeaf (Sample.node "Body" "ipsum" true)]] in
  let w0 := {| selection := [source]; copyPayload := None; clientStorage := None;
               setAsyncError := None; getAsyncError := None;
               loadFontAsync := Sample.allFontsLoad; now := 0; posted := [] |} in
  let w2 := (handlePaste (setSelection [target] (handleCopy w0).1)).1 in
  selection w2 =
    [Container FRAME "2:1" "Target"
       [Shape "bg"; TextLeaf (Sample.node "Title" "Hello" false);
        Container GROUP "2:3" "g" [TextLeaf (Sample.node "Body" "ipsum" true)]]] /\
  posted w2 =
    [COPY_SUCCESS "Source" 2
       {| nodeCount := 5; textNodeCount := 2; maxDepth := 2;
          layerNames := ["Title"; "Body"] |};
     PROGRESS 100; PROGRESS 50;
     PASTE_SUCCESS 1 1 2 [MappedText 1850 "Hello"; LockedLayer (Named "Body") "Body"]].
Proof. repeat split; by vm_compute. Qed.

(** * Further properties of the code *)

(** ** Path similarity *)

Section PathSimilarity.

Lemma common_prefix_sym (p1 p2 : list nat) :
  common_prefix p1 p2 = common_prefix p2 p1.
Proof.
  revert p2. induction p1 as [|a r1 IH]; intros [|b r2]; simpl; try done.
  rewrite (Nat.eqb_sym b a). destruct (a =? b); [by rewrite IH|done].
Qed.

Lemma common_prefix_zero (p1 p2 : list nat) :
  common_prefix p1 p2 = 0 <-> p1 = [] \/ p2 = [] \/ head p1 <> head p2.
Proof.
  destruct p1 as [|a r1], p2 as [|b r2]; simpl; try (split; [auto|done]).
  destruct (a =? b) eqn:E.
  - apply Nat.eqb_eq in E as ->. split; [done|]. intros [?|[?|?]]; done.
  - apply Nat.eqb_neq in E. split; [|done]. intros _. right. right. congruence.
Qed.

Lemma Q_of_nat_pos (n : nat) : n <> 0 -> (0 < inject_Z (Z.of_nat n))%Q.
Proof.
  intros Hn. replace 0%Q with (inject_Z 0) by done. rewrite <- Zlt_Qlt. lia.
Qed.

Lemma calculatePathSimilarity_same (p : list nat) :
  p <> [] -> (calculatePathSimilarity p p == 1)%Q.
Proof.
  intros Hp. unfold calculatePathSimilarity.
  assert (length p <> 0) as Hlen by (by destruct p).
  destruct (length p =? 0) eqn:E; [by apply Nat.eqb_eq in E|]. simpl.
  rewrite common_prefix_refl, Nat.max_id.
  pose proof (Q_of_nat_pos _ Hlen) as Hpos. field.
  intros Heq. rewrite Heq in Hpos. by apply Qlt_irrefl in Hpos.
Qed.

Lemma calculatePathSimilarity_zero (p1 p2 : list nat) :
  (calculatePathSimilarity p1 p2 == 0)%Q <->
  p1 = [] \/ p2 = [] \/ head p1 <> head p2.
Proof.
  unfold calculatePathSimilarity.
  destruct p1 as [|a r1]; [split; [auto|done]|].
  destruct p2 as [|b r2]; [split; [auto|done]|].
  cbn [length Nat.eqb orb].
  rewrite <- common_prefix_zero.
  set (k := common_prefix (a :: r1) (b :: r2)).
  set (m := Nat.max (length (a :: r1)) (length (b :: r2))).
  assert (0 < inject_Z (Z.of_nat m))%Q as Hm.
  { apply Q_of_nat_pos. unfold m. simpl. lia. }
  split.
  - intros H0. destruct (decide (k = 0)) as [|Hk]; [done|]. exfalso.
    pose proof (Q_of_nat_pos k Hk) as Hkpos.
    assert (0 < inject_Z (Z.of_nat k) / inject_Z (Z.of_nat m))%Q as Hpos.
    { apply Qlt_shift_div_l; [done|]. lra. }
    apply Qlt_not_eq in Hpos. apply Hpos. symmetry. exact H0.
  - intros ->. simpl. unfold Qdiv. by rewrite Qmult_0_l.
Qed.

End PathSimilarity.

(** X1: [calculatePathSimilarity] is symmetric and lies between 0 and 1;
    it is 1 exactly for two equal non-empty paths, and 0 exactly when a
    path is empty or the two paths start with different indices (so the
    root path [[]] is similar to nothing, not even to itself). *)
Theorem X1_path_similarity (path1 path2 : list nat) :
  (0 <= calculatePathSimilarity path1 path2 <= 1)%Q /\
  calculatePathSimilarity path1 path2 = calculatePathSimilarity path2 path1 /\
  ((calculatePathSimilarity path1 path2 == 1)%Q <-> path1 = path2 /\ path1 <> []) /\
  ((calculatePathSimilarity path1 path2 == 0)%Q <->
   path1 = [] \/ path2 = [] \/ head path1 <> head path2).
Proof.
  split; [split; [apply calculatePathSimilarity_nonneg|apply calculatePathSimilarity_le_1]|].
  split.
  { unfold calculatePathSimilarity.
    by rewrite (orb_comm (length path1 =? 0)), common_prefix_sym, Nat.max_comm. }
  split; [|apply calculatePathSimilarity_zero].
  split.
  - intros H1. destruct (decide (path1 = path2)) as [->|Hne].
    + split; [done|]. intros ->. by vm_compute in H1.
    + pose proof (calculatePathSimilarity_lt_1 _ _ Hne). lra.
  - intros [<- Hne]. by apply calculatePathSimilarity_same.
Qed.

(** ** Paths and the nodes they lead to *)

Section PathLookup.

Lemma walk_app (n : SceneNode) (p q : list nat) :
  walk n (p ++ q) = walk n p ≫= fun m => walk m q.
Proof.
  revert n. induction p as [|k p IH]; intros n; simpl; [done|].
  destruct n as [t|type id name children|name]; try done.
  destruct (children !! k); [apply IH|done].
Qed.

(** A path that leads to a text node is the path the traversal gives
    it. *)
Lemma walk_leaves (r : list nat) :
  forall n p t, walk n r = Some (TextLeaf t) -> (p ++ r, t) ∈ leaves p n.
Proof.
  induction r as [|k r IH]; intros n p t Hwalk; simpl in Hwalk.
  - injection Hwalk as ->. rewrite app_nil_r. simpl. left.
  - destruct n as [t0|type id name children|name]; try done.
    destruct (children !! k) as [c|] eqn:Hk; [|done].
    rewrite leaves_container. apply elem_of_leaves_from.
    exists k, c. split; [done|]. simpl.
    replace (p ++ k :: r) with ((p ++ [k]) ++ r) by (by rewrite <- app_assoc).
    by apply IH.
Qed.

End PathLookup.

(** X2: a path leads to a text node of the frame exactly when the
    snapshot of the frame has an item with that path, and the item is the
    one made of that node: the indexer misses no text node and invents
    none. *)
Theorem X2_indexer_complete (frameNode : SceneNode) (p : list nat) (t : TextNode) :
  findNodeAtPath frameNode p = Some (TextLeaf t) <->
  exists i, r_items (indexTextNodes frameNode) !! i = Some (textItemOf p t) /\
            r_nodes (indexTextNodes frameNode) !! i = Some t.
Proof.
  destruct (indexTextNodes_leaves frameNode) as (Hi & Hn & _).
  rewrite Hi, Hn, findNodeAtPath_walk. split.
  - intros Hwalk. apply (walk_leaves p frameNode [] t) in Hwalk. simpl in Hwalk.
    apply list_elem_of_lookup in Hwalk as [i Hlk]. exists i.
    split.
    + change (map ?f ?l) with (f <$> l). by rewrite list_lookup_fmap, Hlk.
    + change (map ?f ?l) with (f <$> l). by rewrite list_lookup_fmap, Hlk.
  - intros (i & Hitem & Hnode).
    change (map ?f ?l) with (f <$> l) in Hitem.
    change (map ?f ?l) with (f <$> l) in Hnode.
    rewrite list_lookup_fmap in Hitem. rewrite list_lookup_fmap in Hnode.
    destruct (leaves [] frameNode !! i) as [[q t']|] eqn:Hlk; [|done].
    simpl in Hitem, Hnode. injection Hnode as ->.
    assert (q = p) as -> by (by injection Hitem).
    apply list_elem_of_lookup_2, leaves_walk in Hlk as (r & -> & Hwalk). done.
Qed.

(** X3: [findNodeAtPath] follows a path piece by piece: looking up
    [p ++ q] from the frame is looking up [p] and then [q] from the node
    found; so a prefix of a valid path is valid, and nothing lies below a
    text node, a childless shape or a missing child index. *)
Theorem X3_findNodeAtPath_compose (frame : SceneNode) (p q : list nat) :
  findNodeAtPath frame (p ++ q) =
    (findNodeAtPath frame p ≫= fun m => findNodeAtPath m q) /\
  (is_Some (findNodeAtPath frame (p ++ q)) -> is_Some (findNodeAtPath frame p)) /\
  (forall m k, findNodeAtPath frame p = Some m ->
               children_of m !! k = None ->
               findNodeAtPath frame (p ++ k :: q) = None).
Proof.
  rewrite !findNodeAtPath_walk.
  assert (walk frame (p ++ q) = walk frame p ≫= fun m => findNodeAtPath m q) as Heq.
  { rewrite walk_app. destruct (walk frame p); [|done]. simpl.
    by rewrite findNodeAtPath_walk. }
  split; [exact Heq|]. split.
  - rewrite Heq. destruct (walk frame p); [eauto|]. by intros [? ?].
  - intros m k Hm Hk. rewrite findNodeAtPath_walk, walk_app, Hm. simpl.
    destruct m as [t|type id name children|name]; try done.
    simpl in Hk. by rewrite Hk.
Qed.

(** ** The statistics of a snapshot *)

Section Structure.

Lemma stack_depth_cons (e : StackEntry) (stack : list StackEntry) :
  stack_depth (e :: stack) = Nat.max (e.2 + height e.1.1) (stack_depth stack).
Proof. done. Qed.

Lemma stack_depth_app (s1 s2 : list StackEntry) :
  stack_depth (s1 ++ s2) = Nat.max (stack_depth s1) (stack_depth s2).
Proof.
  induction s1 as [|e s1 IH]; simpl; [done|].
  unfold stack_depth in *. simpl. rewrite IH. lia.
Qed.

Lemma stack_depth_children (p : list nat) (depth i : nat) (children : list SceneNode) :
  Nat.max depth
    (stack_depth (imap (fun k child => (child, p ++ [i + k], S depth)) children)) =
  depth + foldr (fun k acc => Nat.max (S (height k)) acc) 0 children.
Proof.
  revert i. induction children as [|c cs IH]; intros i; [simpl; lia|].
  rewrite imap_cons.
  rewrite (imap_ext _ (fun k child => (child, p ++ [S i + k], S depth))).
  2: { intros k x _. simpl. by rewrite Nat.add_succ_r. }
  specialize (IH (S i)). unfold stack_depth in *. simpl in *. lia.
Qed.

Lemma height_node (node : SceneNode) :
  height node = foldr (fun k acc => Nat.max (S (height k)) acc) 0 (children_of node).
Proof. by destruct node. Qed.

Lemma index_loop_maxDepth (stack : list StackEntry) (st : IndexState) :
  ix_maxDepth (index_loop stack st) = Nat.max (ix_maxDepth st) (stack_depth stack).
Proof.
  remember (stack_size stack) as m eqn:Hm. revert stack st Hm.
  induction m as [m IH] using lt_wf_ind. intros stack st Hm.
  destruct stack as [|[[node p] depth] stack']; simp index_loop.
  - simpl. lia.
  - assert (m = S (stack_size (push_children stack' p depth (children_of node))))
      as Hsize.
    { rewrite Hm, push_children_size. unfold stack_size. simpl.
      rewrite tree_size_node. lia. }
    assert (stack_size (push_children stack' p depth (children_of node)) < m)
      as Hlt by lia.
    rewrite (IH _ Hlt _ (visit node p depth st) eq_refl).
    rewrite push_children_imap, stack_depth_app.
    pose proof (stack_depth_children p depth 0 (children_of node)) as Hkids.
    simpl in Hkids. rewrite <- height_node in Hkids.
    assert (ix_maxDepth (visit node p depth st) = Nat.max (ix_maxDepth st) depth)
      as -> by (by destruct node).
    rewrite stack_depth_cons. simpl. lia.
Qed.

End Structure.

(** X4: the statistics of a snapshot describe the subtree: [nodeCount]
    counts all its nodes, [textNodeCount] its text nodes, [maxDepth] is
    the number of levels below the root, and [layerNames] lists the names
    of the text nodes in the order of the items. *)
Theorem X4_frame_structure (frameNode : SceneNode) :
  let snapshot := indexTextNodes frameNode in
  nodeCount (r_structure snapshot) = tree_size frameNode /\
  textNodeCount (r_structure snapshot) = count_text frameNode /\
  maxDepth (r_structure snapshot) = height frameNode /\
  layerNames (r_structure snapshot) = map nodeName (r_nodes snapshot) /\
  map name (r_items snapshot) = map Some (layerNames (r_structure snapshot)) /\
  length (r_nodes snapshot) = length (r_items snapshot).
Proof.
  destruct (indexTextNodes_leaves frameNode) as (Hi & Hn & Hc).
  cbv zeta. split; [exact Hc|]. split.
  { change (length (r_items (indexTextNodes frameNode)) = count_text frameNode).
    rewrite Hi, length_map. apply leaves_length. }
  split.
  { unfold indexTextNodes. simpl. rewrite index_loop_maxDepth.
    unfold stack_depth. simpl. lia. }
  assert (layerNames (r_structure (indexTextNodes frameNode)) =
          map (fun pt => nodeName pt.2) (leaves [] frameNode)) as Hl.
  { unfold indexTextNodes. simpl.
    destruct (index_loop_spec [(frameNode, [], 0)] (mkIndexState [] [] [] 0 0))
      as (_ & _ & Hl & _).
    rewrite Hl. unfold stack_leaves. simpl. by rewrite app_nil_r. }
  rewrite Hl, Hi, Hn, !map_map, !length_map. done.
Qed.

(** ** The payload in the store *)

Section Store.

Lemma font_survives_dec (a : Attr FontName) : Decision (font_survives a).
Proof.
  destruct a as [| |f]; simpl; [left; done|right; tauto|].
  destruct (decide (family f = "")), (decide (style f = "")); [right|right|right|left]; tauto.
Qed.

Lemma truthy_str_Some (x : string) : Js.truthy_str (Some x) = true <-> x <> "".
Proof.
  simpl. rewrite negb_true_iff. split.
  - intros H ->. done.
  - intros H. destruct (String.eqb x "") eqn:E; [|done].
    by apply String.eqb_eq in E.
Qed.

Lemma roundtrip_item (item : TextItem) :
  deserializeTextItem (serializeTextItem item) =
  if font_survives_dec (fontName item) then item else withoutFont item.
Proof.
  destruct item as [p n c fs fn ts]. unfold deserializeTextItem, serializeTextItem.
  simpl. destruct fn as [| |[fam sty]]; simpl.
  - by destruct (font_survives_dec Absent).
  - destruct (font_survives_dec MixedSym) as [[]|]. done.
  - destruct (font_survives_dec (Present {| family := fam; style := sty |}))
      as [[Hf Hs]|Hno]; simpl in *.
    + apply truthy_str_Some in Hf, Hs. simpl in Hf, Hs. by rewrite Hf, Hs.
    + destruct (negb (String.eqb fam "")) eqn:Ef; [|done].
      destruct (negb (String.eqb sty "")) eqn:Es; [|done].
      exfalso. apply Hno. split.
      * by apply (truthy_str_Some fam).
      * by apply (truthy_str_Some sty).
Qed.

Lemma withoutFont_neq (item : TextItem) :
  ~ font_survives (fontName item) -> withoutFont item <> item.
Proof.
  intros Hno Heq. apply Hno. rewrite <- Heq. done.
Qed.

End Store.

(** X5: an item comes back from the store as it went in exactly when its
    font name is absent or has a non-empty family and style; otherwise
    (mixed fonts, or an empty family or style) it comes back without its
    font name and is otherwise unchanged.  A payload comes back unchanged
    exactly when this holds of all its items. *)
Theorem X5_store_round_trip (payload : CopyPayload) :
  (forall item,
      (deserializeTextItem (serializeTextItem item) = item <->
       font_survives (fontName item)) /\
      (~ font_survives (fontName item) ->
       deserializeTextItem (serializeTextItem item) = withoutFont item)) /\
  (restored payload = payload <->
   Forall (fun item => font_survives (fontName item)) (items payload)).
Proof.
  assert (Hitem : forall item,
      (deserializeTextItem (serializeTextItem item) = item <->
       font_survives (fontName item)) /\
      (~ font_survives (fontName item) ->
       deserializeTextItem (serializeTextItem item) = withoutFont item)).
  { intros item. rewrite roundtrip_item.
    destruct (font_survives_dec (fontName item)) as [Hyes|Hno]; split; try done.
    split; [|done]. intros Heq. by apply withoutFont_neq in Heq. }
  split; [exact Hitem|].
  destruct payload as [fid fname at_ its fs]. unfold restored. simpl.
  unfold deserializePayload, serializePayload. simpl. rewrite map_map.
  split.
  - intros [= Heq]. induction its as [|it its IH]; [constructor|].
    simpl in Heq. injection Heq as Hit Hrest.
    constructor; [by apply Hitem|by apply IH].
  - intros Hall. f_equal. induction Hall as [|it its Hit _ IH]; [done|].
    simpl. f_equal; [by apply Hitem|exact IH].
Qed.

(** X6: what was read from the store is stable: serializing and
    deserializing an item that was deserialized gives that item again. *)
Theorem X6_restored_is_stable (stored : SerializableTextItem) :
  deserializeTextItem (serializeTextItem (deserializeTextItem stored)) =
  deserializeTextItem stored.
Proof.
  rewrite roundtrip_item.
  destruct (font_survives_dec (fontName (deserializeTextItem stored))) as [|Hno];
    [done|].
  exfalso. apply Hno. unfold deserializeTextItem. simpl.
  destruct (Js.truthy_str (s_fontFamily stored)) eqn:Ef; [|done].
  destruct (Js.truthy_str (s_fontStyle stored)) eqn:Es; [|done]. simpl.
  destruct (s_fontFamily stored) as [fam|]; [|done].
  destruct (s_fontStyle stored) as [sty|]; [|done]. simpl.
  split; [by apply truthy_str_Some|by apply truthy_str_Some].
Qed.

(** X7: against any target item, a source item restored from the store
    never scores more than the item that was copied.  It scores strictly
    less exactly when its font name did not survive and the font test of
    strategy 3 had held of the pair; otherwise it scores the same.  Its
    path matches the target's exactly when the copied item's did. *)
Theorem X7_restored_item_score (sourceItem targetItem : TextItem) :
  let back := deserializeTextItem (serializeTextItem sourceItem) in
  (pairScore back targetItem <= pairScore sourceItem targetItem)%Q /\
  ((pairScore back targetItem < pairScore sourceItem targetItem)%Q <->
   ~ font_survives (fontName sourceItem) /\
   fontSignal sourceItem targetItem = true) /\
  (font_survives (fontName sourceItem) \/ fontSignal sourceItem targetItem = false ->
   pairScore back targetItem = pairScore sourceItem targetItem) /\
  path_equal (path back) (path targetItem) =
    path_equal (path sourceItem) (path targetItem).
Proof.
  cbv zeta. rewrite roundtrip_item.
  destruct (font_survives_dec (fontName sourceItem)) as [Hyes|Hno].
  { split; [lra|]. split; [|done]. split; [intros Hlt; lra|by intros [Hno _]]. }
  assert (fontSignal sourceItem targetItem = false ->
          pairScore (withoutFont sourceItem) targetItem =
          pairScore sourceItem targetItem) as Hsame.
  { unfold pairScore, withoutFont, fontSignal. simpl.
    destruct (Js.truthy_obj (fontName sourceItem) &&
              Js.truthy_obj (fontName targetItem) &&
              Js.truthy_num (fontSize sourceItem) &&
              Js.truthy_num (fontSize targetItem)); [|done].
    cbn [andb]. by intros ->. }
  assert (fontSignal sourceItem targetItem = true ->
          (pairScore (withoutFont sourceItem) targetItem <
           pairScore sourceItem targetItem)%Q) as Hless.
  { unfold pairScore, withoutFont, fontSignal. simpl.
    destruct (Js.truthy_obj (fontName sourceItem) &&
              Js.truthy_obj (fontName targetItem) &&
              Js.truthy_num (fontSize sourceItem) &&
              Js.truthy_num (fontSize targetItem)); [|done].
    cbn [andb]. intros ->.
    repeat (match goal with |- context [if ?c then _ else _] => destruct c end;
            cbn [andb]); lra. }
  destruct (fontSignal sourceItem targetItem) eqn:Hsig.
  - specialize (Hless eq_refl). split; [lra|]. split; [done|]. split; [|done].
    intros [Hyes|Hf]; done.
  - rewrite (Hsame eq_refl). split; [lra|]. split; [|done].
    split; [intros Hlt; lra|by intros [_ ?]].
Qed.

(** ** Loading the fonts *)

Section Fonts.

Lemma uniqueFonts_from (nodes : list TextNode) :
  forall acc,
    NoDup acc ->
    NoDup (foldl font_step acc nodes) /\
    forall f, f ∈ foldl font_step acc nodes <->
              f ∈ acc \/ exists n, n ∈ nodes /\ nodeFontName n = Present f.
Proof.
  induction nodes as [|n nodes IH]; intros acc Hacc; simpl.
  { split; [done|]. intros f. split; [auto|]. intros [?|(n & Hn & _)]; [done|].
    by apply elem_of_nil in Hn. }
  assert (NoDup (font_step acc n)) as Hstep.
  { unfold font_step. destruct (nodeFontName n) as [| |g]; try done.
    case_bool_decide; [done|]. apply NoDup_app. split; [done|].
    split; [|apply NoDup_singleton].
    intros x Hx ->%list_elem_of_singleton. done. }
  destruct (IH _ Hstep) as [Hnd Hin]. split; [done|].
  intros f. rewrite Hin. unfold font_step. split.
  - intros [Hf|(m & Hm & Hfont)].
    + destruct (nodeFontName n) as [| |g] eqn:Hg; auto.
      case_bool_decide; auto.
      apply elem_of_app in Hf as [Hf|Hf]; auto.
      apply list_elem_of_singleton in Hf as ->.
      right. exists n. split; [left|done].
    + right. exists m. split; [by right|done].
  - intros [Hf|(m & Hm & Hfont)].
    + left. destruct (nodeFontName n) as [| |g]; try done.
      case_bool_decide; [done|]. apply elem_of_app. by left.
    + apply elem_of_cons in Hm as [->|Hm].
      * left. rewrite Hfont. case_bool_decide; [done|].
        apply elem_of_app. right. by apply list_elem_of_singleton.
      * right. eauto.
Qed.

Lemma first_rejection (lf : FontName -> option string) (fonts : list FontName) :
  match omap lf fonts with
  | [] => forall f, f ∈ fonts -> lf f = None
  | e :: _ => exists l1 f l2, fonts = l1 ++ f :: l2 /\
                              Forall (fun g => lf g = None) l1 /\ lf f = Some e
  end.
Proof.
  induction fonts as [|g fonts IH].
  { intros f Hf. by apply elem_of_nil in Hf. }
  change (omap lf (g :: fonts))
    with (match lf g with Some y => y :: omap lf fonts | None => omap lf fonts end).
  destruct (lf g) as [e|] eqn:Hg.
  - exists [], g, fonts. done.
  - destruct (omap lf fonts) as [|e r].
    + intros f [->|Hf]%elem_of_cons; [done|by apply IH].
    + destruct IH as (l1 & f & l2 & -> & Hl1 & Hf).
      exists (g :: l1), f, l2. split; [done|]. split; [by constructor|done].
Qed.

Lemma omap_cons_id {A} (x : option A) (l : list (option A)) :
  omap id (x :: l) = match x with Some y => y :: omap id l | None => omap id l end.
Proof. done. Qed.

Lemma notified_all (lf : FontName -> option string) (total : nat)
    (fonts : list FontName) :
  (forall f, f ∈ fonts -> lf f = None) ->
  forall i,
    omap id (imap (fun index f =>
                     match lf f with
                     | None => Some (percent (i + index + 1) total)
                     | Some _ => None
                     end) fonts) =
    map (fun index => percent (index + 1) total) (seq i (length fonts)).
Proof.
  induction fonts as [|g fonts IH]; intros Hall i; [done|].
  rewrite imap_cons, omap_cons_id. rewrite (Hall g) by left.
  rewrite Nat.add_0_r. simpl length. simpl seq. simpl map. f_equal.
  assert (forall f, f ∈ fonts -> lf f = None) as Hrest.
  { intros f Hf. apply Hall. by right. }
  rewrite <- (IH Hrest (S i)).
  erewrite imap_ext; [reflexivity|].
  intros k x _. simpl. destruct (lf x); [done|]. do 2 f_equal. lia.
Qed.

End Fonts.

(** X8: [ensureFontsLoaded] asks for every font that some node has as an
    object, once each.  It returns exactly when all of them load and no
    call of the callback throws, having handed to the callback, in some
    order, [Math.round(((i + 1) / n) * 100)] for every font [i] of [n]
    (nothing without a callback or without fonts).  Otherwise it throws
    the error of a font that failed to load, or what the callback threw
    when it was called for a font that had loaded.  With a callback that
    returns it is the function that [handlePaste] runs. *)
Theorem X8_fonts_loaded_or_thrown (loadFontAsync : FontName -> option string)
    (textNodes : list TextNode) (onProgress : option Callback.Sink) :
  let fonts := uniqueFonts textNodes in
  let result := Callback.ensureFontsLoaded loadFontAsync textNodes onProgress in
  NoDup fonts /\
  (forall f, f ∈ fonts <-> exists n, n ∈ textNodes /\ nodeFontName n = Present f) /\
  match result.2 with
  | Returned _ =>
      (forall f, f ∈ fonts -> loadFontAsync f = None) /\
      (forall sink index, onProgress = Some sink -> index < length fonts ->
                          Callback.afterFont sink index = None) /\
      result.1 ≡ₚ
        match onProgress with
        | Some _ => map (fun i => percent (i + 1) (length fonts)) (seq 0 (length fonts))
        | None => []
        end
  | Threw e =>
      (exists f, f ∈ fonts /\ loadFontAsync f = Some e) \/
      (exists sink index f,
          onProgress = Some sink /\ fonts !! index = Some f /\
          loadFontAsync f = None /\ Callback.afterFont sink index = Some e)
  end /\
  forall given,
    Callback.ensureFontsLoaded loadFontAsync textNodes (Callback.returning given) =
    ensureFontsLoaded loadFontAsync textNodes given.
Proof.
  cbv zeta.
  destruct (uniqueFonts_from textNodes [] (NoDup_nil_2)) as [Hnd Hin].
  change (foldl font_step [] textNodes) with (uniqueFonts textNodes) in Hnd, Hin.
  split; [exact Hnd|]. split.
  { intros f. rewrite Hin. split; [|auto]. intros [Hf|?]; [|done].
    by apply elem_of_nil in Hf. }
  split; [|intros given; apply Callback_ensureFontsLoaded_returning].
  pose proof (Callback_ensureFontsLoaded_completion onProgress loadFontAsync textNodes)
    as Hend.
  destruct (Callback.ensureFontsLoaded loadFontAsync textNodes onProgress).2
    as [u|e] eqn:Hres; [|exact Hend].
  assert (forall f, f ∈ uniqueFonts textNodes -> loadFontAsync f = None) as Hall.
  { intros f (index & Hf)%list_elem_of_lookup_1. by destruct (Hend index f Hf). }
  split; [exact Hall|]. split.
  { intros sink index Hop Hlt.
    destruct (lookup_lt_is_Some_2 (uniqueFonts textNodes) index Hlt) as [f Hf].
    destruct (Hend index f Hf) as [_ Hsink]. by apply Hsink. }
  clear Hres Hend. unfold Callback.ensureFontsLoaded.
  destruct (length (uniqueFonts textNodes) =? 0) eqn:Hlen.
  { apply Nat.eqb_eq in Hlen. rewrite Hlen. simpl. by destruct onProgress. }
  assert (forall promises : list (option Z * option string),
            (match omap snd promises with
             | [] => (omap fst promises, Returned tt)
             | e :: _ => (omap fst promises, Threw e)
             end).1 = omap fst promises) as ->.
  { intros promises. by destruct (omap snd promises). }
  rewrite (omap_imap fst). destruct onProgress as [sink|].
  - erewrite (imap_ext _ (fun index f =>
                match loadFontAsync f with
                | None => Some (percent (0 + index + 1)
                                  (length (uniqueFonts textNodes)))
                | Some _ => None
                end)).
    + by rewrite (notified_all loadFontAsync _ _ Hall 0).
    + intros i x _. simpl. by destruct (loadFontAsync x).
  - rewrite (omap_imap_same (fun _ => None)).
    2: { intros i x. by destruct (loadFontAsync x). }
    by rewrite omap_none.
Qed.

(** ** Copy, paste and clear *)

Section Handlers.

Lemma ensureFontsLoaded_returned (lf : FontName -> option string)
    (nodes : list TextNode) (op : bool) (u : unit) :
  (ensureFontsLoaded lf nodes op).2 = Returned u ->
  forall f, f ∈ uniqueFonts nodes -> lf f = None.
Proof.
  unfold ensureFontsLoaded.
  destruct (length (uniqueFonts nodes) =? 0) eqn:Hlen.
  { apply Nat.eqb_eq, length_zero_iff_nil in Hlen. rewrite Hlen.
    intros _ f Hf. by apply elem_of_nil in Hf. }
  pose proof (first_rejection lf (uniqueFonts nodes)) as Hfirst.
  by destruct (omap lf (uniqueFonts nodes)).
Qed.

(** The steps of [handlePaste], one after the other. *)
Lemma handlePaste_steps (w : World) :
  match validateSingleFrameSelection w with
  | Threw e => handlePaste w = (w, Threw e)
  | Returned frame =>
      match currentPayload w with
      | None => handlePaste w = (w, Threw noPayloadError)
      | Some payload =>
          let indexed := indexTextNodes frame in
          let fonts := ensureFontsLoaded (loadFontAsync w) (r_nodes indexed) true in
          match fonts.2 with
          | Threw e => handlePaste w = (post (map PROGRESS fonts.1) w, Threw e)
          | Returned _ =>
              let st := resolve (items payload) (r_items indexed) (r_nodes indexed) true in
              handlePaste w =
              (post (map PROGRESS (fonts.1 ++ progress st) ++
                     [PASTE_SUCCESS (mapped st) (skipped st)
                        (length (items payload)) (details st)])
                 (setSelection [(rebuild frame (liveNodes st)).1] w),
               Returned tt)
          end
      end
  end.
Proof.
  unfold handlePaste, mapTextNodes.
  destruct (validateSingleFrameSelection w) as [frame|e]; [|done].
  destruct (currentPayload w) as [payload|]; [|done]. simpl.
  by destruct (ensureFontsLoaded _ _ _) as [notified [[]|e]].
Qed.

Lemma validate_frame (w : World) (frame : SceneNode) :
  validateSingleFrameSelection w = Returned frame <->
  selection w = [frame] /\ exists id name children, frame = Container FRAME id name children.
Proof.
  unfold validateSingleFrameSelection.
  destruct (selection w) as [|n [|n' rest]]; try (split; [done|by intros [? _]]).
  destruct n as [t|[| |] id name children|name];
    (split; [intros [= <-]|intros [[= <-] (? & ? & ? & ?)]]); try done; eauto.
Qed.

(** The steps of [handleCopy]. *)
Lemma handleCopy_steps (w : World) (frame : SceneNode) :
  validateSingleFrameSelection w = Returned frame ->
  let indexed := indexTextNodes frame in
  let payload := {| sourceFrameId := frameId frame;
                    sourceFrameName := frameName frame;
                    capturedAt := now w;
                    items := r_items indexed;
                    frameStructure := r_structure indexed |} in
  (handleCopy w).2 = Returned tt /\
  copyPayload (handleCopy w).1 = Some payload /\
  clientStorage (handleCopy w).1 =
    match setAsyncError w with
    | None => Some (serializePayload payload)
    | Some _ => clientStorage w
    end /\
  selection (handleCopy w).1 = selection w /\
  setAsyncError (handleCopy w).1 = setAsyncError w /\
  getAsyncError (handleCopy w).1 = getAsyncError w /\
  loadFontAsync (handleCopy w).1 = loadFontAsync w /\
  posted (handleCopy w).1 =
    posted w ++ [COPY_SUCCESS (frameName frame) (length (r_items indexed))
                              (r_structure indexed)].
Proof.
  intros Hsel. unfold handleCopy. rewrite Hsel. unfold setAsync. simpl.
  destruct (setAsyncError w) eqn:E; simpl; rewrite ?E; done.
Qed.

End Handlers.

(** X9: when a font of the target frame fails to load, the paste throws
    the error of such a font before anything is matched or written: the
    document, the payload and the store are as before, and the panel has
    only heard progress messages, no result. *)
Theorem X9_paste_aborts_on_font_failure (w : World) (frame : SceneNode)
    (payload : CopyPayload) (f : FontName) :
  validateSingleFrameSelection w = Returned frame ->
  currentPayload w = Some payload ->
  f ∈ uniqueFonts (r_nodes (indexTextNodes frame)) ->
  loadFontAsync w f <> None ->
  exists e g,
    (handlePaste w).2 = Threw e /\
    g ∈ uniqueFonts (r_nodes (indexTextNodes frame)) /\
    loadFontAsync w g = Some e /\
    selection (handlePaste w).1 = selection w /\
    copyPayload (handlePaste w).1 = copyPayload w /\
    clientStorage (handlePaste w).1 = clientStorage w /\
    exists percents, posted (handlePaste w).1 = posted w ++ map PROGRESS percents.
Proof.
  intros Hsel Hpay Hf Hfail.
  pose proof (handlePaste_steps w) as Hsteps. rewrite Hsel, Hpay in Hsteps.
  cbv zeta in Hsteps.
  pose proof (ensureFontsLoaded_completion (loadFontAsync w)
                (r_nodes (indexTextNodes frame)) true) as Hcompl.
  destruct (ensureFontsLoaded (loadFontAsync w) (r_nodes (indexTextNodes frame)) true).2
    as [u|e] eqn:Hfonts.
  - exfalso. apply Hfail. by eapply ensureFontsLoaded_returned.
  - destruct Hcompl as (g & Hg & Hge). exists e, g. rewrite Hsteps. simpl. eauto 10.
Qed.

Lemma X9_paste_aborts_on_font_failure_witness :
  let w := setSelection [Demo.target]
             (handleCopy (Demo.fresh [Demo.source] None None Demo.noFontLoads)).1 in
  exists e,
    (handlePaste w).2 = Threw e /\ selection (handlePaste w).1 = selection w.
Proof.
  cbv zeta.
  destruct (X9_paste_aborts_on_font_failure
              (setSelection [Demo.target]
                 (handleCopy (Demo.fresh [Demo.source] None None Demo.noFontLoads)).1)
              Demo.target
              (default Sample.cardPayload
                 (copyPayload (handleCopy (Demo.fresh [Demo.source] None None
                                                      Demo.noFontLoads)).1))
              Sample.inter)
    as (e & g & He & _ & _ & Hs & _).
  - reflexivity.
  - reflexivity.
  - vm_compute. left.
  - discriminate.
  - exists e. split; [exact He|exact Hs].
Defined.

(** X10: a copy followed, in the same run of the plugin, by a paste into
    a selected frame whose fonts load always completes, whether or not
    the store accepted the payload: the result posted to the panel counts
    every text node of the source frame once, as mapped or as skipped,
    and skips at least those in excess of the target's text nodes. *)
Theorem X10_copy_then_paste (w : World) (source target : SceneNode) :
  validateSingleFrameSelection w = Returned source ->
  (exists id name children, target = Container FRAME id name children) ->
  (forall f, f ∈ uniqueFonts (r_nodes (indexTextNodes target)) ->
             loadFontAsync w f = None) ->
  let w1 := (handleCopy w).1 in
  let w2 := handlePaste (setSelection [target] w1) in
  (handleCopy w).2 = Returned tt /\
  w2.2 = Returned tt /\
  exists mapped skipped details,
    last (posted w2.1) =
      Some (PASTE_SUCCESS mapped skipped (count_text source) details) /\
    mapped + skipped = count_text source /\
    length details = count_text source /\
    mapped <= count_text target /\
    count_text source - count_text target <= skipped.
Proof.
  intros Hsel Htarget Hfonts. cbv zeta.
  destruct (handleCopy_steps w source Hsel) as (Hret & Hpay & _ & _ & _ & _ & Hlf & _).
  split; [exact Hret|].
  set (w1 := (handleCopy w).1) in *.
  assert (validateSingleFrameSelection (setSelection [target] w1) = Returned target)
    as Hsel2 by (by apply validate_frame).
  pose proof (handlePaste_steps (setSelection [target] w1)) as Hsteps.
  rewrite Hsel2 in Hsteps.
  assert (currentPayload (setSelection [target] w1) =
          Some {| sourceFrameId := frameId source;
                  sourceFrameName := frameName source;
                  capturedAt := now w;
                  items := r_items (indexTextNodes source);
                  frameStructure := r_structure (indexTextNodes source) |}) as Hcur.
  { unfold currentPayload. simpl. by rewrite Hpay. }
  rewrite Hcur in Hsteps. cbv zeta in Hsteps. cbn [items] in Hsteps.
  assert (loadFontAsync (setSelection [target] w1) = loadFontAsync w) as Hlf2
    by (simpl; exact Hlf).
  rewrite Hlf2 in Hsteps.
  pose proof (ensureFontsLoaded_completion (loadFontAsync w)
                (r_nodes (indexTextNodes target)) true) as Hcompl.
  destruct (ensureFontsLoaded (loadFontAsync w) (r_nodes (indexTextNodes target)) true).2
    as [u|e].
  2: { destruct Hcompl as (g & Hg & Hge). rewrite (Hfonts g Hg) in Hge. done. }
  rewrite Hsteps. split; [done|].
  set (st := resolve (r_items (indexTextNodes source)) (r_items (indexTextNodes target))
               (r_nodes (indexTextNodes target)) true).
  destruct (resolve_counted (r_items (indexTextNodes source))
              (r_items (indexTextNodes target)) (r_nodes (indexTextNodes target)) true)
    as (Hc & Hd & _ & _).
  pose proof (resolve_mapped_bound (r_items (indexTextNodes target))
                (r_items (indexTextNodes source)) (r_nodes (indexTextNodes target)) true)
    as Hb.
  fold st in Hc, Hd, Hb.
  assert (length (r_items (indexTextNodes source)) = count_text source) as Hs.
  { destruct (indexTextNodes_leaves source) as (-> & _ & _).
    rewrite length_map. apply leaves_length. }
  assert (length (r_items (indexTextNodes target)) = count_text target) as Ht.
  { destruct (indexTextNodes_leaves target) as (-> & _ & _).
    rewrite length_map. apply leaves_length. }
  exists (mapped st), (skipped st), (details st).
  unfold post. cbn [posted fst]. rewrite app_assoc, last_snoc, Hs.
  repeat split; try done; lia.
Qed.

Lemma X10_copy_then_paste_witness :
  let w := Demo.fresh [Demo.source] (Some "quota exceeded") None Sample.allFontsLoad in
  (handlePaste (setSelection [Demo.target] (handleCopy w).1)).2 = Returned tt.
Proof.
  cbv zeta.
  destruct (X10_copy_then_paste
              (Demo.fresh [Demo.source] (Some "quota exceeded") None Sample.allFontsLoad)
              Demo.source Demo.target) as (_ & Hret & _).
  - reflexivity.
  - by eexists _, _, _.
  - intros f _. reflexivity.
  - exact Hret.
Defined.

(** ** Sessions, the store and the selection *)

Section Sessions.

Lemma rebuild_rebuild (n : SceneNode) :
  forall ts ts1 r,
    length ts1 = count_text n ->
    rebuild (rebuild n ts).1 (ts1 ++ r) = rebuild n (ts1 ++ r).
Proof.
  induction n as [t0|type id name children IH|name] using SceneNode_ind';
    intros ts ts1 r Hlen.
  - destruct ts1 as [|t1 [|? ?]]; simpl in Hlen; try done. by destruct ts.
  - rewrite !rebuild_container. simpl fst. rewrite rebuild_container.
    simpl in Hlen.
    assert (rebuild_all (rebuild_all children ts).1 (ts1 ++ r) =
            rebuild_all children (ts1 ++ r)) as ->; [|done].
    revert ts ts1 r Hlen.
    induction IH as [|c cs Hc _ IHcs]; intros ts ts1 r Hlen; simpl in *; [done|].
    assert (ts1 = take (count_text c) ts1 ++ drop (count_text c) ts1) as Hts
      by (by rewrite take_drop).
    assert (length (take (count_text c) ts1) = count_text c) as Hl1.
    { rewrite length_take. lia. }
    assert (length (drop (count_text c) ts1) = list_sum (map count_text cs)) as Hl2.
    { rewrite length_drop. lia. }
    destruct (rebuild c ts) as [c' r1] eqn:Hreb.
    specialize (IHcs r1 (drop (count_text c) ts1) r Hl2).
    destruct (rebuild_all cs r1) as [cs' r2] eqn:Hreb'. simpl in *.
    rewrite Hts, <- app_assoc.
    pose proof (Hc ts (take (count_text c) ts1) (drop (count_text c) ts1 ++ r) Hl1)
      as Hc'.
    rewrite Hreb in Hc'. simpl in Hc'. rewrite Hc'.
    destruct (leaves_rebuild c [] (take (count_text c) ts1)
                (drop (count_text c) ts1 ++ r) Hl1) as (H2 & _ & _).
    destruct (rebuild c (take (count_text c) ts1 ++ drop (count_text c) ts1 ++ r))
      as [c'' r1'']. simpl in H2. subst r1''. by rewrite IHcs.
  - done.
Qed.

Lemma error_messages_distinct :
  noneSelectedError <> manySelectedError /\
  noneSelectedError <> notAFrameError /\
  manySelectedError <> notAFrameError /\
  noPayloadError <> noneSelectedError /\
  noPayloadError <> manySelectedError /\
  noPayloadError <> notAFrameError.
Proof. repeat split; discriminate. Qed.

End Sessions.

(** X11: what a paste finds after the plugin is started anew (its global
    variable is null again) following a copy: the copied payload as the
    store gives it back if the store took it, otherwise whatever the
    store held before that copy, and nothing if the store cannot be
    read. *)
Theorem X11_payload_after_restart (w : World) (frame : SceneNode) :
  validateSingleFrameSelection w = Returned frame ->
  let indexed := indexTextNodes frame in
  let payload := {| sourceFrameId := frameId frame;
                    sourceFrameName := frameName frame;
                    capturedAt := now w;
                    items := r_items indexed;
                    frameStructure := r_structure indexed |} in
  let w1 := (handleCopy w).1 in
  currentPayload w1 = Some payload /\
  currentPayload (startPlugin w1) =
    match getAsyncError w, setAsyncError w with
    | Some _, _ => None
    | None, None => Some (restored payload)
    | None, Some _ => deserializePayload <$> clientStorage w
    end.
Proof.
  intros Hsel. cbv zeta.
  destruct (handleCopy_steps w frame Hsel) as (_ & Hpay & Hst & _ & _ & Hget & _).
  unfold currentPayload, startPlugin. simpl. rewrite Hpay, Hget, Hst.
  split; [done|].
  destruct (getAsyncError w); [done|]. by destruct (setAsyncError w).
Qed.

Lemma X11_payload_after_restart_witness :
  let w := Demo.fresh [Demo.source] (Some "quota exceeded") None Sample.allFontsLoad in
  currentPayload (startPlugin (handleCopy w).1) = None.
Proof.
  cbv zeta.
  destruct (X11_payload_after_restart
              (Demo.fresh [Demo.source] (Some "quota exceeded") None Sample.allFontsLoad)
              Demo.source) as [_ H].
  - reflexivity.
  - exact H.
Defined.

(** X12: a clear whose write to the store fails throws that error and
    posts no success, yet the global variable is already null and the
    store still holds what it held: the next paste works with the stored
    payload, and the message handler reports the error to the panel. *)
Theorem X12_clear_with_failing_store (w : World) (e : string) :
  setAsyncError w = Some e ->
  (handleClear w).2 = Threw e /\
  copyPayload (handleClear w).1 = None /\
  clientStorage (handleClear w).1 = clientStorage w /\
  selection (handleClear w).1 = selection w /\
  posted (handleClear w).1 = posted w /\
  posted (onmessage CLEAR w) = posted w ++ [ERROR e] /\
  currentPayload (handleClear w).1 =
    match getAsyncError w with
    | Some _ => None
    | None => deserializePayload <$> clientStorage w
    end.
Proof.
  intros He. unfold onmessage, handleClear, setAsync, currentPayload. simpl.
  rewrite He. simpl. done.
Qed.

Lemma X12_clear_with_failing_store_witness :
  let w := Demo.withSetAsyncError (Some "quota exceeded")
             (handleCopy (Demo.fresh [Demo.source] None None Sample.allFontsLoad)).1 in
  (handleClear w).2 = Threw "quota exceeded" /\
  currentPayload (handleClear w).1 <> None.
Proof.
  cbv zeta.
  destruct (X12_clear_with_failing_store
              (Demo.withSetAsyncError (Some "quota exceeded")
                 (handleCopy (Demo.fresh [Demo.source] None None Sample.allFontsLoad)).1)
              "quota exceeded") as (Hthrow & _ & _ & _ & _ & _ & Hcur).
  - reflexivity.
  - split; [exact Hthrow|]. rewrite Hcur. discriminate.
Defined.

(** X13: a paste that returns leaves the selected frame as it was but for
    the characters of its text nodes: the text nodes are at the same
    paths, each is its former self up to its characters, a locked one is
    unchanged, and putting the former text nodes back gives the former
    frame.  The payload and the store are not touched. *)
Theorem X13_paste_keeps_structure (w w' : World) :
  handlePaste w = (w', Returned tt) ->
  exists frame frame',
    selection w = [frame] /\ selection w' = [frame'] /\
    map fst (leaves [] frame') = map fst (leaves [] frame) /\
    Forall2 evolves (map snd (leaves [] frame)) (map snd (leaves [] frame')) /\
    (forall k n, map snd (leaves [] frame) !! k = Some n -> locked n = true ->
                 map snd (leaves [] frame') !! k = Some n) /\
    rebuild frame' (map snd (leaves [] frame)) = (frame, []) /\
    copyPayload w' = copyPayload w /\
    clientStorage w' = clientStorage w.
Proof.
  intros Hpaste. pose proof (handlePaste_steps w) as Hsteps.
  destruct (validateSingleFrameSelection w) as [frame|e] eqn:Hsel.
  2: { rewrite Hsteps in Hpaste. done. }
  destruct (currentPayload w) as [payload|].
  2: { rewrite Hsteps in Hpaste. done. }
  cbv zeta in Hsteps.
  destruct (ensureFontsLoaded (loadFontAsync w) (r_nodes (indexTextNodes frame)) true).2
    as [u|e].
  2: { rewrite Hsteps in Hpaste. done. }
  rewrite Hsteps in Hpaste. clear Hsteps.
  set (st := resolve (items payload) (r_items (indexTextNodes frame))
               (r_nodes (indexTextNodes frame)) true) in *.
  destruct (resolve_report_ok (items payload) (r_items (indexTextNodes frame))
              (r_nodes (indexTextNodes frame)) true) as [[Hev Hlocked] _].
  fold st in Hev, Hlocked.
  destruct (indexTextNodes_leaves frame) as (_ & Hnodes & _).
  rewrite Hnodes in Hev, Hlocked.
  assert (length (liveNodes st) = count_text frame) as Hlen.
  { apply Forall2_length in Hev. rewrite length_map, leaves_length in Hev. done. }
  destruct (leaves_rebuild frame [] (liveNodes st) [] Hlen) as (_ & Hpaths & Hlive).
  rewrite app_nil_r in Hpaths, Hlive.
  apply validate_frame in Hsel as [Hsel _].
  exists frame, (rebuild frame (liveNodes st)).1.
  injection Hpaste as <-. simpl.
  rewrite Hlive. repeat split; try done.
  rewrite <- (app_nil_r (map snd (leaves [] frame))).
  rewrite rebuild_rebuild by (by rewrite length_map, leaves_length).
  apply rebuild_same.
Qed.

Lemma X13_paste_keeps_structure_witness :
  let w := setSelection [Demo.target]
             (handleCopy (Demo.fresh [Demo.source] None None Sample.allFontsLoad)).1 in
  exists frame', selection (handlePaste w).1 = [frame'] /\
                 map fst (leaves [] frame') = map fst (leaves [] Demo.target).
Proof.
  cbv zeta.
  destruct (X13_paste_keeps_structure
              (setSelection [Demo.target]
                 (handleCopy (Demo.fresh [Demo.source] None None Sample.allFontsLoad)).1)
              (handlePaste
                 (setSelection [Demo.target]
                    (handleCopy (Demo.fresh [Demo.source] None None
                                            Sample.allFontsLoad)).1)).1)
    as (frame & frame' & Hsel & Hsel' & Hpaths & _).
  - vm_compute. reflexivity.
  - exists frame'. split; [exact Hsel'|]. injection Hsel as <-. exact Hpaths.
Defined.

(** X14: the panel is told that a copy is possible exactly when the
    selection check of the handlers accepts the selection, and then with
    the name of the frame that the check returns. *)
Theorem X14_feedback_agrees_with_validation (w : World) :
  match updateSelectionFeedback w with
  | FRAME_SELECTED name canCopy =>
      canCopy = true /\
      exists frame, validateSingleFrameSelection w = Returned frame /\
                    frameName frame = name /\ (handleCopy w).2 = Returned tt
  | NO_FRAME_SELECTED canCopy =>
      canCopy = false /\
      exists e, validateSingleFrameSelection w = Threw e /\
                handleCopy w = (w, Threw e) /\ handlePaste w = (w, Threw e)
  end.
Proof.
  unfold updateSelectionFeedback, handleCopy, handlePaste, validateSingleFrameSelection.
  destruct (selection w) as [|n rest]; simpl; [eauto 6|].
  destruct n as [t|[| |] id name children|name], rest as [|n' rest];
    simpl; eauto 6.
Qed.

(** X15: with a selection that is not exactly one frame, a copy and a
    paste both throw the same message and change nothing, whatever was
    copied before; the message handler posts that message as the only
    error; and the message tells the cause: nothing selected, several
    nodes selected, or one node that is not a frame. *)
Theorem X15_selection_errors (w : World) (e : string) :
  validateSingleFrameSelection w = Threw e ->
  handleCopy w = (w, Threw e) /\
  handlePaste w = (w, Threw e) /\
  onmessage COPY w = post [ERROR e] w /\
  onmessage PASTE w = post [ERROR e] w /\
  e <> noPayloadError /\
  (e = noneSelectedError <-> selection w = []) /\
  (e = manySelectedError <-> 2 <= length (selection w)) /\
  (e = notAFrameError <->
   exists n, selection w = [n] /\
             forall id name children, n <> Container FRAME id name children).
Proof.
  intros Hsel.
  destruct error_messages_distinct as (H1 & H2 & H3 & H4 & H5 & H6).
  unfold onmessage, handleCopy, handlePaste. rewrite Hsel.
  do 4 (split; [done|]).
  unfold validateSingleFrameSelection in Hsel.
  destruct (selection w) as [|n [|n' rest]].
  - injection Hsel as <-. split; [congruence|]. split; [done|].
    split; [split; [congruence|simpl; lia]|].
    split; [congruence|]. by intros (n & ? & _).
  - assert (e = notAFrameError /\
            forall id name children, n <> Container FRAME id name children)
      as [-> Hn].
    { destruct n as [t|[| |] id name children|name]; try done;
        injection Hsel as <-; (split; [done|intros; discriminate]). }
    split; [congruence|]. split; [split; [congruence|done]|].
    split; [split; [congruence|simpl; lia]|].
    split; [by exists n|done].
  - injection Hsel as <-. split; [congruence|].
    split; [split; [congruence|done]|].
    split; [split; [simpl; lia|done]|].
    split; [congruence|]. by intros (n0 & ? & _).
Qed.

Lemma X15_selection_errors_witness :
  let w := Demo.fresh [Demo.source; Demo.target] None None Sample.allFontsLoad in
  handlePaste w = (w, Threw manySelectedError).
Proof.
  cbv zeta.
  destruct (X15_selection_errors
              (Demo.fresh [Demo.source; Demo.target] None None Sample.allFontsLoad)
              manySelectedError) as (_ & H & _).
  - reflexivity.
  - exact H.
Defined.

(** ** The earlier matcher: three strategies *)

Section BasicMatcher.

Lemma findIndex_from_Some {A} (p : A -> nat -> bool) (l : list A) :
  forall i t,
    Basic.findIndex_from p i l = Some t ->
    exists k x, t = i + k /\ l !! k = Some x /\ p x (i + k) = true /\
                forall j y, j < k -> l !! j = Some y -> p y (i + j) = false.
Proof.
  induction l as [|a l IH]; intros i t Hfind; simpl in Hfind; [done|].
  destruct (p a i) eqn:Hp.
  - injection Hfind as <-. exists 0, a. rewrite Nat.add_0_r.
    repeat split; try done. intros j y Hj. lia.
  - apply IH in Hfind as (k & x & -> & Hx & Hpx & Hmin).
    exists (S k), x. rewrite <- Nat.add_succ_comm.
    repeat split; try done.
    intros [|j] y Hj Hy; simpl in Hy.
    + injection Hy as <-. by rewrite Nat.add_0_r.
    + rewrite <- Nat.add_succ_comm. apply Hmin; [lia|done].
Qed.

Lemma findIndex_from_None {A} (p : A -> nat -> bool) (l : list A) :
  forall i,
    Basic.findIndex_from p i l = None ->
    forall k x, l !! k = Some x -> p x (i + k) = false.
Proof.
  induction l as [|a l IH]; intros i Hfind k x Hx; simpl in Hfind; [done|].
  destruct (p a i) eqn:Hp; [done|].
  destruct k as [|k]; simpl in Hx.
  - injection Hx as <-. by rewrite Nat.add_0_r.
  - rewrite <- Nat.add_succ_comm. by eapply IH.
Qed.

Lemma findIndex_first {A} (p : A -> nat -> bool) (l : list A) (k : nat) (x : A) :
  l !! k = Some x -> p x k = true ->
  (forall j y, j < k -> l !! j = Some y -> p y j = false) ->
  Basic.findIndex p l = Some k.
Proof.
  intros Hx Hp Hmin. unfold Basic.findIndex.
  destruct (Basic.findIndex_from p 0 l) as [t|] eqn:Hfind.
  - apply findIndex_from_Some in Hfind as (k' & x' & -> & Hx' & Hp' & Hmin').
    simpl in *. f_equal.
    destruct (Nat.lt_trichotomy k' k) as [Hlt|[Heq|Hgt]]; [|done|].
    + rewrite (Hmin k' x' Hlt Hx') in Hp'. done.
    + rewrite (Hmin' k x Hgt Hx) in Hp. done.
  - pose proof (findIndex_from_None p l 0 Hfind k x Hx) as Hp'. simpl in Hp'.
    congruence.
Qed.

Lemma findIndex_unused {A} (used : gset nat) (q : A -> nat -> bool) (l : list A)
    (t : nat) :
  Basic.findIndex (fun item idx => negb (bool_decide (idx ∈ used)) && q item idx) l
    = Some t ->
  (t ∉ used) /\ t < length l.
Proof.
  intros (k & x & -> & Hx & Hp & _)%findIndex_from_Some. simpl in *.
  apply andb_true_iff in Hp as [Hu _].
  apply negb_true_iff, bool_decide_eq_false in Hu.
  split; [done|]. by eapply lookup_lt_Some.
Qed.

(** The index that the three strategies settle on is a target that no
    earlier item has been written to. *)
Lemma targetIndexOf_Some (used : gset nat) (s : Basic.TextItem)
    (tgt : list Basic.TextItem) (t : nat) :
  Basic.targetIndexOf used s tgt = Some t -> (t ∉ used) /\ t < length tgt.
Proof.
  unfold Basic.targetIndexOf.
  set (byPath := Basic.findIndex
                   (fun item idx => negb (bool_decide (idx ∈ used)) &&
                                    path_equal (Basic.path item) (Basic.path s)) tgt).
  set (byName := Basic.findIndex
                   (fun item idx => negb (bool_decide (idx ∈ used)) &&
                                    Js.strict_eq_str (Basic.name item) (Basic.name s))
                   tgt).
  set (byOrder := Basic.findIndex
                    (fun _ idx => negb (bool_decide (idx ∈ used))) tgt).
  assert (forall t0, byOrder = Some t0 -> (t0 ∉ used) /\ t0 < length tgt) as H3.
  { intros t0 (k & x & -> & Hx & Hp & _)%findIndex_from_Some. simpl in *.
    apply negb_true_iff, bool_decide_eq_false in Hp.
    split; [done|]. by eapply lookup_lt_Some. }
  destruct byPath as [t1|] eqn:H1.
  { intros [= ->].
    by apply (findIndex_unused used
                (fun item _ => path_equal (Basic.path item) (Basic.path s))). }
  destruct (Js.truthy_str (Basic.name s)); [|by apply H3].
  destruct byName as [t2|] eqn:H2; [|by apply H3].
  intros [= ->].
  by apply (findIndex_unused used
              (fun item _ => Js.strict_eq_str (Basic.name item) (Basic.name s))).
Qed.

(** They settle on none only when every target has been written to. *)
Lemma targetIndexOf_None (used : gset nat) (s : Basic.TextItem)
    (tgt : list Basic.TextItem) :
  Basic.targetIndexOf used s tgt = None -> forall t, t < length tgt -> t ∈ used.
Proof.
  unfold Basic.targetIndexOf.
  set (byPath := Basic.findIndex
                   (fun item idx => negb (bool_decide (idx ∈ used)) &&
                                    path_equal (Basic.path item) (Basic.path s)) tgt).
  set (byName := Basic.findIndex
                   (fun item idx => negb (bool_decide (idx ∈ used)) &&
                                    Js.strict_eq_str (Basic.name item) (Basic.name s))
                   tgt).
  set (byOrder := Basic.findIndex
                    (fun _ idx => negb (bool_decide (idx ∈ used))) tgt).
  intros Hnone t Ht.
  assert (byOrder = None) as H3.
  { destruct byPath as [t1|]; [done|].
    destruct (Js.truthy_str (Basic.name s)); [|done].
    by destruct byName as [t2|]. }
  destruct (lookup_lt_is_Some_2 tgt t Ht) as [x Hx].
  pose proof (findIndex_from_None _ tgt 0 H3 t x Hx) as Hp. simpl in Hp.
  apply negb_false_iff, bool_decide_eq_true in Hp. done.
Qed.

(** The rule of the loop: what holds before it and is kept by every turn
    holds after it. *)
Lemma basic_resolve_invariant (I : nat -> Basic.MapState -> Prop)
    (src tgt : list Basic.TextItem) (nodes : list TextNode) :
  I 0 {| Basic.mapped := 0; Basic.skipped := 0; Basic.usedIndices := ∅;
         Basic.liveNodes := nodes |} ->
  (forall k s st, src !! k = Some s -> I k st ->
                  I (S k) (Basic.processSource tgt st s)) ->
  I (length src) (Basic.resolve src tgt nodes).
Proof.
  intros Hinit Hstep. unfold Basic.resolve.
  assert (forall l k st,
            (forall j s, l !! j = Some s -> src !! (k + j) = Some s) ->
            I k st ->
            I (k + length l) (foldl (Basic.processSource tgt) st l)) as Hgen.
  { induction l as [|s l IH]; intros k st Hl Hk; simpl.
    - by rewrite Nat.add_0_r.
    - rewrite <- Nat.add_succ_comm. apply IH.
      + intros j s' Hj. rewrite Nat.add_succ_comm. by apply Hl.
      + apply Hstep; [|done]. rewrite <- (Nat.add_0_r k). by apply Hl. }
  apply (Hgen src 0); [|done]. by intros j s Hj.
Qed.

Lemma basic_yields_intro (lf : FontName -> option string)
    (src tgt : list Basic.TextItem) (nodes : list TextNode)
    (P : Basic.MapState -> Prop) :
  P (Basic.resolve src tgt nodes) -> Basic.yields lf src tgt nodes P.
Proof.
  intros HP. unfold Basic.yields, Basic.mapTextNodes, Basic.ensureFontsLoaded.
  pose proof (first_rejection lf (uniqueFonts nodes)) as Hfonts.
  destruct (omap lf (uniqueFonts nodes)) as [|e r].
  - done.
  - destruct Hfonts as (l1 & f & l2 & Heq & _ & Hf). exists f.
    split; [|done]. rewrite Heq. apply elem_of_app. right. left.
Qed.

Lemma setCharacters_flags (text : string) (n : TextNode) :
  locked (setCharacters text n) = locked n /\
  writeError (setCharacters text n) = writeError n /\
  Basic.writable (setCharacters text n) = Basic.writable n.
Proof. done. Qed.

End BasicMatcher.

(** X16: the earlier [mapTextNodes] counts every source item once, as
    mapped or as skipped; it writes to as many distinct targets as it
    counts mapped, each of them an index of both target lists, so it
    never maps more items than there are targets. *)
Theorem X16_basic_counts (lf : FontName -> option string)
    (src tgt : list Basic.TextItem) (nodes : list TextNode) :
  Basic.yields lf src tgt nodes (fun st =>
    Basic.mapped st + Basic.skipped st = length src /\
    Basic.mapped st = size (Basic.usedIndices st) /\
    (forall t, t ∈ Basic.usedIndices st -> t < length tgt /\ t < length nodes) /\
    Basic.mapped st <= Nat.min (length tgt) (length nodes) /\
    length (Basic.liveNodes st) = length nodes).
Proof.
  apply basic_yields_intro.
  pose proof (basic_resolve_invariant
    (fun k st =>
       Basic.mapped st + Basic.skipped st = k /\
       Basic.mapped st = size (Basic.usedIndices st) /\
       (forall t, t ∈ Basic.usedIndices st -> t < length tgt /\ t < length nodes) /\
       length (Basic.liveNodes st) = length nodes) src tgt nodes) as H.
  destruct H as (Hc & Hm & Hu & Hl).
  - simpl. split; [done|]. split; [done|]. split; [|done].
    intros t Ht. by apply elem_of_empty in Ht.
  - intros k s st _ (Hc & Hm & Hu & Hl). unfold Basic.processSource.
    assert (Basic.mapped (Basic.skip st) + Basic.skipped (Basic.skip st) = S k /\
            Basic.mapped (Basic.skip st) = size (Basic.usedIndices (Basic.skip st)) /\
            (forall t, t ∈ Basic.usedIndices (Basic.skip st) ->
                       t < length tgt /\ t < length nodes) /\
            length (Basic.liveNodes (Basic.skip st)) = length nodes) as Hskip.
    { simpl. split; [lia|done]. }
    destruct (Basic.targetIndexOf _ s tgt) as [t|] eqn:Ht; [|done].
    apply targetIndexOf_Some in Ht as [Hnew Hlt].
    destruct (Basic.liveNodes st !! t) as [n|] eqn:Hn; [|done].
    destruct (locked n); [done|].
    destruct (writeError n); [done|].
    simpl. split; [lia|]. split.
    { rewrite size_union by (by apply disjoint_singleton_l).
      rewrite size_singleton. lia. }
    split; [|by rewrite length_insert].
    intros t' [->%elem_of_singleton|Ht']%elem_of_union; [|by apply Hu].
    split; [done|]. rewrite <- Hl. by eapply lookup_lt_Some.
  - repeat split; try done; try (by apply Hu).
    rewrite Hm.
    assert (Basic.usedIndices (Basic.resolve src tgt nodes) ⊆
            set_seq 0 (Nat.min (length tgt) (length nodes))) as Hsub.
    { intros t Ht. apply elem_of_set_seq. apply Hu in Ht. lia. }
    apply subseteq_size in Hsub. by rewrite size_set_seq in Hsub.
Qed.

(** X17: the earlier [mapTextNodes] changes target nodes only by writing
    the characters of a source item into a node that is neither locked
    nor refusing the write, and marks exactly those nodes as used: a
    node that is not marked is as it was before the call. *)
Theorem X17_basic_writes (lf : FontName -> option string)
    (src tgt : list Basic.TextItem) (nodes : list TextNode) :
  Basic.yields lf src tgt nodes (fun st =>
    (forall t, t ∉ Basic.usedIndices st -> Basic.liveNodes st !! t = nodes !! t) /\
    (forall t, t ∈ Basic.usedIndices st ->
       exists n s, nodes !! t = Some n /\ s ∈ src /\
                   Basic.writable n = true /\
                   Basic.liveNodes st !! t =
                     Some (setCharacters (Basic.characters s) n)) /\
    (forall t n, nodes !! t = Some n -> Basic.writable n = false ->
                 Basic.liveNodes st !! t = Some n)).
Proof.
  apply basic_yields_intro.
  pose proof (basic_resolve_invariant
    (fun k st =>
       (forall t, t ∉ Basic.usedIndices st -> Basic.liveNodes st !! t = nodes !! t) /\
       (forall t, t ∈ Basic.usedIndices st ->
          exists n s, nodes !! t = Some n /\ s ∈ src /\
                      Basic.writable n = true /\
                      Basic.liveNodes st !! t =
                        Some (setCharacters (Basic.characters s) n)))
    src tgt nodes) as H.
  destruct H as (Hsame & Hused).
  - simpl. split; [done|]. intros t Ht. by apply elem_of_empty in Ht.
  - intros k s st Hs (Hsame & Hused). unfold Basic.processSource.
    destruct (Basic.targetIndexOf _ s tgt) as [t|] eqn:Ht; [|done].
    apply targetIndexOf_Some in Ht as [Hnew Hlt].
    destruct (Basic.liveNodes st !! t) as [n|] eqn:Hn; [|done].
    destruct (locked n) eqn:Hlocked; [done|].
    destruct (writeError n) eqn:Hwrite; [done|].
    simpl. split.
    + intros t' Ht'. rewrite not_elem_of_union, not_elem_of_singleton in Ht'.
      destruct Ht' as [Hne Ht']. rewrite list_lookup_insert_ne by done.
      by apply Hsame.
    + intros t' [->%elem_of_singleton|Ht']%elem_of_union.
      * exists n, s. rewrite <- (Hsame t Hnew).
        split; [done|]. split; [by eapply list_elem_of_lookup_2|].
        split; [unfold Basic.writable; rewrite Hlocked, Hwrite; done|].
        apply list_lookup_insert_eq. by eapply lookup_lt_Some.
      * rewrite list_lookup_insert_ne by (intros ->; done). by apply Hused.
  - split; [done|]. split; [done|].
    intros t n Hn Hw.
    destruct (decide (t ∈ Basic.usedIndices (Basic.resolve src tgt nodes))) as [Hin|Hout].
    + destruct (Hused t Hin) as (n' & s & Hn' & _ & Hw' & _). congruence.
    + by rewrite Hsame.
Qed.

Section BasicOutcomes.

Lemma findIndex_none {A} (p : A -> nat -> bool) (l : list A) :
  (forall k x, l !! k = Some x -> p x k = false) -> Basic.findIndex p l = None.
Proof.
  intros Hall. unfold Basic.findIndex.
  destruct (Basic.findIndex_from p 0 l) as [t|] eqn:Hfind; [|done].
  apply findIndex_from_Some in Hfind as (k & x & -> & Hx & Hp & _).
  simpl in Hp. rewrite (Hall k x Hx) in Hp. done.
Qed.

Lemma strict_eq_str_spec (a b : option string) :
  Js.strict_eq_str a b = true <-> a = b.
Proof.
  destruct a as [x|], b as [y|]; simpl; try (split; done).
  rewrite String.eqb_eq. split; congruence.
Qed.

Lemma writable_false (n : TextNode) :
  Basic.writable n = false ->
  locked n = true \/ exists e, locked n = false /\ writeError n = Some e.
Proof.
  unfold Basic.writable. destruct (locked n); [by left|].
  destruct (writeError n) as [e|]; [|done]. right. eauto.
Qed.

Lemma writable_true (n : TextNode) :
  Basic.writable n = true -> locked n = false /\ writeError n = None.
Proof.
  unfold Basic.writable. destruct (locked n); [done|].
  by destruct (writeError n).
Qed.

Lemma filter_snoc_length (nodes : list TextNode) (k : nat) (n : TextNode) :
  nodes !! k = Some n ->
  length (List.filter Basic.writable (take (S k) nodes)) =
  length (List.filter Basic.writable (take k nodes)) +
  (if Basic.writable n then 1 else 0).
Proof.
  intros Hn. rewrite (take_S_r _ _ _ Hn), List.filter_app, length_app. simpl.
  by destruct (Basic.writable n).
Qed.

End BasicOutcomes.

(** X18: when every target node takes a write and there are as many
    target nodes as target items, the earlier [mapTextNodes] leaves no
    target unused while source items remain: it maps as many items as the
    shorter of the two lists has, and skips only the source items in
    excess of the targets. *)
Theorem X18_basic_nothing_left_over (lf : FontName -> option string)
    (src tgt : list Basic.TextItem) (nodes : list TextNode) :
  length nodes = length tgt ->
  (forall n, n ∈ nodes -> Basic.writable n = true) ->
  Basic.yields lf src tgt nodes (fun st =>
    Basic.mapped st = Nat.min (length src) (length tgt) /\
    Basic.skipped st = length src - length tgt).
Proof.
  intros Hlen Hall. apply basic_yields_intro.
  pose proof (basic_resolve_invariant
    (fun k st =>
       Basic.mapped st + Basic.skipped st = k /\
       Basic.mapped st = size (Basic.usedIndices st) /\
       (forall t, t ∈ Basic.usedIndices st -> t < length tgt) /\
       Basic.mapped st = Nat.min k (length tgt) /\
       Forall (fun n => Basic.writable n = true) (Basic.liveNodes st) /\
       length (Basic.liveNodes st) = length nodes) src tgt nodes) as H.
  destruct H as (Hc & _ & _ & Hm & _); [| |lia].
  - simpl. split; [done|]. split; [done|]. split.
    { intros t Ht. by apply elem_of_empty in Ht. }
    split; [done|]. split; [|done]. by apply Forall_forall.
  - intros k s st _ (Hc & Hm & Hu & Hmin & Hw & Hl). unfold Basic.processSource.
    destruct (Basic.targetIndexOf _ s tgt) as [t|] eqn:Ht.
    + apply targetIndexOf_Some in Ht as [Hnew Hlt].
      destruct (lookup_lt_is_Some_2 (Basic.liveNodes st) t) as [n Hn]; [lia|].
      rewrite Hn.
      pose proof (Forall_lookup_1 _ _ _ _ Hw Hn) as Hwn. simpl in Hwn.
      destruct (writable_true n Hwn) as [-> ->].
      assert (size ({[t]} ∪ Basic.usedIndices st) = S (size (Basic.usedIndices st)))
        as Hsize.
      { rewrite size_union by (by apply disjoint_singleton_l).
        by rewrite size_singleton. }
      assert ({[t]} ∪ Basic.usedIndices st ⊆ set_seq 0 (length tgt)) as Hsub.
      { intros t' [->%elem_of_singleton|Ht']%elem_of_union; apply elem_of_set_seq;
          [lia|]. apply Hu in Ht'. lia. }
      apply subseteq_size in Hsub. rewrite size_set_seq, Hsize in Hsub.
      cbn [Basic.mapped Basic.skipped Basic.usedIndices Basic.liveNodes].
      split; [lia|]. split; [lia|]. split.
      { intros t' [->%elem_of_singleton|Ht']%elem_of_union; [done|by apply Hu]. }
      split; [lia|]. split; [|by rewrite length_insert].
      apply Forall_insert; [done|exact Hwn].
    + assert (set_seq 0 (length tgt) ⊆ Basic.usedIndices st) as Hsub.
      { intros t' Ht'%elem_of_set_seq. eapply targetIndexOf_None; [done|lia]. }
      apply subseteq_size in Hsub. rewrite size_set_seq in Hsub.
      unfold Basic.skip.
      cbn [Basic.mapped Basic.skipped Basic.usedIndices Basic.liveNodes].
      split; [lia|]. split; [done|]. split; [done|]. split; [lia|done].
Qed.

Lemma X18_basic_nothing_left_over_witness :
  Basic.yields Sample.allFontsLoad BasicDemo.items BasicDemo.otherShape
    BasicDemo.nodes
    (fun st => Basic.mapped st = 2 /\ Basic.skipped st = 0).
Proof.
  apply (X18_basic_nothing_left_over Sample.allFontsLoad BasicDemo.items
           BasicDemo.otherShape BasicDemo.nodes).
  - reflexivity.
  - intros n Hn. unfold BasicDemo.nodes in Hn.
    repeat (apply elem_of_cons in Hn as [->|Hn]; [reflexivity|]).
    by apply elem_of_nil in Hn.
Defined.

(** X19: when the target items have, position by position, the paths of
    the source items, and no path occurs twice, the earlier
    [mapTextNodes] puts the characters of every source item into the
    target node at its own position, unless that node is locked or
    refuses the write; such a node is left as it was and its source item
    is counted as skipped. *)
Theorem X19_basic_same_shape (lf : FontName -> option string)
    (src tgt : list Basic.TextItem) (nodes : list TextNode) :
  map Basic.path tgt = map Basic.path src ->
  NoDup (map Basic.path src) ->
  length nodes = length tgt ->
  Basic.yields lf src tgt nodes (fun st =>
    Basic.liveNodes st = zip_with Basic.transfer src nodes /\
    Basic.mapped st = length (List.filter Basic.writable nodes) /\
    Basic.mapped st + Basic.skipped st = length src).
Proof.
  intros Hpaths Hnodup Hlen. apply basic_yields_intro.
  assert (length tgt = length src) as Hlen'.
  { rewrite <- (length_map Basic.path tgt), Hpaths. apply length_map. }
  pose proof (basic_resolve_invariant
    (fun k st =>
       (forall t, t ∈ Basic.usedIndices st -> t < k) /\
       length (Basic.liveNodes st) = length nodes /\
       (forall t, k <= t -> Basic.liveNodes st !! t = nodes !! t) /\
       (forall t s n, t < k -> src !! t = Some s -> nodes !! t = Some n ->
                      Basic.liveNodes st !! t = Some (Basic.transfer s n)) /\
       Basic.mapped st = length (List.filter Basic.writable (take k nodes)) /\
       Basic.mapped st + Basic.skipped st = k) src tgt nodes) as H.
  destruct H as (_ & Hl & _ & Hdone & Hm & Hc).
  - simpl. split; [intros t Ht; by apply elem_of_empty in Ht|].
    split; [done|]. split; [done|]. split; [intros; lia|done].
  - intros k s st Hs (Hu & Hl & Hrest & Hdone & Hm & Hc).
    assert (k < length src) as Hk by (by eapply lookup_lt_Some).
    destruct (lookup_lt_is_Some_2 tgt k) as [x Hx]; [lia|].
    destruct (lookup_lt_is_Some_2 nodes k) as [n Hn]; [lia|].
    assert (Basic.path x = Basic.path s) as Hxs.
    { assert (map Basic.path tgt !! k = Some (Basic.path x)) as H1
        by (by rewrite list_lookup_fmap, Hx).
      rewrite Hpaths, list_lookup_fmap, Hs in H1. by injection H1. }
    assert (k ∉ Basic.usedIndices st) as Hnew.
    { intros Hin. apply Hu in Hin. lia. }
    assert (Basic.targetIndexOf (Basic.usedIndices st) s tgt = Some k) as Ht.
    { unfold Basic.targetIndexOf.
      rewrite (findIndex_first _ tgt k x Hx); [done| |].
      - apply andb_true_iff. split.
        + by apply negb_true_iff, bool_decide_eq_false.
        + by apply path_equal_spec.
      - intros j y Hj Hy. apply andb_false_iff. right.
        apply not_true_iff_false. intros Heq%path_equal_spec.
        assert (map Basic.path src !! j = Some (Basic.path s)) as H1.
        { rewrite <- Hpaths, list_lookup_fmap, Hy. simpl. by rewrite Heq. }
        assert (map Basic.path src !! k = Some (Basic.path s)) as H2
          by (by rewrite list_lookup_fmap, Hs).
        pose proof (NoDup_lookup _ _ _ _ Hnodup H1 H2). lia. }
    unfold Basic.processSource. rewrite Ht, (Hrest k (le_n k)), Hn.
    pose proof (filter_snoc_length nodes k n Hn) as Hcount.
    assert (Basic.writable n = false ->
            (forall t, t ∈ Basic.usedIndices (Basic.skip st) -> t < S k) /\
            length (Basic.liveNodes (Basic.skip st)) = length nodes /\
            (forall t, S k <= t -> Basic.liveNodes (Basic.skip st) !! t = nodes !! t) /\
            (forall t s0 n0, t < S k -> src !! t = Some s0 -> nodes !! t = Some n0 ->
               Basic.liveNodes (Basic.skip st) !! t = Some (Basic.transfer s0 n0)) /\
            Basic.mapped (Basic.skip st) =
              length (List.filter Basic.writable (take (S k) nodes)) /\
            Basic.mapped (Basic.skip st) + Basic.skipped (Basic.skip st) = S k)
      as Hskip.
    { intros Hw. rewrite Hw in Hcount. simpl.
      split; [intros t Hin; apply Hu in Hin; lia|].
      split; [done|]. split; [intros t Hle; apply Hrest; lia|].
      split; [|lia].
      intros t s0 n0 Hlt Hs0 Hn0.
      destruct (decide (t = k)) as [->|Hne]; [|apply Hdone; [lia|done..]].
      rewrite (Hrest k (le_n k)), Hn in *. injection Hn0 as <-.
      unfold Basic.transfer. by rewrite Hw. }
    destruct (locked n) eqn:Hlocked.
    { apply Hskip. unfold Basic.writable. by rewrite Hlocked. }
    destruct (writeError n) as [e|] eqn:Hwrite.
    { apply Hskip. unfold Basic.writable. by rewrite Hlocked, Hwrite. }
    assert (Basic.writable n = true) as Hw
      by (unfold Basic.writable; by rewrite Hlocked, Hwrite).
    rewrite Hw in Hcount. simpl.
    split.
    { intros t [->%elem_of_singleton|Hin]%elem_of_union; [lia|].
      apply Hu in Hin. lia. }
    split; [by rewrite length_insert|].
    split.
    { intros t Hle. rewrite list_lookup_insert_ne by lia. apply Hrest. lia. }
    split; [|lia].
    intros t s0 n0 Hlt Hs0 Hn0.
    destruct (decide (t = k)) as [->|Hne].
    + rewrite Hs in Hs0. rewrite Hn in Hn0. injection Hs0 as <-. injection Hn0 as <-.
      rewrite list_lookup_insert_eq by lia.
      unfold Basic.transfer. by rewrite Hw.
    + rewrite list_lookup_insert_ne by done. apply Hdone; [lia|done..].
  - split; [|split; [|done]].
    + apply list_eq. intros i. rewrite lookup_zip_with.
      destruct (src !! i) as [s|] eqn:Hs; simpl.
      * assert (i < length src) as Hi by (by eapply lookup_lt_Some).
        destruct (lookup_lt_is_Some_2 nodes i) as [n Hn]; [lia|].
        rewrite Hn. simpl. by apply Hdone.
      * apply lookup_ge_None. apply lookup_ge_None in Hs. lia.
    + rewrite Hm. by rewrite take_ge by lia.
Qed.

Lemma X19_basic_same_shape_witness :
  Basic.yields Sample.allFontsLoad BasicDemo.items BasicDemo.sameShape
    BasicDemo.firstLocked
    (fun st => Basic.liveNodes st =
               zip_with Basic.transfer BasicDemo.items BasicDemo.firstLocked /\
               Basic.mapped st = 1 /\
               Basic.mapped st + Basic.skipped st = 2).
Proof.
  apply (X19_basic_same_shape Sample.allFontsLoad BasicDemo.items
           BasicDemo.sameShape BasicDemo.firstLocked).
  - reflexivity.
  - vm_compute. repeat constructor; intros H; inversion H; subst;
      match goal with
      | H' : _ ∈ [] |- _ => inversion H'
      | H' : _ ∈ _ :: _ |- _ => inversion H'
      end.
  - reflexivity.
Defined.

(** X20: the order fallback always offers the first target that has not
    been written to, and a target that is locked or refuses the write is
    never marked as used.  So when the first target node is such a node,
    the source items that match no target by path or by name are all
    skipped, whatever other targets are free: if no source item matches
    any target, nothing is transferred at all. *)
Theorem X20_basic_fallback_blocked (lf : FontName -> option string)
    (src tgt : list Basic.TextItem) (nodes : list TextNode)
    (x0 : Basic.TextItem) (n0 : TextNode) :
  tgt !! 0 = Some x0 ->
  nodes !! 0 = Some n0 ->
  Basic.writable n0 = false ->
  (forall s t, s ∈ src -> t ∈ tgt ->
     Basic.path t <> Basic.path s /\
     (Js.truthy_str (Basic.name s) = true -> Basic.name t <> Basic.name s)) ->
  Basic.yields lf src tgt nodes (fun st =>
    Basic.mapped st = 0 /\ Basic.skipped st = length src /\
    Basic.liveNodes st = nodes).
Proof.
  intros Hx0 Hn0 Hw Hmatch. apply basic_yields_intro.
  pose proof (basic_resolve_invariant
    (fun k st =>
       Basic.mapped st = 0 /\ Basic.skipped st = k /\
       Basic.usedIndices st = ∅ /\ Basic.liveNodes st = nodes) src tgt nodes) as H.
  destruct H as (Hm & Hs & _ & Hl); [done| |done].
  intros k s st Hs (Hm & Hk & Hu & Hl).
  assert (s ∈ src) as Hin by (by eapply list_elem_of_lookup_2).
  assert (Basic.targetIndexOf (Basic.usedIndices st) s tgt = Some 0) as Ht.
  { unfold Basic.targetIndexOf. rewrite Hu.
    rewrite findIndex_none.
    2: { intros j y Hy. apply andb_false_iff. right.
         apply not_true_iff_false. intros Heq%path_equal_spec.
         by destruct (Hmatch s y Hin (list_elem_of_lookup_2 _ _ _ Hy)) as [Hp _]. }
    assert (Basic.findIndex (fun (_ : Basic.TextItem) idx =>
                               negb (bool_decide (idx ∈ (∅ : gset nat)))) tgt = Some 0)
      as H3.
    { apply (findIndex_first _ tgt 0 x0 Hx0); [done|]. intros j y Hj. lia. }
    destruct (Js.truthy_str (Basic.name s)) eqn:Htruthy; [|exact H3].
    rewrite findIndex_none; [exact H3|].
    intros j y Hy. apply andb_false_iff. right.
    apply not_true_iff_false. intros Heq%strict_eq_str_spec.
    destruct (Hmatch s y Hin (list_elem_of_lookup_2 _ _ _ Hy)) as [_ Hname].
    by apply Hname. }
  unfold Basic.processSource. rewrite Ht, Hl, Hn0.
  destruct (writable_false n0 Hw) as [->|(e & -> & ->)]; simpl; by rewrite Hk.
Qed.

Lemma X20_basic_fallback_blocked_witness :
  Basic.yields Sample.allFontsLoad BasicDemo.items BasicDemo.otherShape
    BasicDemo.firstLocked
    (fun st => Basic.mapped st = 0 /\ Basic.skipped st = 2 /\
               Basic.liveNodes st = BasicDemo.firstLocked).
Proof.
  apply (X20_basic_fallback_blocked Sample.allFontsLoad BasicDemo.items
           BasicDemo.otherShape BasicDemo.firstLocked
           (Basic.mkTextItem [0] (Some "Heading") "World")
           (Sample.node "Heading" "World" true)).
  - reflexivity.
  - reflexivity.
  - reflexivity.
  - intros s t Hs Ht. unfold BasicDemo.items in Hs. unfold BasicDemo.otherShape in Ht.
    repeat (apply elem_of_cons in Hs as [->|Hs]);
      try (by apply elem_of_nil in Hs);
      repeat (apply elem_of_cons in Ht as [->|Ht]);
      try (by apply elem_of_nil in Ht);
      (split; [discriminate|intros _; discriminate]).
Defined.

(** ** The rule of the resolution *)

Section Greedy.

Variable tgt : list TextItem.

Lemma find_split {A} (p : A -> bool) (l : list A) (b : A) :
  List.find p l = Some b ->
  exists l1 l2, l = l1 ++ b :: l2 /\ Forall (fun x => p x = false) l1.
Proof.
  induction l as [|a l IH]; simpl; [done|].
  destruct (p a) eqn:E.
  - intros [= ->]. by exists [], l.
  - intros (l1 & l2 & -> & Hl1)%IH. exists (a :: l1), l2. split; [done|].
    by constructor.
Qed.

(** The entry that the search for an unclaimed target returns. *)
Lemma greedy_find (used : gset nat) (k : nat) (s : TextItem) (best : ScoreEntry) :
  List.find (fun e => negb (bool_decide (targetIndex e ∈ used)))
            (sortScores (candidates ∅ k s tgt)) = Some best ->
  exists tt,
    tgt !! targetIndex best = Some tt /\ (0 < pairScore s tt)%Q /\
    (targetIndex best ∉ used) /\
    (forall m, m ∈ sortScores (candidates ∅ k s tgt) ->
               targetIndex m = targetIndex best -> score m = pairScore s tt) /\
    forall j tj, tgt !! j = Some tj ->
      (pairScore s tt < pairScore s tj)%Q ->
      j ∈ used.
Proof.
  intros Hfind. destruct (find_unclaimed _ _ _ Hfind) as [Hin Hfresh].
  rewrite elem_of_sortScores, elem_of_candidates in Hin.
  destruct Hin as (ti & tt & Htt & _ & Hpos & ->). cbn [targetIndex score] in *.
  exists tt. split; [done|]. split; [done|]. split; [done|]. split.
  { intros m Hm Hmt. rewrite elem_of_sortScores, elem_of_candidates in Hm.
    destruct Hm as (ti' & tt' & Htt' & _ & _ & ->). cbn [targetIndex score] in *.
    congruence. }
  intros j tj Htj Hcmp.
  assert (mkScoreEntry k j (pairScore s tj) ∈ sortScores (candidates ∅ k s tgt))
    as Hj.
  { rewrite elem_of_sortScores, elem_of_candidates. exists j, tj.
    split; [done|]. split; [apply not_elem_of_empty|]. split; [lra|done]. }
  destruct (find_split _ _ _ Hfind) as (l1 & l2 & Heq & Hl1).
  pose proof (sortScores_sorted (candidates ∅ k s tgt)) as Hsorted.
  rewrite Heq in Hj, Hsorted.
  apply elem_of_app in Hj as [Hj|Hj].
  - apply (proj1 (Forall_forall _ _) Hl1) in Hj. cbn beta in Hj.
    by apply negb_false_iff, bool_decide_eq_true in Hj.
  - exfalso. apply StronglySorted_app_1_r, StronglySorted_inv in Hsorted as [_ Hall].
    apply elem_of_cons in Hj as [Hj|Hj].
    + pose proof (f_equal score Hj) as Hsc. cbn [score] in Hsc.
      rewrite Hsc in Hcmp. by apply Qlt_irrefl in Hcmp.
    + apply (proj1 (Forall_forall _ _) Hall) in Hj.
      unfold scores_desc in Hj. cbn [score] in Hj. lra.
Qed.

Lemma written_before_ext (tr tr' : list Outcome) (k j : nat) :
  (forall k', k' < k -> tr !! k' = tr' !! k') ->
  written_before tr k j -> written_before tr' k j.
Proof.
  intros Hsame (k' & sc & Hlt & Hk'). exists k', sc. by rewrite <- Hsame.
Qed.

Lemma greedy_choice_ext (tr tr' : list Outcome) (k : nat) (s : TextItem)
    (o : Outcome) :
  (forall k', k' < k -> tr !! k' = tr' !! k') ->
  greedy_choice tgt tr k s o -> greedy_choice tgt tr' k s o.
Proof.
  intros Hsame. unfold greedy_choice.
  assert (forall k', k' < k -> tr' !! k' = tr !! k') as Hsame'
    by (intros k' Hk'; by rewrite Hsame).
  destruct (selected o) as [t|].
  - intros (tt & Htt & Hpos & Hfresh & Hsc & Hbest). exists tt.
    split; [done|]. split; [done|]. split.
    { intros Hw. apply Hfresh. by eapply written_before_ext. }
    split; [done|]. intros j tj Htj Hcmp.
    eapply written_before_ext; [exact Hsame|]. by eapply Hbest.
  - intros Hall j tj Htj Hpos.
    eapply written_before_ext; [exact Hsame|]. by eapply Hall.
Qed.

(** One turn selects by the rule, given that the claimed targets are
    those written by the turns before it. *)
Lemma turn_greedy (op : bool) (total k : nat) (s : TextItem)
    (st st' : MapState) (o : Outcome) :
  turn op total k s (sortScores (candidates ∅ k s tgt)) st o st' ->
  length (trace st) = k ->
  claims_ok tgt st ->
  trace st' = trace st ++ [o] /\ greedy_choice tgt (trace st) k s o.
Proof.
  intros Hturn Hlen (_ & Hu & _ & _ & Hw).
  assert (forall j, j ∈ usedIndices st -> written_before (trace st) k j) as Hin.
  { intros j (k' & sc & Hk')%Hw. exists k', sc. split; [|done].
    rewrite <- Hlen. by eapply lookup_lt_Some. }
  assert (forall j, written_before (trace st) k j -> j ∈ usedIndices st) as Hout.
  { intros j (k' & sc & _ & Hk'). by eapply Hu. }
  assert (forall best,
            List.find (fun e => negb (bool_decide (targetIndex e ∈ usedIndices st)))
                      (sortScores (candidates ∅ k s tgt)) = Some best ->
            forall o0, selected o0 = Some (targetIndex best) ->
              (forall sc, o0 = Transferred (targetIndex best) sc ->
                 exists m, m ∈ sortScores (candidates ∅ k s tgt) /\
                           targetIndex m = targetIndex best /\ sc = score m) ->
              greedy_choice tgt (trace st) k s o0) as Hfound.
  { intros best Hfind o0 Hsel Hscore. unfold greedy_choice. rewrite Hsel.
    destruct (greedy_find _ _ _ _ Hfind) as (tt & Htt & Hpos & Hfresh & Hm & Hbest).
    exists tt. split; [done|]. split; [done|]. split; [by intros ?%Hout|].
    split.
    - intros sc (m & Hmin & Hmt & ->)%Hscore. by apply Hm.
    - intros j tj Htj Hcmp. apply Hin. by eapply Hbest. }
  destruct Hturn as [Hs|Hs Hall|best Hfind Hn|best n Hfind Hn Hl
                     |best n e Hfind Hn Hl He|best n m Hfind Hn Hl He Hm Hmt];
    (split; [reflexivity|]).
  - intros j tj Htj Hpos. exfalso.
    assert (mkScoreEntry k j (pairScore s tj) ∈ sortScores (candidates ∅ k s tgt))
      as Hj.
    { rewrite elem_of_sortScores, elem_of_candidates. exists j, tj.
      split; [done|]. split; [apply not_elem_of_empty|done]. }
    rewrite Hs in Hj. by apply elem_of_nil in Hj.
  - intros j tj Htj Hpos. apply Hin.
    apply (Hall (mkScoreEntry k j (pairScore s tj))).
    rewrite elem_of_sortScores, elem_of_candidates. exists j, tj.
    split; [done|]. split; [apply not_elem_of_empty|done].
  - by apply (Hfound best).
  - by apply (Hfound best).
  - by apply (Hfound best).
  - apply (Hfound best); [done..|]. intros sc Hsc.
    exists m. split; [done|]. split; [done|]. congruence.
Qed.

Lemma resolve_greedy (src : list TextItem) (nodes : list TextNode) (op : bool) :
  forall k s o,
    src !! k = Some s ->
    trace (resolve src tgt nodes op) !! k = Some o ->
    greedy_choice tgt (trace (resolve src tgt nodes op)) k s o.
Proof.
  unfold resolve.
  pose proof (processMappings_invariant
    (fun i st =>
       length (trace st) = i /\ claims_ok tgt st /\
       forall k s o, src !! k = Some s -> trace st !! k = Some o ->
                     greedy_choice tgt (trace st) k s o) op
    (length (createScoringMatrix ∅ src tgt))
    (zip src (createScoringMatrix ∅ src tgt)) 0 (initialMapState nodes)) as H.
  apply H; clear H.
  - split; [done|]. split; [|done]. unfold claims_ok. simpl. repeat split; done.
  - intros k s scores st o st' Hrow (Hlen & Hclaims & Hall) Hturn. simpl in *.
    apply lookup_rows in Hrow as [Hs ->].
    destruct (turn_greedy _ _ _ _ _ _ _ Hturn Hlen Hclaims) as [Htr Hgreedy].
    split; [rewrite Htr, length_app; simpl; lia|].
    split.
    { eapply turn_claims_ok; [|exact Hturn|exact Hclaims].
      intros e He. by eapply row_target_bound. }
    intros k' s' o' Hs' Ho'. rewrite Htr in Ho' |- *.
    apply lookup_snoc_Some in Ho' as [[Hlt Ho']|[Heq Ho']].
    + eapply greedy_choice_ext; [|by eapply Hall].
      intros k0 Hk0. rewrite lookup_app_l by lia. done.
    + subst k' o'. rewrite Hlen in Hs' |- *. assert (s' = s) as -> by congruence.
      eapply greedy_choice_ext; [|exact Hgreedy].
      intros k0 Hk0. rewrite lookup_app_l by lia. done.
Qed.

End Greedy.

(** X21: the resolution is greedy in the order of the source items.  The
    target that the turn of a source item selects is a candidate of that
    item (its score is positive) that no earlier turn has written to, and
    every target that scores strictly higher for the item was written to
    by an earlier turn; the score recorded with a transfer is the score
    of the pair.  A turn selects no target only when every candidate of
    its item was written to by an earlier turn. *)
Theorem X21_resolution_is_greedy (loadFontAsync : FontName -> option string)
    (sourceItems targetItems : list TextItem) (targetNodes : list TextNode)
    (onProgress : bool) :
  mapTextNodes_yields loadFontAsync sourceItems targetItems targetNodes onProgress
    (fun st =>
       length (trace st) = length sourceItems /\
       forall k s o,
         sourceItems !! k = Some s -> trace st !! k = Some o ->
         greedy_choice targetItems (trace st) k s o).
Proof.
  apply mapTextNodes_yields_intro. split.
  - by destruct (resolve_counted sourceItems targetItems targetNodes onProgress)
      as (_ & _ & Hlen & _).
  - apply resolve_greedy.
Qed.
